(** * CasADi: the SQP driver [SQPInternal::evaluate] and the call node
      [Evaluation] of the MX graph

    Source files embedded here:
    - [nonlinear_programming/sqp_internal.cpp] (module [SQPInternal]),
    - [casadi/mx/evaluation.cpp] (module [Evaluation]).

    Modelling conventions.
    - A C++ [double] is an exact rational ([Q]): rounding, NaN and the
      infinities are not represented.  Literals such as [0.8], [1.01],
      [1E-20] are the exact decimal values.  The properties proved
      below are of the tests, the selections and the bookkeeping of
      the code; none bounds a value that binary64 would round, such as
      the entries of the shifted Hessian of lines 232-237 or of the
      damped update of lines 487-496.
    - A C++ [int] is a [Z]; overflow is not reached by the loops below
      and is not modelled.  Where the source compares an [int] with a
      [size_t] the conversion to unsigned is written out.
    - [std::vector<double>] and column [DMatrix] values are [list Q];
      reading index [i] is [vnth v i].
    - A sparse [DMatrix] in compressed-row storage is kept row by row:
      row [i] lists the pairs [(col[el], data[el])] for
      [el] in [rowind[i] .. rowind[i+1]-1].
    - The function objects [F_], [G_], [H_], [J_], the QP solver and the
      callback are collaborators whose code is not part of the two
      files; they are fields of the record [SQP]. *)

From Stdlib Require Import QArith Qabs Lqa Lia ZArith List Bool Ascii.
From stdpp Require Import base option list gmap.

(** ** Numbers and vectors *)

(** The comparisons [a < b] and [a <= b] of two doubles, as tests. *)
Definition Qltb (a b : Q) : bool := negb (Qle_bool b a).

Infix "<?" := Qltb (at level 70, no associativity) : Q_scope.
Infix "<=?" := Qle_bool (at level 70, no associativity) : Q_scope.

Abbreviation vec := (list Q).

(** [v[i]]; reading past the end, undefined in the source, gives [0]. *)
Definition vnth (v : vec) (i : nat) : Q := nth i v 0%Q.

(** [fabs] of [<cmath>]. *)
Definition fabs : Q -> Q := Qabs.

(** The sum of a list of numbers, used to state what the accumulation
    loops compute. *)
Definition Qsum (l : vec) : Q := fold_right Qplus 0%Q l.

(** [std::transform(a.begin(), a.end(), b.begin(), dest.begin(), op)]:
    writes [op a[k] b[k]] to [dest[k]] for every [k < a.size()]; what
    follows in [dest] is kept. *)
Fixpoint transform (op : Q -> Q -> Q) (a b dest : vec) : vec :=
  match a with
  | [] => dest
  | ak :: a' => op ak (hd 0%Q b) :: transform op a' (tl b) (tl dest)
  end.

Module SQPInternal.

Local Open Scope Q_scope.

(** ** Sparse matrices

    The matrix library ([symbolic/matrix]) is not among the sources;
    the operations of it that [evaluate] calls are modelled below by
    what they compute. *)

Abbreviation row := (list (nat * Q)).
Abbreviation DMatrix := (list (list (nat * Q))).

(** Modelled from the spec: [B.size1()], the number of rows. *)
Definition size1 (B : DMatrix) : nat := length B.

(** Modelled from the spec: [getNZ] of the sparsity pattern, the
    stored entry of a row in column [j], if any. *)
Definition getNZ (r : row) (j : nat) : option Q :=
  snd <$> find (fun e => Nat.eqb (fst e) j) r.

(** Modelled from the spec: [B(i,j).elem(0)], the entry [B_ij]; a
    structural zero reads as [0]. *)
Definition elem (B : DMatrix) (i j : nat) : Q :=
  default 0 (getNZ (nth i B []) j).

(** Modelled from the spec: [DMatrix::eye(n)], the identity [I]. *)
Definition eye (n : nat) : DMatrix := map (fun i => [(i, 1)]) (seq 0 n).

(** Modelled from the spec: a dense [n] by [n] matrix given entry by
    entry, as [makeDense] and the dense sums of the BFGS update give. *)
Definition dense (n : nat) (f : nat -> nat -> Q) : DMatrix :=
  map (fun i => map (fun j => (j, f i j)) (seq 0 n)) (seq 0 n).

(** Modelled from the spec: [mul(B, v)] for a column [v], the product
    [B * v]. *)
Definition mul (B : DMatrix) (v : vec) : vec :=
  map (fun r : row => fold_left (fun acc e => acc + snd e * vnth v (fst e)) r 0) B.

(** Modelled from the spec: [inner_prod(u, v)] of two columns, the
    scalar [u'v]. *)
Definition inner_prod (u v : vec) : Q :=
  fold_left Qplus (zip_with Qmult u v) 0.

(** Modelled from the spec: the arithmetic of columns, [c * v],
    [u + v] and [u - v]. *)
Definition vscale (c : Q) (v : vec) : vec := map (Qmult c) v.
Definition vadd (u v : vec) : vec := zip_with Qplus u v.
Definition vsub (u v : vec) : vec := zip_with Qminus u v.

(** Modelled from the spec: [norm_1(p)], the 1-norm of the step. *)
Definition norm_1 (v : vec) : Q := fold_left (fun acc vi => acc + fabs vi) v 0.

(** Modelled from the spec: [diag(diag(B))], the matrix [B] collapsed
    to its diagonal. *)
Definition diag_diag (B : DMatrix) : DMatrix :=
  map (fun i => [(i, elem B i i)]) (seq 0 (size1 B)).

(** Modelled from the spec: row [i] of the sum [B + c * I] computed
    by [operator+=].  The diagonal entry is increased by [c * 1], and
    created in column order when it is a structural zero (the sum has
    the union of the two patterns). *)
Fixpoint insert_col (i : nat) (v : Q) (r : row) : row :=
  match r with
  | [] => [(i, v)]
  | e :: r' => if Nat.ltb (fst e) i then e :: insert_col i v r' else (i, v) :: e :: r'
  end.

Definition add_diag_row (i : nat) (c : Q) (r : row) : row :=
  match getNZ r i with
  | Some _ => map (fun e => if Nat.eqb (fst e) i then (fst e, snd e + c * 1) else e) r
  | None => insert_col i (0 + c * 1) r
  end.

(** [B += c * DMatrix::eye(B.size1())]. *)
Definition add_scaled_eye (c : Q) (B : DMatrix) : DMatrix :=
  imap (fun i r => add_diag_row i c r) B.

(** ** Regularization by Gershgorin's theorem (lines 209-238) *)

(** The inner loop over the stored entries of row [i]. *)
Definition gershgorin_radius (i : nat) (r : row) : Q :=
  fold_left (fun radius e => if Nat.eqb i (fst e) then radius else radius + fabs (snd e)) r 0.

(** Line 226: [mineig = Bk(i, i).elem(0) - radius]. *)
Definition mineig (B : DMatrix) (i : nat) : Q :=
  elem B i i - gershgorin_radius i (nth i B []).

(** The outer loop: [reg_param] starts at [0] and takes every smaller
    [mineig]. *)
Definition reg_param (B : DMatrix) : Q :=
  fold_left (fun reg i => if mineig B i <? reg then mineig B i else reg)
            (seq 0 (size1 B)) 0.

(** Lines 232-237: the shift by [-reg_param], or by [0.]. *)
Definition regularize_hessian (B : DMatrix) : DMatrix :=
  if reg_param B <? 0 then add_scaled_eye (- reg_param B) B
  else add_scaled_eye 0 B.

(** The storage invariant of a square sparse matrix: within a row no
    column is stored twice and every column index is in range. *)
Definition well_formed_row (n : nat) (r : row) : Prop :=
  NoDup (map fst r) /\ Forall (fun e => (fst e < n)%nat) r.

Definition well_formed (B : DMatrix) : Prop :=
  Forall (well_formed_row (size1 B)) B.

(** ** Damped BFGS update (lines 479-498) *)

(** The damping factor for given [sk], [yk] and [qk = mul(Bk, sk)]. *)
Definition powell_omega (sk yk qk : vec) : Q :=
  if inner_prod yk sk <? 0.2 * inner_prod sk qk
  then 0.8 * inner_prod sk qk / (inner_prod sk qk - inner_prod sk yk)
  else 1.

(** [yk = omega * yk + (1 - omega) * qk]. *)
Definition damped_yk (sk yk qk : vec) : vec :=
  let omega := powell_omega sk yk qk in
  vadd (vscale omega yk) (vscale (1 - omega) qk).

(** Lines 485-496, from [qk = mul(Bk, sk)] to the rank-two update. *)
Definition bfgs_update (n : nat) (Bk : DMatrix) (sk yk : vec) : DMatrix :=
  let qk := mul Bk sk in
  let yk' := damped_yk sk yk qk in
  let theta := 1 / inner_prod sk yk' in
  let phi := 1 / inner_prod qk sk in
  dense n (fun i j => elem Bk i j + theta * (vnth yk' i * vnth yk' j)
                      - phi * (vnth qk i * vnth qk j)).

(** ** Penalty parameter, infeasibility measures *)

(** Lines 351-356: the loop over the multipliers of the general
    constraints. *)
Definition update_sigma (m : nat) (mu_qp : vec) (sigma : Q) : Q :=
  fold_left (fun s j => if s <? fabs (vnth mu_qp j) then fabs (vnth mu_qp j) * 1.01 else s)
            (seq 0 m) sigma.

(** Lines 364-373 and 410-418. *)
Definition l1_infeasibility (m : nat) (lbg ubg g : vec) : Q :=
  fold_left (fun l1 j =>
               if 0 <? vnth lbg j - vnth g j then l1 + (vnth lbg j - vnth g j)
               else if 0 <? vnth g j - vnth ubg j then l1 + (vnth g j - vnth ubg j)
               else l1)
            (seq 0 m) 0.

(** One pass of the three-way test of lines 505-519 and 521-534. *)
Definition violation_loop (k : nat) (lb ub v : vec) : Q :=
  fold_left (fun acc j =>
               if vnth ub j - vnth lb j <? 1e-20 then acc + fabs (vnth v j - vnth lb j)
               else if 0 <? vnth lb j - vnth v j then acc + (vnth lb j - vnth v j)
               else if 0 <? vnth v j - vnth ub j then acc + (vnth v j - vnth ub j)
               else acc)
            (seq 0 k) 0.

(** Lines 499-536: both loops sit inside [if (!G_.isNull())]. *)
Definition primal_infeasibility (G_isNull : bool) (m n : nat)
    (lbg ubg gk_cand lbx ubx x : vec) : Q :=
  let '(pr_infG, pr_infx) :=
    if negb G_isNull
    then (violation_loop m lbg ubg gk_cand, violation_loop n lbx ubx x)
    else (0, 0) in
  pr_infG + pr_infx.

(** ** The collaborators and the solver object *)

(** Input slots of the QP solver; the buffers persist between solves. *)
Record QPInput := {
  QP_H : DMatrix;
  QP_G : vec;
  QP_A : DMatrix;
  QP_LBA : vec;
  QP_UBA : vec;
  QP_LBX : vec;
  QP_UBX : vec;
  QP_X_INIT : vec
}.

Record QPOutput := {
  QP_PRIMAL : vec;
  QP_LAMBDA_A : vec;
  QP_LAMBDA_X : vec
}.

(** What the callback is given (lines 560-565). *)
Record CallbackInput := {
  cb_X_OPT : vec;
  cb_COST : Q;
  cb_LAMBDA_G : vec;
  cb_LAMBDA_X : vec;
  cb_G : vec
}.

(** The members of [SQPInternal] that [evaluate] reads, the NLP inputs
    and the collaborators.  A function object is represented by what
    its evaluation returns for the inputs and seeds set by the driver:
    - [F_val x] is [F_.output()], [F_adjSens x] is [F_.adjSens()] for
      the adjoint seed [1.0], [F_fwdSens x p] is [F_.fwdSens()] for the
      forward seed [p];
    - [G_val x] is [G_.output()], [G_adjSens x mu] is [G_.adjSens()]
      for the adjoint seed [mu]; [J_val x] is [J_.output()];
    - [H_val x mu] is [H_.output()];
    - [qp_solve] is [qp_solver_.evaluate()], and [qp_buffers] is what
      the input slots of the QP solver hold when [evaluate] is entered
      (lines 175-176 fill [QP_LBX] and [QP_UBX] with the infinities,
      which every iteration overwrites);
    - [callback_eval] is [callback_.output(0).at(0)], depending on all
      the inputs the callback has been given so far, latest first. *)
Record SQP := {
  n_ : nat;
  m_ : nat;
  x_init : vec;
  lbx : vec;
  ubx : vec;
  lbg : vec;
  ubg : vec;
  F_val : vec -> Q;
  F_adjSens : vec -> vec;
  F_fwdSens : vec -> vec -> Q;
  G_isNull : bool;
  G_val : vec -> vec;
  G_adjSens : vec -> vec -> vec;
  J_val : vec -> DMatrix;
  H_val : vec -> vec -> DMatrix;
  qp_solve : QPInput -> QPOutput;
  qp_buffers : QPInput;
  callback_isNull : bool;
  callback_eval : list CallbackInput -> Q;
  hessian_exact : bool;
  regularize : bool;
  maxiter_ : Z;
  maxiter_ls_ : Z;
  c1_ : Q;
  beta_ : Q;
  merit_memsize_ : Z;
  lbfgs_memory_ : Z;
  tol_pr_ : Q;
  tol_du_ : Q
}.

(** What is written to [cout]. *)
Inductive event :=
| Header
| WarnIndefinite
| IterLine (it : Z) (obj pr_inf du_inf corr_norm stepsize : Q)
           (ls_trials : Z) (ls_success : ascii)
| MsgAborted
| MsgConvergence (it : Z)
| MsgMaxIter.

(** The three [break] statements of the main loop. *)
Inductive exit := CallbackAbort | Converged | MaxIter.

(** The variables that live across iterations of the main loop. *)
Record State := {
  x_ : vec;
  x_old_ : vec;
  mu_ : vec;
  mu_x_ : vec;
  gLag_ : vec;
  sigma_ : Q;
  p : vec;
  Bk : DMatrix;
  fk : Q;
  gk : vec;
  merit_mem : list Q;
  it_counter : Z;
  qp_in : QPInput;
  cb_calls : list CallbackInput;
  cout : list event
}.

(** ** Passing the data to the QP solver (lines 292-309) *)

Definition pass_qp_data (S : SQP) (st : State) (Bk1 : DMatrix) (gfk gk1 : vec)
    (Jgk : DMatrix) : QPInput :=
  let q := qp_in st in
  let x_init' := if Nat.eqb (length (p st)) 0 then QP_X_INIT q else p st in
  let '(A, lba, uba) :=
    if Nat.ltb 0 (m_ S)
    then (Jgk, vsub (lbg S) gk1, vsub (ubg S) gk1)
    else (QP_A q, QP_LBA q, QP_UBA q) in
  {| QP_H := Bk1; QP_G := gfk; QP_A := A; QP_LBA := lba; QP_UBA := uba;
     QP_LBX := transform Qminus (lbx S) (x_ st) (QP_LBX q);
     QP_UBX := transform Qminus (ubx S) (x_ st) (QP_UBX q);
     QP_X_INIT := x_init' |}.

(** ** Line search (lines 388-442) *)

(** [x_cand_[i] = x_[i] + t * p.at(i)] for [i < n_]. *)
Definition candidate (n : nat) (x pk : vec) (t : Q) : vec :=
  map (fun i => vnth x i + t * vnth pk i) (seq 0 n).

(** Lines 422-427: the largest merit value in memory. *)
Definition meritmax (mem : list Q) : Q :=
  fold_left (fun mx v => if mx <? v then v else mx) mem (-1E20).

(** The merit function in a candidate, and the test of line 428. *)
Definition L1merit_at (S : SQP) (sigma : Q) (x_cand gk_cand : vec) : Q :=
  let l1_infeas :=
    if negb (G_isNull S) then l1_infeasibility (m_ S) (lbg S) (ubg S) gk_cand else 0 in
  F_val S x_cand + sigma * l1_infeas.

Definition armijo (S : SQP) (sigma L1dir : Q) (mem : list Q) (t : Q)
    (x_cand gk_cand : vec) : bool :=
  L1merit_at S sigma x_cand gk_cand <=? meritmax mem + t * c1_ S * L1dir.

(** What the line search leaves to the rest of the iteration. *)
Record LSResult := {
  ls_t : Q;
  ls_x_cand : vec;
  ls_fk_cand : Q;
  ls_gk_cand : vec;
  ls_counter : Z
}.

(** The [while (true)] of the line search; [fuel] bounds the number of
    trials the model follows, [None] meaning it was not enough. *)
Fixpoint line_search (S : SQP) (fuel : nat) (x pk : vec) (sigma L1dir : Q)
    (mem : list Q) (t : Q) (gk_cand : vec) (counter : Z) : option LSResult :=
  match fuel with
  | O => None
  | Datatypes.S fuel' =>
      let x_cand := candidate (n_ S) x pk t in
      let fk_cand := F_val S x_cand in
      let gk_cand' := if negb (G_isNull S) then G_val S x_cand else gk_cand in
      if armijo S sigma L1dir mem t x_cand gk_cand'
      then Some {| ls_t := t; ls_x_cand := x_cand; ls_fk_cand := fk_cand;
                   ls_gk_cand := gk_cand'; ls_counter := counter |}
      else
        let t' := beta_ S * t in
        if Z.eqb counter (maxiter_ls_ S)
        then Some {| ls_t := t'; ls_x_cand := x_cand; ls_fk_cand := fk_cand;
                     ls_gk_cand := gk_cand'; ls_counter := counter |}
        else line_search S fuel' x pk sigma L1dir mem t' gk_cand' (counter + 1)
  end.

(** ** One iteration of the main loop (lines 197-556) *)

(** [size_t(k)] for an [int] [k], as in [merit_mem.size() > merit_memsize_]. *)
Definition to_size_t (k : Z) : Z := k mod 2 ^ 64.

(** Lines 383-386: [push_back], then [pop_front] when the memory is
    over its size. *)
Definition push_merit (S : SQP) (mem : list Q) (L1merit : Q) : list Q :=
  let mem' := mem ++ [L1merit] in
  if Z.ltb (to_size_t (merit_memsize_ S)) (Z.of_nat (length mem')) then tl mem' else mem'.

(** Lines 200-239. *)
Definition eval_hessian (S : SQP) (st : State) : DMatrix :=
  if hessian_exact S
  then
    let B := H_val S (x_ st) (mu_ st) in
    if regularize S then regularize_hessian B else B
  else Bk st.

(** Lines 479-498; [None] is the division by zero of
    [it_counter % lbfgs_memory_]. *)
Definition update_hessian (S : SQP) (it : Z) (B : DMatrix)
    (x x_old gLag gLag_old_bfgs : vec) : option DMatrix :=
  if hessian_exact S then Some B
  else if Z.eqb (lbfgs_memory_ S) 0 then None
  else
    let B' := if Z.eqb (Z.rem it (lbfgs_memory_ S)) 0 then diag_diag B else B in
    Some (bfgs_update (n_ S) B' (vsub x x_old) (vsub gLag gLag_old_bfgs)).

(** Line 553: the character [ls_success]. *)
Definition ls_marker (S : SQP) (counter : Z) : ascii :=
  if Z.eqb counter (maxiter_ls_ S) then "F"%char else " "%char.

(** What an iteration hands to the tests that end it. *)
Record Iterate := {
  it_state : State;
  it_pr_inf : Q;
  it_gLag_norm1 : Q;
  it_ls : LSResult
}.

(** How the model of a loop ends: the fuel given was not enough to
    follow it ([NoFuel]), the source divides an integer by zero
    ([Trap]), or it returns a value. *)
Inductive result (A : Type) :=
| NoFuel
| Trap
| Ok (a : A).
Arguments NoFuel {A}.
Arguments Trap {A}.
Arguments Ok {A} a.

(** Lines 197-386: the Hessian, the constraint and objective
    evaluations, the QP solve, the penalty parameter and the merit
    function in the current iterate. *)
Record Subproblem := {
  sub_Bk : DMatrix;
  sub_qp : QPInput;
  sub_sol : QPOutput;
  sub_sigma : Q;
  sub_L1dir : Q;
  sub_mem : list Q;
  sub_cout : list event
}.

(** The header is printed again when [it_counter % 10 == 0]; the
    warning is printed when [gain < 0]. *)
Definition solve_subproblem (S : SQP) (st : State) : Subproblem :=
  let cout1 := if Z.eqb (Z.rem (it_counter st) 10) 0 then cout st ++ [Header] else cout st in
  let Bk1 := eval_hessian S st in
  let gk1 := if Nat.ltb 0 (m_ S) then G_val S (x_ st) else gk st in
  let Jgk := if Nat.ltb 0 (m_ S) then J_val S (x_ st) else [] in
  let fk1 := F_val S (x_ st) in
  let gfk := F_adjSens S (x_ st) in
  let qp1 := pass_qp_data S st Bk1 gfk gk1 Jgk in
  let sol := qp_solve S qp1 in
  let p1 := QP_PRIMAL sol in
  let gain := inner_prod p1 (mul Bk1 p1) in
  let cout2 := if gain <? 0 then cout1 ++ [WarnIndefinite] else cout1 in
  let mu_qp := QP_LAMBDA_A sol in
  let sigma1 := update_sigma (m_ S) mu_qp (sigma_ st) in
  let l1_infeas := l1_infeasibility (m_ S) (lbg S) (ubg S) gk1 in
  let L1dir := F_fwdSens S (x_ st) p1 - sigma1 * l1_infeas in
  let L1merit := fk1 + sigma1 * l1_infeas in
  {| sub_Bk := Bk1; sub_qp := qp1; sub_sol := sol; sub_sigma := sigma1;
     sub_L1dir := L1dir; sub_mem := push_merit S (merit_mem st) L1merit;
     sub_cout := cout2 |}.

(** Line 380: [L1merit = fk + sigma_ * l1_infeas], the merit function
    in the current iterate, which line 383 pushes on the memory. *)
Definition L1merit (S : SQP) (st : State) : Q :=
  let gk1 := if Nat.ltb 0 (m_ S) then G_val S (x_ st) else gk st in
  let mu_qp := QP_LAMBDA_A (sub_sol (solve_subproblem S st)) in
  let sigma1 := update_sigma (m_ S) mu_qp (sigma_ st) in
  F_val S (x_ st) + sigma1 * l1_infeasibility (m_ S) (lbg S) (ubg S) gk1.

(** Lines 388-442: the line search from [t = 1.0], [ls_counter = 1]. *)
Definition search (S : SQP) (ls_fuel : nat) (st : State) (sp : Subproblem)
    : option LSResult :=
  line_search S ls_fuel (x_ st) (QP_PRIMAL (sub_sol sp)) (sub_sigma sp)
              (sub_L1dir sp) (sub_mem sp) 1 [] 1.

(** Lines 443-556: the candidate is committed, the Lagrange gradient
    and the Hessian are updated, the line of the log is printed. *)
Definition commit (S : SQP) (st : State) (sp : Subproblem) (ls : LSResult)
    : result Iterate :=
  let t := ls_t ls in
  let p1 := QP_PRIMAL (sub_sol sp) in
  let mu_qp := QP_LAMBDA_A (sub_sol sp) in
  let mu_x_qp := QP_LAMBDA_X (sub_sol sp) in
  let x_old := x_ st in
  let x_new := ls_x_cand ls in
  let mu1 := map (fun i => t * vnth mu_qp i + (1 - t) * vnth (mu_ st) i) (seq 0 (m_ S)) in
  let mu_x1 := map (fun i => t * vnth mu_x_qp i + (1 - t) * vnth (mu_x_ st) i)
                   (seq 0 (n_ S)) in
  let gLag0 := F_adjSens S x_new in
  let gLag1 := if Nat.ltb 0 (m_ S)
               then transform Qplus gLag0 (G_adjSens S x_new mu1) gLag0 else gLag0 in
  let gLag2 := transform Qplus gLag1 mu_x1 gLag1 in
  let old0 := F_adjSens S x_old in
  let old1 := if negb (G_isNull S) then vadd old0 (G_adjSens S x_old mu1) else old0 in
  let gLag_old_bfgs := vadd old1 mu_x1 in
  match update_hessian S (it_counter st) (sub_Bk sp) x_new x_old gLag2 gLag_old_bfgs with
  | None => Trap
  | Some Bk2 =>
      let pr_inf := primal_infeasibility (G_isNull S) (m_ S) (n_ S)
                      (lbg S) (ubg S) (ls_gk_cand ls) (lbx S) (ubx S) x_new in
      let gLag_norm1 := fold_left (fun acc v => acc + fabs v) gLag2 0 in
      let line := IterLine (it_counter st) (ls_fk_cand ls) pr_inf gLag_norm1
                           (norm_1 p1) t (ls_counter ls)
                           (ls_marker S (ls_counter ls)) in
      Ok {| it_state :=
              {| x_ := x_new; x_old_ := x_old; mu_ := mu1; mu_x_ := mu_x1;
                 gLag_ := gLag2; sigma_ := sub_sigma sp; p := p1; Bk := Bk2;
                 fk := ls_fk_cand ls; gk := ls_gk_cand ls; merit_mem := sub_mem sp;
                 it_counter := it_counter st; qp_in := sub_qp sp;
                 cb_calls := cb_calls st; cout := sub_cout sp ++ [line] |};
            it_pr_inf := pr_inf;
            it_gLag_norm1 := gLag_norm1;
            it_ls := ls |}
  end.

(** The body of the main loop up to the printed line. *)
Definition iteration (S : SQP) (ls_fuel : nat) (st : State) : result Iterate :=
  let sp := solve_subproblem S st in
  match search S ls_fuel st sp with
  | None => NoFuel
  | Some ls => commit S st sp ls
  end.

(** ** The tests that end the main loop (lines 558-584) *)

(** Assignments to a single variable of the state. *)
Definition with_cout (st : State) (c : list event) : State :=
  {| x_ := x_ st; x_old_ := x_old_ st; mu_ := mu_ st; mu_x_ := mu_x_ st;
     gLag_ := gLag_ st; sigma_ := sigma_ st; p := p st; Bk := Bk st;
     fk := fk st; gk := gk st; merit_mem := merit_mem st;
     it_counter := it_counter st; qp_in := qp_in st;
     cb_calls := cb_calls st; cout := c |}.

Definition with_cb_calls (st : State) (c : list CallbackInput) : State :=
  {| x_ := x_ st; x_old_ := x_old_ st; mu_ := mu_ st; mu_x_ := mu_x_ st;
     gLag_ := gLag_ st; sigma_ := sigma_ st; p := p st; Bk := Bk st;
     fk := fk st; gk := gk st; merit_mem := merit_mem st;
     it_counter := it_counter st; qp_in := qp_in st;
     cb_calls := c; cout := cout st |}.

Definition with_it_counter (st : State) (k : Z) : State :=
  {| x_ := x_ st; x_old_ := x_old_ st; mu_ := mu_ st; mu_x_ := mu_x_ st;
     gLag_ := gLag_ st; sigma_ := sigma_ st; p := p st; Bk := Bk st;
     fk := fk st; gk := gk st; merit_mem := merit_mem st;
     it_counter := k; qp_in := qp_in st;
     cb_calls := cb_calls st; cout := cout st |}.

(** Lines 560-565. *)
Definition callback_input (st : State) : CallbackInput :=
  {| cb_X_OPT := x_ st; cb_COST := fk st; cb_LAMBDA_G := mu_ st;
     cb_LAMBDA_X := mu_x_ st; cb_G := gk st |}.

(** The callback's inputs are set and it is evaluated, when present. *)
Definition call_callback (S : SQP) (st : State) : State :=
  if callback_isNull S then st
  else with_cb_calls st (callback_input st :: cb_calls st).

(** [callback_.output(0).at(0)] read as a condition. *)
Definition callback_says_stop (S : SQP) (st : State) : bool :=
  negb (callback_isNull S) && negb (Qeq_bool (callback_eval S (cb_calls st)) 0).

(** Line 575. *)
Definition converged (S : SQP) (pr_inf gLag_norm1 : Q) : bool :=
  (pr_inf <? tol_pr_ S) && (gLag_norm1 <? tol_du_ S).

(** A [break] gives [inl], falling through to [++it_counter] gives [inr]. *)
Definition check_exit (S : SQP) (i : Iterate) : (State * exit) + State :=
  let st := call_callback S (it_state i) in
  if callback_says_stop S st
  then inl (with_cout st (cout st ++ [MsgAborted]), CallbackAbort)
  else if converged S (it_pr_inf i) (it_gLag_norm1 i)
  then inl (with_cout st (cout st ++ [MsgConvergence (it_counter st)]), Converged)
  else if Z.eqb (it_counter st) (maxiter_ S)
  then inl (with_cout st (cout st ++ [MsgMaxIter]), MaxIter)
  else inr (with_it_counter st (it_counter st + 1)).

(** ** The main loop and [evaluate] (lines 120-595)

    [checkInitialBounds], the latching of the static parameter and the
    monitors are outside the model; the initial guess need not satisfy
    the bounds. *)

(** The state on entry of the main loop (lines 140-193): [x_init] is
    copied over [x_], the multipliers and [gLag_] are filled with [0],
    [Bk] is the dense identity in limited-memory mode, the deque is
    empty, the header has been printed, [it_counter = 1] and
    [sigma_ = 0.]. *)
Definition init_state (S : SQP) : State :=
  {| x_ := transform (fun a _ => a) (x_init S) [] (repeat 0 (n_ S));
     x_old_ := repeat 0 (n_ S);
     mu_ := repeat 0 (m_ S);
     mu_x_ := repeat 0 (n_ S);
     gLag_ := repeat 0 (n_ S);
     sigma_ := 0;
     p := [];
     Bk := if hessian_exact S then [] else dense (n_ S) (fun i j => elem (eye (n_ S)) i j);
     fk := 0;
     gk := [];
     merit_mem := [];
     it_counter := 1;
     qp_in := qp_buffers S;
     cb_calls := [];
     cout := [Header] |}.

(** [while (true)]: [fuel] bounds the number of iterations followed. *)
Fixpoint main_loop (S : SQP) (ls_fuel fuel : nat) (st : State) : result (State * exit) :=
  match fuel with
  | O => NoFuel
  | Datatypes.S fuel' =>
      match iteration S ls_fuel st with
      | NoFuel => NoFuel
      | Trap => Trap
      | Ok i =>
          match check_exit S i with
          | inl done => Ok done
          | inr st' => main_loop S ls_fuel fuel' st'
          end
      end
  end.

(** The state after [k] iterations none of which left the loop. *)
Fixpoint iterations (S : SQP) (ls_fuel k : nat) (st : State) : option State :=
  match k with
  | O => Some st
  | Datatypes.S k' =>
      match iteration S ls_fuel st with
      | Ok i =>
          match check_exit S i with
          | inr st' => iterations S ls_fuel k' st'
          | inl _ => None
          end
      | _ => None
      end
  end.

(** The sizes fixed by [init]: the NLP inputs and the bound slots of
    the QP solver have [n_] entries. *)
Definition well_sized (S : SQP) : Prop :=
  length (x_init S) = n_ S /\ length (lbx S) = n_ S /\ length (ubx S) = n_ S /\
  length (QP_LBX (qp_buffers S)) = n_ S /\ length (QP_UBX (qp_buffers S)) = n_ S.

Definition sized (S : SQP) (st : State) : Prop :=
  length (x_ st) = n_ S /\
  length (QP_LBX (qp_in st)) = n_ S /\ length (QP_UBX (qp_in st)) = n_ S.

(** The output slots and the statistics written on return. *)
Record Output := {
  NLP_COST : Q;
  NLP_X_OPT : vec;
  NLP_LAMBDA_G : vec;
  NLP_LAMBDA_X : vec;
  NLP_G : vec;
  iter_count : Z;
  why_stopped : exit;
  printed : list event
}.

(** Lines 587-594 after the loop. *)
Definition evaluate (S : SQP) (ls_fuel fuel : nat) : result Output :=
  match main_loop S ls_fuel fuel (init_state S) with
  | NoFuel => NoFuel
  | Trap => Trap
  | Ok (st, why) =>
      Ok {| NLP_COST := fk st; NLP_X_OPT := x_ st; NLP_LAMBDA_G := mu_ st;
            NLP_LAMBDA_X := mu_x_ st; NLP_G := gk st;
            iter_count := it_counter st; why_stopped := why;
            printed := cout st |}
  end.

(** ** Reading the log *)

(** The iteration numbers of the lines printed for the iterates, in
    the order they were printed. *)
Definition line_numbers (log : list event) : list Z :=
  flat_map (fun e => match e with IterLine it _ _ _ _ _ _ _ => [it] | _ => [] end) log.

(** How many times the header was printed. *)
Definition header_count (log : list event) : nat :=
  length (flat_map (fun e => match e with Header => [tt] | _ => [] end) log).

(** What holds of the log when the iteration numbered [it_counter] is
    about to start. *)
Definition log_upto (st : State) : Prop :=
  (1 <= it_counter st)%Z /\
  line_numbers (cout st) = map Z.of_nat (seq 1 (Z.to_nat (it_counter st - 1))) /\
  Z.of_nat (header_count (cout st)) = (1 + (it_counter st - 1) / 10)%Z.

End SQPInternal.

Module Evaluation.

Local Open Scope Q_scope.

(** ** Pointers and the store *)

(** A [DMatrix*] or [MX*]: the null pointer is [None], any other is the
    address of an object of the store. *)
Abbreviation ptr := (option nat).

(** [DMatrixPtrV] is [list ptr], [DMatrixPtrVV] is [list (list ptr)],
    indexed by the direction first.  Reading past the end of such a
    vector, or through a pointer that addresses no object, is undefined
    in the source; the model reads the null pointer, respectively the
    empty vector, and drops a write through it. *)
Definition ptr_at (v : list ptr) (i : nat) : ptr := default None (v !! i).
Definition ptrs_at (vv : list (list ptr)) (d : nat) : list ptr := default [] (vv !! d).

(** The numerical store: address to [DMatrix::data()]. *)
Definition data (h : gmap nat vec) (q : ptr) : vec :=
  match q with
  | Some l => default [] (h !! l)
  | None => []
  end.

(** [q != 0 && q->size() != 0]. *)
Definition present (h : gmap nat vec) (q : ptr) : bool :=
  match q with
  | Some l => negb (Nat.eqb (length (data h q)) 0)
  | None => false
  end.

(** The data vector of the object [q] points to is replaced. *)
Definition write (h : gmap nat vec) (q : ptr) (v : vec) : gmap nat vec :=
  match q with
  | Some l => <[l := v]> h
  | None => h
  end.

(** ** The embedded function object [fcn_] *)

(** Modelled from the spec: the buffers of an [FX] function object
    ([fx/fx_internal.hpp] is not among the sources) with its input and
    output slots and its seed and sensitivity slots for every forward
    and adjoint direction; seeds and sensitivities are indexed by the
    direction [d] first, then by the input or output index.  The
    setters and getters below copy a whole data vector. *)
Record FX := {
  fx_input : list vec;
  fx_fwdSeed : list (list vec);
  fx_adjSeed : list (list vec);
  fx_output : list vec;
  fx_fwdSens : list (list vec);
  fx_adjSens : list (list vec)
}.

(** Reading and writing the slot of index [i] in direction [d]. *)
Definition slot (b : list (list vec)) (i d : nat) : vec :=
  default [] (default [] (b !! d) !! i).

Definition set_slot (b : list (list vec)) (i d : nat) (v : vec) : list (list vec) :=
  alter (fun r => <[i := v]> r) d b.

Definition setInput (v : vec) (i : nat) (f : FX) : FX :=
  {| fx_input := <[i := v]> (fx_input f); fx_fwdSeed := fx_fwdSeed f;
     fx_adjSeed := fx_adjSeed f; fx_output := fx_output f;
     fx_fwdSens := fx_fwdSens f; fx_adjSens := fx_adjSens f |}.

Definition setFwdSeed (v : vec) (i d : nat) (f : FX) : FX :=
  {| fx_input := fx_input f; fx_fwdSeed := set_slot (fx_fwdSeed f) i d v;
     fx_adjSeed := fx_adjSeed f; fx_output := fx_output f;
     fx_fwdSens := fx_fwdSens f; fx_adjSens := fx_adjSens f |}.

Definition setAdjSeed (v : vec) (i d : nat) (f : FX) : FX :=
  {| fx_input := fx_input f; fx_fwdSeed := fx_fwdSeed f;
     fx_adjSeed := set_slot (fx_adjSeed f) i d v; fx_output := fx_output f;
     fx_fwdSens := fx_fwdSens f; fx_adjSens := fx_adjSens f |}.

Definition getOutput (f : FX) (i : nat) : vec := default [] (fx_output f !! i).
Definition getFwdSens (f : FX) (i d : nat) : vec := slot (fx_fwdSens f) i d.
Definition adjSens (f : FX) (i d : nat) : vec := slot (fx_adjSens f) i d.

(** The members of an [Evaluation] node used by [evaluate];
    [fcn_evaluate nfwd nadj] is [fcn_.evaluate(nfwd, nadj)]. *)
Record Node := {
  fcn_ : FX;
  fcn_evaluate : nat -> nat -> FX -> FX;
  ndep : nat;
  getNumOutputs : nat
}.

(** ** [Evaluation::evaluate] (lines 64-110) *)

(** Lines 68-76. *)
Definition pass_inputs (h : gmap nat vec) (nd nfwd : nat)
    (input : list ptr) (fwdSeed : list (list ptr)) (f : FX) : FX :=
  fold_left
    (fun f i =>
       if present h (ptr_at input i)
       then fold_left
              (fun f d => setFwdSeed (data h (ptr_at (ptrs_at fwdSeed d) i)) i d f)
              (seq 0 nfwd)
              (setInput (data h (ptr_at input i)) i f)
       else f)
    (seq 0 nd) f.

(** Lines 78-85. *)
Definition pass_adjSeed (h : gmap nat vec) (nout nadj : nat)
    (adjSeed : list (list ptr)) (f : FX) : FX :=
  fold_left
    (fun f i =>
       fold_left
         (fun f d =>
            if present h (ptr_at (ptrs_at adjSeed d) 0)
            then setAdjSeed (data h (ptr_at (ptrs_at adjSeed d) 0)) i d f
            else f)
         (seq 0 nadj) f)
    (seq 0 nout) f.

(** Line 95: [fcn_.getFwdSens(fwdSens[d][i]->data(), i, d)]. *)
Definition get_fwdSens (f : FX) (i : nat) (fwdSens : list (list ptr))
    (h : gmap nat vec) (d : nat) : gmap nat vec :=
  write h (ptr_at (ptrs_at fwdSens d) i) (getFwdSens f i d).

(** Lines 92-97, the body of the loop over the outputs. *)
Definition get_output (f : FX) (nfwd : nat) (output : list ptr)
    (fwdSens : list (list ptr)) (h : gmap nat vec) (i : nat) : gmap nat vec :=
  if present h (ptr_at output i)
  then fold_left (get_fwdSens f i fwdSens) (seq 0 nfwd)
                 (write h (ptr_at output i) (getOutput f i))
  else h.

(** Lines 90-98. *)
Definition get_outputs (f : FX) (nout nfwd : nat)
    (output : list ptr) (fwdSens : list (list ptr)) (h : gmap nat vec) : gmap nat vec :=
  fold_left (get_output f nfwd output fwdSens) (seq 0 nout) h.

(** Lines 105-106: [buf[j] += asens[j]] for [j < asens.size()]. *)
Definition accumulate (asens buf : vec) : vec :=
  fold_left (fun b j => <[j := vnth b j + vnth asens j]> b) (seq 0 (length asens)) buf.

(** Lines 103-107, the body of the loop over the directions. *)
Definition get_adjSens (f : FX) (i : nat) (adjSens_ : list (list ptr))
    (h : gmap nat vec) (d : nat) : gmap nat vec :=
  let q := ptr_at (ptrs_at adjSens_ d) i in
  if present h q then write h q (accumulate (adjSens f i d) (data h q)) else h.

(** Lines 100-109. *)
Definition get_adjSenss (f : FX) (nd nadj : nat)
    (adjSens_ : list (list ptr)) (h : gmap nat vec) : gmap nat vec :=
  fold_left (fun h i => fold_left (get_adjSens f i adjSens_) (seq 0 nadj) h)
            (seq 0 nd) h.

(** The whole of [evaluate]: the node with the evaluated [fcn_], and
    the store. *)
Definition evaluate (this : Node) (h : gmap nat vec)
    (input output : list ptr) (fwdSeed fwdSens adjSeed adjSens_ : list (list ptr))
    : Node * gmap nat vec :=
  let nfwd := length fwdSens in
  let nadj := length adjSeed in
  let f1 := pass_inputs h (ndep this) nfwd input fwdSeed (fcn_ this) in
  let f2 := pass_adjSeed h (getNumOutputs this) nadj adjSeed f1 in
  let f3 := fcn_evaluate this nfwd nadj f2 in
  let h1 := get_outputs f3 (getNumOutputs this) nfwd output fwdSens h in
  let h2 := get_adjSenss f3 (ndep this) nadj adjSens_ h1 in
  ({| fcn_ := f3; fcn_evaluate := fcn_evaluate this; ndep := ndep this;
      getNumOutputs := getNumOutputs this |}, h2).

(** The slots of the caller through which [evaluate] writes, and what
    it means for one of them to share its object with no other. *)
Inductive slot_id :=
| OutputSlot (i : nat)
| FwdSensSlot (d i : nat)
| AdjSensSlot (d i : nat).

Definition slot_ptr (output : list ptr) (fwdSens adjSens_ : list (list ptr))
    (s : slot_id) : ptr :=
  match s with
  | OutputSlot i => ptr_at output i
  | FwdSensSlot d i => ptr_at (ptrs_at fwdSens d) i
  | AdjSensSlot d i => ptr_at (ptrs_at adjSens_ d) i
  end.

Definition slot_in_range (this : Node) (nfwd nadj : nat) (s : slot_id) : Prop :=
  match s with
  | OutputSlot i => (i < getNumOutputs this)%nat
  | FwdSensSlot d i => (d < nfwd)%nat /\ (i < getNumOutputs this)%nat
  | AdjSensSlot d i => (d < nadj)%nat /\ (i < ndep this)%nat
  end.

Definition unaliased (this : Node) (nfwd nadj : nat) (output : list ptr)
    (fwdSens adjSens_ : list (list ptr)) (s : slot_id) : Prop :=
  forall s', slot_in_range this nfwd nadj s' ->
             slot_ptr output fwdSens adjSens_ s' = slot_ptr output fwdSens adjSens_ s ->
             s' = s.

(** ** [Evaluation::evaluateMX] (lines 149-186) *)

(** Modelled from the spec: the symbolic expressions [MX] (the class is
    not among the sources), as far as this function builds them: the
    null expression [MX()], a symbol, [MX::zeros], an output of
    [fcn_.call(arg)], a [JacobianReference], [prod] and [+]. *)
#[warnings="-register-all"]
Inductive MX :=
| MX_null
| MX_sym (id : nat)
| MX_zeros (r c : nat)
| MX_call (arg : list MX) (oind : nat)
| MX_jac (e : MX) (iind : nat)
| MX_prod (a b : MX)
| MX_plus (a b : MX).

(** The symbolic store and the member [fwdSeed_] of the node. *)
Record MXState := {
  mx_store : gmap nat MX;
  fwdSeed_ : list (list MX)
}.

(** Reading and assigning [*q]. *)
Definition mx_at (h : gmap nat MX) (q : ptr) : MX :=
  match q with
  | Some l => default MX_null (h !! l)
  | None => MX_null
  end.

Definition mx_write (h : gmap nat MX) (q : ptr) (e : MX) : gmap nat MX :=
  match q with
  | Some l => <[l := e]> h
  | None => h
  end.

(** Statements: a state transformer that also tells whether [return]
    was executed. *)
Inductive flow := Next | Returned.

Definition stmt : Type := MXState -> flow * MXState.

Definition then_ (a b : stmt) : stmt :=
  fun s => match a s with
           | (Next, s') => b s'
           | (Returned, s') => (Returned, s')
           end.

Definition return_ : stmt := fun s => (Returned, s).

(** Lines 155-160 for one direction [d]: the row is resized to
    [input.size()] and every non-null seed is copied into it. *)
Definition copy_row (h : gmap nat MX) (ninput : nat) (seeds : list ptr)
    (r : list MX) : list MX :=
  fold_left
    (fun r iind =>
       match ptr_at seeds iind with
       | Some l => <[iind := mx_at h (Some l)]> r
       | None => r
       end)
    (seq 0 ninput) (resize ninput MX_null r).

(** Lines 153-161. *)
Definition copy_fwdSeed (ninput nfwd : nat) (fwdSeed : list (list ptr)) : stmt :=
  fun s =>
    (Next,
     {| mx_store := mx_store s;
        fwdSeed_ :=
          fold_left
            (fun fs d => alter (copy_row (mx_store s) ninput (ptrs_at fwdSeed d)) d fs)
            (seq 0 nfwd) (resize nfwd [] (fwdSeed_ s)) |}).

(** Lines 165-185: the symbolic call and the propagation of the
    forward seeds through Jacobian references. *)
Definition propagate (size1 size2 nfwd : nat) (input output : list ptr)
    (fwdSeed fwdSens : list (list ptr)) : stmt :=
  fun s =>
    let arg := map (fun iind => mx_at (mx_store s) (ptr_at input iind))
                   (seq 0 (length input)) in
    let res := fun oind => MX_call arg oind in
    let h' :=
      fold_left
        (fun h d =>
           fold_left
             (fun h oind =>
                let q := ptr_at (ptrs_at fwdSens d) oind in
                match q with
                | None => h
                | Some _ =>
                    fold_left
                      (fun h iind =>
                         match ptr_at (ptrs_at fwdSeed d) iind with
                         | None => h
                         | Some l =>
                             mx_write h q
                               (MX_plus (mx_at h q)
                                        (MX_prod (MX_jac (res oind) iind) (mx_at h (Some l))))
                         end)
                      (seq 0 (length input))
                      (mx_write h q (MX_zeros size1 size2))
                end)
             (seq 0 (length output)) h)
        (seq 0 nfwd) (mx_store s) in
    (Next, {| mx_store := h'; fwdSeed_ := fwdSeed_ s |}).

(** The body as written: the copy, [return;], then the propagation. *)
Definition evaluateMX (size1 size2 : nat) (input output : list ptr)
    (fwdSeed fwdSens adjSeed adjSens_ : list (list ptr)) (output_given : bool) : stmt :=
  let nfwd := length fwdSens in
  then_ (copy_fwdSeed (length input) nfwd fwdSeed)
        (then_ return_
               (propagate size1 size2 nfwd input output fwdSeed fwdSens)).

(** ** The constructor (lines 34-54) *)

(** [e.isNull()]. *)
Definition isNull (e : MX) : bool :=
  match e with
  | MX_null => true
  | _ => false
  end.

(** The two exceptions of the constructor, with the numbers their
    messages print. *)
Inductive CasadiException :=
| WrongNumberOfDependencies (passed expected : nat)
| WrongShape (i : nat) (expected supplied : nat * nat).

(** Lines 43-50, the body of the loop over the inputs: [Some] is the
    [throw].  [shape e] is [(e.size1(), e.size2())] and [input_shape i]
    is the shape of [fcn.input(i)]. *)
Definition check_shape (shape : MX -> nat * nat) (input_shape : nat -> nat * nat)
    (dep : list MX) (i : nat) : option CasadiException :=
  let d := nth i dep MX_null in
  if isNull d then None
  else if negb (Nat.eqb (fst (shape d)) (fst (input_shape i)))
          || negb (Nat.eqb (snd (shape d)) (snd (input_shape i)))
  then Some (WrongShape i (input_shape i) (shape d))
  else None.

(** What the constructor sets: the dependencies and the sparsity
    [CRSSparsity(1,1,true)]. *)
Record Constructed := {
  dependencies : list MX;
  sparsity : nat * nat
}.

(** The constructor: the exception thrown, or the node. *)
Definition Evaluation_ctor (getNumInputs : nat) (input_shape : nat -> nat * nat)
    (shape : MX -> nat * nat) (dep : list MX) : CasadiException + Constructed :=
  if negb (Nat.eqb (length dep) getNumInputs)
  then inl (WrongNumberOfDependencies (length dep) getNumInputs)
  else
    match fold_left
            (fun thrown i =>
               match thrown with
               | Some e => Some e
               | None => check_shape shape input_shape dep i
               end)
            (seq 0 getNumInputs) None with
    | Some e => inl e
    | None => inr {| dependencies := dep; sparsity := (1, 1)%nat |}
    end.

(** ** [EvaluationOutput] (lines 113-128, 188-204 and 227-248) *)

(** Line 126, [jac(iind)]: a [JacobianReference] to this output. *)
Definition jac (this : MX) (iind : nat) : MX := MX_jac this iind.

(** [fwdSeed_[d][iind]] of the parent node; reading outside what the
    parent has stored, undefined in the source, gives the null
    expression. *)
Definition seed_at (fs : list (list MX)) (d iind : nat) : MX :=
  default MX_null (default [] (fs !! d) !! iind).

(** Lines 188-204, run on the state that holds the member [fwdSeed_]
    of the parent: [this] is the output node, [size1] and [size2] its
    shape. *)
Definition EvaluationOutput_evaluateMX (this : MX) (size1 size2 : nat)
    (input output : list ptr)
    (fwdSeed fwdSens adjSeed adjSens_ : list (list ptr)) (output_given : bool) : stmt :=
  fun s =>
    let nfwd := length fwdSens in
    let h' :=
      fold_left
        (fun h d =>
           let q := ptr_at (ptrs_at fwdSens d) 0 in
           match q with
           | None => h
           | Some _ =>
               fold_left
                 (fun h iind =>
                    match ptr_at (ptrs_at fwdSeed d) iind with
                    | None => h
                    | Some _ =>
                        mx_write h q
                          (MX_plus (mx_at h q)
                                   (MX_prod (jac this iind) (seed_at (fwdSeed_ s) d iind)))
                    end)
                 (seq 0 (length input))
                 (mx_write h q (MX_zeros size1 size2))
           end)
        (seq 0 nfwd) (mx_store s) in
    (Next, {| mx_store := h'; fwdSeed_ := fwdSeed_ s |}).

(** Lines 219-225, [Evaluation::adFwd]: the member [x_] after the
    call, and the null expression returned. *)
Definition adFwd (jx : list MX) : list MX * MX := (jx, MX_null).

(** Lines 232-237: the number of columns, [-1] at first. *)
Definition find_ncol (size2_of : MX -> nat) (x : list MX) : Z :=
  fold_left (fun ncol e => if isNull e then ncol else Z.of_nat (size2_of e)) x (-1)%Z.

(** Lines 227-248, [EvaluationOutput::adFwd], on the member [x_] of
    the parent; [size] is [size()] of the output node and [None] the
    failure of [casadi_assert(ncol>=0)]. *)
Definition EvaluationOutput_adFwd (this : MX) (size : nat) (size2_of : MX -> nat)
    (x : list MX) (jx : list MX) : option MX :=
  let ncol := find_ncol size2_of x in
  if (0 <=? ncol)%Z
  then Some (fold_left
               (fun ret i =>
                  let xi := nth i x MX_null in
                  if isNull xi then ret else MX_plus ret (MX_prod (jac this i) xi))
               (seq 0 (length x)) (MX_zeros size (Z.to_nat ncol)))
  else None.

End Evaluation.

(** ** Small problems on which the models are run *)

Module Examples.

Import SQPInternal.
Local Open Scope Q_scope.

Definition clamp (lo hi u : Q) : Q :=
  if u <? lo then lo else if hi <? u then hi else u.

(** A QP solver for one variable: the Newton step [-g/h] cut to the
    bounds, and then to the range of a single constraint row with
    coefficient [1] when there is one; the multiplier goes to the side
    that cut last. *)
Definition qp_solve_1d (q : QPInput) : QPOutput :=
  let h := elem (QP_H q) 0 0 in
  let g := vnth (QP_G q) 0 in
  let px := clamp (vnth (QP_LBX q) 0) (vnth (QP_UBX q) 0) (- g / h) in
  match QP_LBA q with
  | [] => {| QP_PRIMAL := [px]; QP_LAMBDA_A := []; QP_LAMBDA_X := [- (h * px + g)] |}
  | _ =>
      let pa := clamp (vnth (QP_LBA q) 0) (vnth (QP_UBA q) 0) px in
      {| QP_PRIMAL := [pa];
         QP_LAMBDA_A := [if Qeq_bool pa px then 0 else - (h * pa + g)];
         QP_LAMBDA_X := [if Qeq_bool pa px then - (h * px + g) else 0] |}
  end.

Definition buffers_1d : QPInput :=
  {| QP_H := []; QP_G := []; QP_A := []; QP_LBA := []; QP_UBA := [];
     QP_LBX := [0]; QP_UBX := [0]; QP_X_INIT := [] |}.

(** Minimize [-x] over [0 <= x <= 1] from [x = 2], a start outside the
    bounds, without [G]. *)
Definition linear_bounded : SQP :=
  {| n_ := 1; m_ := 0; x_init := [2]; lbx := [0]; ubx := [1]; lbg := []; ubg := [];
     F_val := fun x => - vnth x 0;
     F_adjSens := fun _ => [-1];
     F_fwdSens := fun _ s => -1 * vnth s 0;
     G_isNull := true; G_val := fun _ => []; G_adjSens := fun _ _ => [];
     J_val := fun _ => []; H_val := fun _ _ => [];
     qp_solve := qp_solve_1d; qp_buffers := buffers_1d;
     callback_isNull := true; callback_eval := fun _ => 0;
     hessian_exact := false; regularize := false;
     maxiter_ := 50; maxiter_ls_ := 3; c1_ := 1e-4; beta_ := 0.8;
     merit_memsize_ := 4; lbfgs_memory_ := 10; tol_pr_ := 1e-6; tol_du_ := 1e-6 |}.

(** Minimize [x^2] over [-10 <= x <= 10] from [x = 2], without [G],
    with the BFGS Hessian, which starts at the identity: the first QP
    step [p = -4] overshoots the minimizer. *)
Definition quadratic_overshoot (maxiter_ls : Z) : SQP :=
  {| n_ := 1; m_ := 0; x_init := [2]; lbx := [-10]; ubx := [10]; lbg := []; ubg := [];
     F_val := fun x => vnth x 0 * vnth x 0;
     F_adjSens := fun x => [2 * vnth x 0];
     F_fwdSens := fun x s => 2 * vnth x 0 * vnth s 0;
     G_isNull := true; G_val := fun _ => []; G_adjSens := fun _ _ => [];
     J_val := fun _ => []; H_val := fun _ _ => [];
     qp_solve := qp_solve_1d; qp_buffers := buffers_1d;
     callback_isNull := true; callback_eval := fun _ => 0;
     hessian_exact := false; regularize := false;
     maxiter_ := 50; maxiter_ls_ := maxiter_ls; c1_ := 1e-4; beta_ := 0.8;
     merit_memsize_ := 4; lbfgs_memory_ := 10; tol_pr_ := 1e-6; tol_du_ := 1e-6 |}.

(** Minimize [x^2] over [-10 <= x <= 10] from [x = 4], without [G],
    with the Hessian evaluator returning [4]; the callback asks to
    stop at its third call. *)
Definition quadratic_callback : SQP :=
  {| n_ := 1; m_ := 0; x_init := [4]; lbx := [-10]; ubx := [10]; lbg := []; ubg := [];
     F_val := fun x => vnth x 0 * vnth x 0;
     F_adjSens := fun x => [2 * vnth x 0];
     F_fwdSens := fun x s => 2 * vnth x 0 * vnth s 0;
     G_isNull := true; G_val := fun _ => []; G_adjSens := fun _ _ => [];
     J_val := fun _ => []; H_val := fun _ _ => [[(0%nat, 4)]];
     qp_solve := qp_solve_1d; qp_buffers := buffers_1d;
     callback_isNull := false;
     callback_eval := fun calls => if Nat.eqb (length calls) 3 then 1 else 0;
     hessian_exact := true; regularize := false;
     maxiter_ := 50; maxiter_ls_ := 1; c1_ := 1e-4; beta_ := 0.8;
     merit_memsize_ := 4; lbfgs_memory_ := 10; tol_pr_ := 1e-6; tol_du_ := 1e-6 |}.

(** Minimize [x^2] subject to [1 <= x <= 3] as a general constraint,
    from [x = 4], with the BFGS Hessian. *)
Definition quadratic_constrained : SQP :=
  {| n_ := 1; m_ := 1; x_init := [4]; lbx := [-10]; ubx := [10]; lbg := [1]; ubg := [3];
     F_val := fun x => vnth x 0 * vnth x 0;
     F_adjSens := fun x => [2 * vnth x 0];
     F_fwdSens := fun x s => 2 * vnth x 0 * vnth s 0;
     G_isNull := false; G_val := fun x => [vnth x 0];
     G_adjSens := fun _ mu => [vnth mu 0];
     J_val := fun _ => [[(0%nat, 1)]]; H_val := fun _ _ => [[(0%nat, 2)]];
     qp_solve := qp_solve_1d; qp_buffers := buffers_1d;
     callback_isNull := true; callback_eval := fun _ => 0;
     hessian_exact := false; regularize := false;
     maxiter_ := 50; maxiter_ls_ := 3; c1_ := 1e-4; beta_ := 0.8;
     merit_memsize_ := 4; lbfgs_memory_ := 10; tol_pr_ := 1e-6; tol_du_ := 1e-6 |}.

(** A function object with one input and one output computing
    [y = 3 * x], with its sensitivities in every direction. *)
Definition triple_evaluate (nfwd nadj : nat) (f : Evaluation.FX) : Evaluation.FX :=
  {| Evaluation.fx_input := Evaluation.fx_input f;
     Evaluation.fx_fwdSeed := Evaluation.fx_fwdSeed f;
     Evaluation.fx_adjSeed := Evaluation.fx_adjSeed f;
     Evaluation.fx_output := [[3 * vnth (default [] (Evaluation.fx_input f !! 0%nat)) 0]];
     Evaluation.fx_fwdSens :=
       map (fun d => [[3 * vnth (Evaluation.slot (Evaluation.fx_fwdSeed f) 0 d) 0]])
           (seq 0 nfwd);
     Evaluation.fx_adjSens :=
       map (fun d => [[3 * vnth (Evaluation.slot (Evaluation.fx_adjSeed f) 0 d) 0]])
           (seq 0 nadj) |}.

Definition triple_node : Evaluation.Node :=
  {| Evaluation.fcn_ :=
       {| Evaluation.fx_input := [[0]];
          Evaluation.fx_fwdSeed := [[[0]]];
          Evaluation.fx_adjSeed := [[[0]]];
          Evaluation.fx_output := [[0]];
          Evaluation.fx_fwdSens := [[[0]]];
          Evaluation.fx_adjSens := [[[0]]] |};
     Evaluation.fcn_evaluate := triple_evaluate;
     Evaluation.ndep := 1;
     Evaluation.getNumOutputs := 1 |}.

(** The caller's objects: the input [x = 2] at address 1, the output
    buffer at 2, the adjoint seed [1] at 3, and an adjoint-sensitivity
    buffer holding [10] at 4. *)
Definition triple_store : gmap nat vec :=
  <[1%nat := [2]]> (<[2%nat := [0]]> (<[3%nat := [1]]> (<[4%nat := [10]]> ∅))).


(** A symbolic store with two inputs, one output, one forward seed
    and one forward sensitivity. *)
Definition symbolic_store : gmap nat Evaluation.MX :=
  <[10%nat := Evaluation.MX_sym 0]>
    (<[11%nat := Evaluation.MX_sym 1]>
       (<[20%nat := Evaluation.MX_null]>
          (<[30%nat := Evaluation.MX_sym 2]>
             (<[40%nat := Evaluation.MX_sym 3]> ∅)))).

End Examples.

(** * Properties of the SQP driver *)

Import SQPInternal.
Local Open Scope Q_scope.

Section Numbers.

Lemma Qltb_lt (a b : Q) : (a <? b) = true <-> a < b.
Proof.
  unfold Qltb. rewrite negb_true_iff. split.
  - intros E. destruct (Qlt_le_dec a b) as [|Hle]; [assumption|].
    apply Qle_bool_iff in Hle. congruence.
  - intros Hlt. destruct (Qle_bool b a) eqn:E; [|reflexivity].
    apply Qle_bool_iff in E. lra.
Qed.

Lemma Qltb_ge (a b : Q) : (a <? b) = false <-> b <= a.
Proof.
  unfold Qltb. rewrite negb_false_iff. apply Qle_bool_iff.
Qed.

End Numbers.

Section Transform.

Lemma transform_length (op : Q -> Q -> Q) (a b dest : vec) :
  length dest = length a -> length (transform op a b dest) = length a.
Proof.
  revert b dest. induction a as [|x a IH]; intros b dest H; simpl.
  - exact H.
  - f_equal. apply IH. destruct dest; simpl in *; [discriminate|lia].
Qed.

Lemma transform_zip_with (op : Q -> Q -> Q) (a b dest : vec) :
  length b = length a -> length dest = length a ->
  transform op a b dest = zip_with op a b.
Proof.
  revert b dest. induction a as [|x a IH]; intros b dest Hb Hd; simpl.
  - destruct dest; [reflexivity|discriminate].
  - destruct b as [|y b]; [discriminate|]. destruct dest as [|z dest]; [discriminate|].
    simpl in *. f_equal. apply IH; lia.
Qed.

Lemma vnth_zip_with (op : Q -> Q -> Q) (a b : vec) (j : nat) :
  (j < length a)%nat -> (j < length b)%nat ->
  vnth (zip_with op a b) j = op (vnth a j) (vnth b j).
Proof.
  unfold vnth.
  revert b j. induction a as [|x a IH]; intros b j Ha Hb; simpl in *; [lia|].
  destruct b as [|y b]; simpl in *; [lia|].
  destruct j as [|j]; [reflexivity|]. apply IH; lia.
Qed.

End Transform.

Section Iteration.

Variable S : SQP.
Variable ls_fuel : nat.

Lemma candidate_length (x pk : vec) (t : Q) : length (candidate (n_ S) x pk t) = n_ S.
Proof. unfold candidate. rewrite length_map, length_seq. reflexivity. Qed.

(** Whatever the line search returns, its point is the candidate of
    one of the trials. *)
Lemma line_search_candidate (fuel : nat) (x pk : vec) (sigma L1dir : Q) (mem : list Q)
    (t : Q) (g : vec) (c : Z) (ls : LSResult) :
  line_search S fuel x pk sigma L1dir mem t g c = Some ls ->
  exists t', ls_x_cand ls = candidate (n_ S) x pk t'.
Proof.
  revert t g c. induction fuel as [|fuel IH]; intros t g c H; simpl in H; [discriminate|].
  destruct (armijo _ _ _ _ _ _ _).
  - injection H as H. subst ls. eexists. reflexivity.
  - destruct (Z.eqb c (maxiter_ls_ S)).
    + injection H as H. subst ls. eexists. reflexivity.
    + eapply IH, H.
Qed.

Lemma commit_state (st : State) (sp : Subproblem) (ls : LSResult) (i : Iterate) :
  commit S st sp ls = Ok i ->
  x_ (it_state i) = ls_x_cand ls /\ x_old_ (it_state i) = x_ st /\
  sigma_ (it_state i) = sub_sigma sp /\
  p (it_state i) = QP_PRIMAL (sub_sol sp) /\
  qp_in (it_state i) = sub_qp sp /\
  it_counter (it_state i) = it_counter st /\
  cb_calls (it_state i) = cb_calls st /\
  it_ls i = ls.
Proof.
  unfold commit. destruct (update_hessian _ _ _ _ _ _ _); [|discriminate].
  intros H. injection H as H. subst i. simpl. repeat split; reflexivity.
Qed.

Lemma iteration_state (st : State) (i : Iterate) :
  iteration S ls_fuel st = Ok i ->
  let sp := solve_subproblem S st in
  search S ls_fuel st sp = Some (it_ls i) /\
  commit S st sp (it_ls i) = Ok i.
Proof.
  intros H. cbv zeta. unfold iteration in H. cbv zeta in H.
  destruct (search S ls_fuel st (solve_subproblem S st)) as [ls|] eqn:E; [|discriminate].
  destruct (commit_state _ _ _ _ H) as (_ & _ & _ & _ & _ & _ & _ & Hls).
  subst ls. split; [reflexivity|exact H].
Qed.

(** The tests at the end of the iteration change the callback record,
    the log and the counter only. *)
Lemma check_exit_state (i : Iterate) :
  match check_exit S i with
  | inl (st', _) =>
      x_ st' = x_ (it_state i) /\ sigma_ st' = sigma_ (it_state i) /\
      qp_in st' = qp_in (it_state i) /\ it_counter st' = it_counter (it_state i)
  | inr st' =>
      x_ st' = x_ (it_state i) /\ sigma_ st' = sigma_ (it_state i) /\
      qp_in st' = qp_in (it_state i) /\
      it_counter st' = (it_counter (it_state i) + 1)%Z
  end.
Proof.
  unfold check_exit, call_callback.
  destruct (callback_says_stop S _); [destruct (callback_isNull S); simpl; tauto|].
  destruct (converged S _ _); [destruct (callback_isNull S); simpl; tauto|].
  destruct (Z.eqb _ _); destruct (callback_isNull S); simpl; tauto.
Qed.

End Iteration.

Section Run.

Variable S : SQP.
Variable ls_fuel : nat.

Lemma iterations_succ (k : nat) (st st' : State) :
  iterations S ls_fuel (Datatypes.S k) st = Some st' <->
  exists i st1, iteration S ls_fuel st = Ok i /\ check_exit S i = inr st1 /\
                iterations S ls_fuel k st1 = Some st'.
Proof.
  simpl. split.
  - destruct (iteration S ls_fuel st) as [| |i]; try discriminate.
    destruct (check_exit S i) as [|st1] eqn:E; [discriminate|].
    intros H. exists i, st1. auto.
  - intros (i & st1 & -> & -> & H). exact H.
Qed.

Lemma iterations_add (j d : nat) (st : State) :
  iterations S ls_fuel (j + d) st
  = match iterations S ls_fuel j st with
    | Some s => iterations S ls_fuel d s
    | None => None
    end.
Proof.
  revert st. induction j as [|j IH]; intros st; simpl; [reflexivity|].
  destruct (iteration S ls_fuel st) as [| |i]; try reflexivity.
  destruct (check_exit S i); [reflexivity|]. apply IH.
Qed.

(** An invariant of the iterations that do not leave the loop. *)
Lemma iterations_invariant (P : State -> Prop) (k : nat) (st st' : State) :
  (forall s i s', P s -> iteration S ls_fuel s = Ok i -> check_exit S i = inr s' -> P s') ->
  P st -> iterations S ls_fuel k st = Some st' -> P st'.
Proof.
  intros Hstep. revert st. induction k as [|k IH]; intros st HP H.
  - simpl in H. injection H as <-. exact HP.
  - apply iterations_succ in H as (i & st1 & Hi & Hc & Hk).
    eapply IH; [|exact Hk]. eapply Hstep; eauto.
Qed.

Lemma sized_init : well_sized S -> sized S (init_state S).
Proof.
  intros (Hx & _ & _ & Hl & Hu). unfold sized, init_state. simpl.
  split; [|split; assumption].
  rewrite transform_length; [exact Hx|]. rewrite repeat_length. congruence.
Qed.

Lemma sub_qp_bounds (st : State) :
  well_sized S -> sized S st ->
  QP_LBX (sub_qp (solve_subproblem S st)) = vsub (lbx S) (x_ st) /\
  QP_UBX (sub_qp (solve_subproblem S st)) = vsub (ubx S) (x_ st).
Proof.
  intros (_ & Hlb & Hub & _ & _) (Hx & Hl & Hu).
  unfold solve_subproblem, pass_qp_data. cbv zeta.
  destruct (Nat.ltb 0 (m_ S)); simpl;
    (split; apply transform_zip_with; congruence).
Qed.

Lemma sub_qp_constraint_bounds (st : State) :
  (0 < m_ S)%nat ->
  QP_LBA (sub_qp (solve_subproblem S st)) = vsub (lbg S) (G_val S (x_ st)) /\
  QP_UBA (sub_qp (solve_subproblem S st)) = vsub (ubg S) (G_val S (x_ st)).
Proof.
  intros Hm. unfold solve_subproblem, pass_qp_data. cbv zeta.
  destruct (Nat.ltb_spec 0 (m_ S)); [|lia]. simpl. split; reflexivity.
Qed.

Lemma sized_step (s : State) (i : Iterate) (s' : State) :
  well_sized S -> sized S s ->
  iteration S ls_fuel s = Ok i -> check_exit S i = inr s' -> sized S s'.
Proof.
  intros Hws Hs Hi Hc.
  pose proof (check_exit_state S i) as Hx. rewrite Hc in Hx.
  destruct Hx as (Ex & _ & Eq & _).
  destruct (iteration_state _ _ _ _ Hi) as [Hsearch Hcommit].
  destruct (commit_state _ _ _ _ _ Hcommit) as (Ecand & _ & _ & _ & Eqp & _).
  destruct (line_search_candidate _ _ _ _ _ _ _ _ _ _ _ Hsearch) as [t' Et].
  destruct (sub_qp_bounds s Hws Hs) as [El Eu].
  destruct Hws as (_ & Hlb & Hub & _ & _). destruct Hs as (Hxs & _ & _).
  unfold sized. rewrite Ex, Eq, Ecand, Et, Eqp, El, Eu.
  unfold vsub. rewrite candidate_length, !length_zip_with. lia.
Qed.

Lemma sized_iterations (k : nat) (st : State) :
  well_sized S -> iterations S ls_fuel k (init_state S) = Some st -> sized S st.
Proof.
  intros Hws. apply iterations_invariant; [|apply sized_init, Hws].
  intros s i s' Hs Hi Hc. eapply sized_step; eauto.
Qed.

End Run.

(** C6.  In every outer iteration the QP solver is evaluated on inputs
    whose bounds are the shifted ones: [LBX = lbx - x] and
    [UBX = ubx - x] componentwise, and, when [m > 0],
    [LBA = lbg - g(x)] and [UBA = ubg - g(x)], with [x] the iterate the
    iteration starts from. *)
Theorem qp_receives_shifted_bounds (S : SQP) (ls_fuel k : nat) (st : State) (i : Iterate) :
  well_sized S ->
  iterations S ls_fuel k (init_state S) = Some st ->
  iteration S ls_fuel st = Ok i ->
  let q := qp_in (it_state i) in
  p (it_state i) = QP_PRIMAL (qp_solve S q) /\
  QP_LBX q = vsub (lbx S) (x_ st) /\
  QP_UBX q = vsub (ubx S) (x_ st) /\
  (forall j, (j < n_ S)%nat ->
     vnth (QP_LBX q) j = vnth (lbx S) j - vnth (x_ st) j /\
     vnth (QP_UBX q) j = vnth (ubx S) j - vnth (x_ st) j) /\
  ((0 < m_ S)%nat ->
     QP_LBA q = vsub (lbg S) (G_val S (x_ st)) /\
     QP_UBA q = vsub (ubg S) (G_val S (x_ st))).
Proof.
  intros Hws Hk Hi q.
  pose proof (sized_iterations S ls_fuel k st Hws Hk) as Hs.
  destruct (iteration_state _ _ _ _ Hi) as [_ Hcommit].
  destruct (commit_state _ _ _ _ _ Hcommit) as (_ & _ & _ & Ep & Eqp & _).
  destruct (sub_qp_bounds S st Hws Hs) as [El Eu].
  assert (Eq : q = sub_qp (solve_subproblem S st)) by exact Eqp.
  split; [rewrite Ep, Eq; reflexivity|].
  rewrite Eq, El, Eu. split; [reflexivity|]. split; [reflexivity|]. split.
  - intros j Hj. destruct Hws as (_ & Hlb & Hub & _ & _). destruct Hs as (Hxs & _ & _).
    unfold vsub. rewrite !vnth_zip_with by lia. split; reflexivity.
  - apply sub_qp_constraint_bounds.
Qed.

Lemma qp_receives_shifted_bounds_witness :
  let S := Examples.quadratic_constrained in
  exists st i,
    well_sized S /\
    iterations S 3 1 (init_state S) = Some st /\
    iteration S 3 st = Ok i /\
    p (it_state i) = QP_PRIMAL (qp_solve S (qp_in (it_state i))) /\
    QP_LBX (qp_in (it_state i)) = vsub (lbx S) (x_ st) /\
    QP_UBX (qp_in (it_state i)) = vsub (ubx S) (x_ st) /\
    (forall j, (j < n_ S)%nat ->
       vnth (QP_LBX (qp_in (it_state i))) j = vnth (lbx S) j - vnth (x_ st) j /\
       vnth (QP_UBX (qp_in (it_state i))) j = vnth (ubx S) j - vnth (x_ st) j) /\
    ((0 < m_ S)%nat ->
       QP_LBA (qp_in (it_state i)) = vsub (lbg S) (G_val S (x_ st)) /\
       QP_UBA (qp_in (it_state i)) = vsub (ubg S) (G_val S (x_ st))).
Proof.
  eexists. eexists.
  assert (Hws : well_sized Examples.quadratic_constrained).
  { repeat split; reflexivity. }
  split; [exact Hws|].
  split; [vm_compute; reflexivity|].
  split; [vm_compute; reflexivity|].
  apply (qp_receives_shifted_bounds Examples.quadratic_constrained 3 1 _ _ Hws);
    vm_compute; reflexivity.
Defined.

Section Penalty.

Lemma update_sigma_fold_ge (mu_qp : vec) (l : list nat) (sigma : Q) :
  sigma <= fold_left (fun s j => if s <? fabs (vnth mu_qp j)
                                 then fabs (vnth mu_qp j) * 1.01 else s) l sigma.
Proof.
  revert sigma. induction l as [|j l IH]; intros sigma; simpl; [lra|].
  destruct (sigma <? fabs (vnth mu_qp j)) eqn:E.
  - apply Qltb_lt in E. eapply Qle_trans; [|apply IH].
    pose proof (Qabs_nonneg (vnth mu_qp j)) as Hn. unfold fabs in *. lra.
  - apply IH.
Qed.

Lemma update_sigma_ge (m : nat) (mu_qp : vec) (sigma : Q) :
  sigma <= update_sigma m mu_qp sigma.
Proof. apply update_sigma_fold_ge. Qed.

(** The loop over [j], one multiplier at a time. *)
Lemma update_sigma_succ (j : nat) (mu_qp : vec) (sigma : Q) :
  update_sigma (Datatypes.S j) mu_qp sigma
  = if update_sigma j mu_qp sigma <? fabs (vnth mu_qp j)
    then fabs (vnth mu_qp j) * 1.01
    else update_sigma j mu_qp sigma.
Proof.
  unfold update_sigma. rewrite seq_S, fold_left_app. reflexivity.
Qed.

Variable S : SQP.
Variable ls_fuel : nat.

Lemma iteration_sigma (st : State) (i : Iterate) :
  iteration S ls_fuel st = Ok i ->
  sigma_ (it_state i)
  = update_sigma (m_ S) (QP_LAMBDA_A (qp_solve S (qp_in (it_state i)))) (sigma_ st).
Proof.
  intros Hi. destruct (iteration_state _ _ _ _ Hi) as [_ Hcommit].
  destruct (commit_state _ _ _ _ _ Hcommit) as (_ & _ & Es & _ & Eq & _).
  rewrite Es, Eq. reflexivity.
Qed.

Lemma iterations_sigma_le (k : nat) (st st' : State) :
  iterations S ls_fuel k st = Some st' -> sigma_ st <= sigma_ st'.
Proof.
  apply (iterations_invariant S ls_fuel (fun s => sigma_ st <= sigma_ s)); [|apply Qle_refl].
  intros s i s' Hs Hi Hc.
  pose proof (check_exit_state S i) as Hx. rewrite Hc in Hx.
  destruct Hx as (_ & Es & _). rewrite Es, (iteration_sigma _ _ Hi).
  eapply Qle_trans; [exact Hs|apply update_sigma_ge].
Qed.

End Penalty.

(** C7.  Within one call of [evaluate] the penalty parameter starts at
    [0] and never decreases.  In each iteration its only assignment is
    the loop after the QP solve, which runs over the multipliers
    [mu_qp] of the general constraints and sets [sigma] to
    [1.01 * |mu_qp_j|] for each [j] with [|mu_qp_j| > sigma]; the
    multipliers of the bounds do not enter, and the tests that end the
    iteration leave [sigma] as it is. *)
Theorem sigma_only_grows (S : SQP) (ls_fuel k : nat) (st : State) (i : Iterate) :
  iterations S ls_fuel k (init_state S) = Some st ->
  iteration S ls_fuel st = Ok i ->
  let mu_qp := QP_LAMBDA_A (qp_solve S (qp_in (it_state i))) in
  sigma_ (init_state S) = 0 /\
  (forall k' st', (k' <= k)%nat -> iterations S ls_fuel k' (init_state S) = Some st' ->
                  sigma_ st' <= sigma_ st) /\
  sigma_ st <= sigma_ (it_state i) /\
  sigma_ (it_state i) = update_sigma (m_ S) mu_qp (sigma_ st) /\
  (forall j s,
     update_sigma 0 mu_qp s = s /\
     update_sigma (Datatypes.S j) mu_qp s
     = if update_sigma j mu_qp s <? fabs (vnth mu_qp j)
       then fabs (vnth mu_qp j) * 1.01
       else update_sigma j mu_qp s) /\
  match check_exit S i with
  | inl (st', _) => sigma_ st' = sigma_ (it_state i)
  | inr st' => sigma_ st' = sigma_ (it_state i)
  end.
Proof.
  intros Hk Hi mu_qp.
  split; [reflexivity|]. split.
  { intros k' st' Hle Hk'.
    replace k with (k' + (k - k'))%nat in Hk by lia.
    rewrite iterations_add, Hk' in Hk.
    eapply iterations_sigma_le, Hk. }
  pose proof (iteration_sigma S ls_fuel st i Hi) as Es. fold mu_qp in Es.
  split; [rewrite Es; apply update_sigma_ge|].
  split; [exact Es|]. split.
  { intros j s. split; [reflexivity|apply update_sigma_succ]. }
  pose proof (check_exit_state S i) as Hx.
  destruct (check_exit S i) as [[st' why]|st']; tauto.
Qed.

Lemma sigma_only_grows_witness :
  let S := Examples.quadratic_constrained in
  exists st i,
    iterations S 3 1 (init_state S) = Some st /\
    iteration S 3 st = Ok i /\
    sigma_ (init_state S) = 0 /\
    sigma_ st == 5.05 /\
    sigma_ st <= sigma_ (it_state i) /\
    sigma_ (it_state i)
    = update_sigma (m_ S) (QP_LAMBDA_A (qp_solve S (qp_in (it_state i)))) (sigma_ st).
Proof.
  eexists. eexists.
  split; [vm_compute; reflexivity|].
  split; [vm_compute; reflexivity|].
  split; [reflexivity|].
  split; [reflexivity|].
  edestruct (sigma_only_grows Examples.quadratic_constrained 3 1)
    as (_ & _ & Hle & Heq & _);
    [vm_compute; reflexivity|vm_compute; reflexivity|].
  split; [exact Hle|exact Heq].
Defined.

Section Exits.

Variable S : SQP.
Variable ls_fuel : nat.

Lemma converged_spec (pr_inf gLag_norm1 : Q) :
  converged S pr_inf gLag_norm1 = true <-> pr_inf < tol_pr_ S /\ gLag_norm1 < tol_du_ S.
Proof.
  unfold converged. rewrite andb_true_iff, !Qltb_lt. reflexivity.
Qed.

Lemma callback_says_stop_spec (i : Iterate) :
  callback_says_stop S (call_callback S (it_state i)) = true <->
  callback_isNull S = false /\
  ~ callback_eval S (callback_input (it_state i) :: cb_calls (it_state i)) == 0.
Proof.
  unfold callback_says_stop, call_callback.
  destruct (callback_isNull S); simpl.
  - split; [discriminate|]. intros [H _]. discriminate.
  - rewrite negb_true_iff. split.
    + intros H. split; [reflexivity|]. intros E. apply Qeq_bool_iff in E. congruence.
    + intros [_ H]. destruct (Qeq_bool _ 0) eqn:E; [|reflexivity].
      apply Qeq_bool_iff in E. contradiction.
Qed.

(** Each [break] is taken exactly under its condition, in the order of
    the source; without any of them the counter is incremented. *)
Lemma check_exit_cases (i : Iterate) :
  let stop := callback_says_stop S (call_callback S (it_state i)) in
  let conv := converged S (it_pr_inf i) (it_gLag_norm1 i) in
  let cap := Z.eqb (it_counter (it_state i)) (maxiter_ S) in
  match check_exit S i with
  | inl (st', CallbackAbort) => stop = true
  | inl (st', Converged) => stop = false /\ conv = true
  | inl (st', MaxIter) => stop = false /\ conv = false /\ cap = true
  | inr st' => stop = false /\ conv = false /\ cap = false
  end.
Proof.
  cbv zeta. unfold check_exit.
  assert (Hc : it_counter (call_callback S (it_state i)) = it_counter (it_state i)).
  { unfold call_callback. destruct (callback_isNull S); reflexivity. }
  rewrite Hc.
  destruct (callback_says_stop S _); [reflexivity|].
  destruct (converged S _ _); [split; reflexivity|].
  destruct (Z.eqb _ _); repeat split; reflexivity.
Qed.

Lemma check_exit_total (i : Iterate) :
  let stop := callback_says_stop S (call_callback S (it_state i)) in
  let conv := converged S (it_pr_inf i) (it_gLag_norm1 i) in
  let cap := Z.eqb (it_counter (it_state i)) (maxiter_ S) in
  (stop = true -> exists st', check_exit S i = inl (st', CallbackAbort)) /\
  (stop = false -> conv = true -> exists st', check_exit S i = inl (st', Converged)) /\
  (stop = false -> conv = false -> cap = true ->
   exists st', check_exit S i = inl (st', MaxIter)).
Proof.
  cbv zeta. unfold check_exit.
  assert (Hc : it_counter (call_callback S (it_state i)) = it_counter (it_state i)).
  { unfold call_callback. destruct (callback_isNull S); reflexivity. }
  rewrite Hc.
  destruct (callback_says_stop S _), (converged S _ _), (Z.eqb _ _);
    repeat split; intros; try discriminate; eexists; reflexivity.
Qed.

Lemma iterations_counter (k : nat) (st st' : State) :
  iterations S ls_fuel k st = Some st' ->
  it_counter st' = (it_counter st + Z.of_nat k)%Z.
Proof.
  revert st. induction k as [|k IH]; intros st H.
  - simpl in H. injection H as <-. lia.
  - apply iterations_succ in H as (i & st1 & Hi & Hc & Hk).
    rewrite (IH _ Hk).
    pose proof (check_exit_state S i) as Hx. rewrite Hc in Hx.
    destruct Hx as (_ & _ & _ & ->).
    destruct (iteration_state _ _ _ _ Hi) as [_ Hcommit].
    destruct (commit_state _ _ _ _ _ Hcommit) as (_ & _ & _ & _ & _ & -> & _).
    lia.
Qed.

Lemma iteration_cb_calls (st : State) (i : Iterate) :
  iteration S ls_fuel st = Ok i -> cb_calls (it_state i) = cb_calls st.
Proof.
  intros Hi. destruct (iteration_state _ _ _ _ Hi) as [_ Hcommit].
  destruct (commit_state _ _ _ _ _ Hcommit) as (_ & _ & _ & _ & _ & _ & E & _).
  exact E.
Qed.

(** The loop returns exactly when, after some number of iterations that
    fell through, an iteration takes one of the [break]s. *)
Lemma main_loop_returns (fuel : nat) (st st' : State) (why : exit) :
  main_loop S ls_fuel fuel st = Ok (st', why) <->
  exists k s i, (k < fuel)%nat /\ iterations S ls_fuel k st = Some s /\
                iteration S ls_fuel s = Ok i /\ check_exit S i = inl (st', why).
Proof.
  revert st. induction fuel as [|fuel IH]; intros st; simpl.
  - split; [discriminate|]. intros (k & _ & _ & Hk & _). lia.
  - split.
    + destruct (iteration S ls_fuel st) as [| |i] eqn:Hi; try discriminate.
      destruct (check_exit S i) as [done|st1] eqn:Hc.
      * intros H. injection H as ->. exists 0%nat, st, i.
        repeat split; [lia|assumption..].
      * intros H. apply IH in H as (k & s & i' & Hk & Hit & Hi' & Hc').
        exists (Datatypes.S k), s, i'. split; [lia|]. split; [|auto].
        apply iterations_succ. eauto.
    + intros (k & s & i & Hk & Hit & Hi & Hc). destruct k as [|k].
      * simpl in Hit. injection Hit as <-. rewrite Hi, Hc. reflexivity.
      * apply iterations_succ in Hit as (i0 & st1 & Hi0 & Hc0 & Hit).
        rewrite Hi0, Hc0. apply IH. exists k, s, i. split; [lia|auto].
Qed.

End Exits.

(** C8.  [evaluate] returns only through one of the three [break]s of
    the main loop: the callback's output being non-zero, the
    convergence test [pr_inf < tol_pr && gLag_norm1 < tol_du], or the
    counter being equal to [maxiter]; the statistic [iter_count] is the
    number of the iteration that took the [break].  In particular,
    when the callback returns a non-zero value at the end of iteration
    [k + 1], the run ends there with [iter_count = k + 1]. *)
Theorem main_loop_exits (S : SQP) (ls_fuel : nat) :
  (forall fuel out,
     evaluate S ls_fuel fuel = Ok out ->
     exists k st i,
       iterations S ls_fuel k (init_state S) = Some st /\
       iteration S ls_fuel st = Ok i /\
       iter_count out = Z.of_nat (k + 1) /\
       match why_stopped out with
       | CallbackAbort =>
           callback_isNull S = false /\
           ~ callback_eval S (callback_input (it_state i) :: cb_calls st) == 0
       | Converged => it_pr_inf i < tol_pr_ S /\ it_gLag_norm1 i < tol_du_ S
       | MaxIter => iter_count out = maxiter_ S
       end) /\
  (forall k st i fuel,
     iterations S ls_fuel k (init_state S) = Some st ->
     iteration S ls_fuel st = Ok i ->
     callback_isNull S = false ->
     ~ callback_eval S (callback_input (it_state i) :: cb_calls st) == 0 ->
     (k < fuel)%nat ->
     exists out, evaluate S ls_fuel fuel = Ok out /\
                 why_stopped out = CallbackAbort /\
                 iter_count out = Z.of_nat (k + 1)).
Proof.
  split.
  - intros fuel out H. unfold evaluate in H.
    destruct (main_loop S ls_fuel fuel (init_state S)) as [| |[st' why]] eqn:Hm;
      try discriminate.
    injection H as <-. simpl.
    apply main_loop_returns in Hm as (k & st & i & Hk & Hit & Hi & Hc).
    exists k, st, i. split; [exact Hit|]. split; [exact Hi|].
    pose proof (check_exit_state S i) as Hx. rewrite Hc in Hx.
    destruct Hx as (_ & _ & _ & Ecnt).
    destruct (iteration_state _ _ _ _ Hi) as [_ Hcommit].
    destruct (commit_state _ _ _ _ _ Hcommit) as (_ & _ & _ & _ & _ & Ecnt' & _).
    pose proof (iterations_counter S ls_fuel k _ _ Hit) as Ek. simpl in Ek.
    assert (Ecount : it_counter st' = Z.of_nat (k + 1)) by lia.
    split; [exact Ecount|].
    pose proof (check_exit_cases S i) as Hcases. cbv zeta in Hcases. rewrite Hc in Hcases.
    destruct why.
    + apply callback_says_stop_spec in Hcases.
      rewrite (iteration_cb_calls S ls_fuel st i Hi) in Hcases. exact Hcases.
    + destruct Hcases as [_ Hconv]. apply converged_spec in Hconv. exact Hconv.
    + destruct Hcases as (_ & _ & Hcap). apply Z.eqb_eq in Hcap. lia.
  - intros k st i fuel Hit Hi Hnn Hcb Hk.
    assert (Hstop : callback_says_stop S (call_callback S (it_state i)) = true).
    { apply callback_says_stop_spec. rewrite (iteration_cb_calls S ls_fuel st i Hi).
      split; assumption. }
    destruct (check_exit_total S i) as [Habort _]. cbv zeta in Habort.
    destruct (Habort Hstop) as [st' Hc].
    assert (Hm : main_loop S ls_fuel fuel (init_state S) = Ok (st', CallbackAbort)).
    { apply main_loop_returns. exists k, st, i. auto. }
    unfold evaluate. rewrite Hm. eexists. split; [reflexivity|]. simpl.
    split; [reflexivity|].
    pose proof (check_exit_state S i) as Hx. rewrite Hc in Hx.
    destruct Hx as (_ & _ & _ & Ecnt).
    destruct (iteration_state _ _ _ _ Hi) as [_ Hcommit].
    destruct (commit_state _ _ _ _ _ Hcommit) as (_ & _ & _ & _ & _ & Ecnt' & _).
    pose proof (iterations_counter S ls_fuel k _ _ Hit) as Ek. simpl in Ek. lia.
Qed.

Lemma main_loop_exits_witness :
  let S := Examples.quadratic_callback in
  exists out,
    evaluate S 1 5 = Ok out /\
    why_stopped out = CallbackAbort /\
    iter_count out = 3%Z.
Proof.
  eapply (proj2 (main_loop_exits Examples.quadratic_callback 1) 2%nat).
  - vm_compute; reflexivity.
  - vm_compute; reflexivity.
  - reflexivity.
  - intros E. vm_compute in E. discriminate E.
  - lia.
Defined.

Section LineSearch.

Variable S : SQP.

(** With a budget of at least one trial the line search returns, and
    it does so within the budget. *)
Lemma line_search_returns (fuel : nat) (x pk : vec) (sigma L1dir : Q) (mem : list Q)
    (t : Q) (g : vec) (c : Z) :
  (c <= maxiter_ls_ S)%Z ->
  (Z.to_nat (maxiter_ls_ S - c) < fuel)%nat ->
  exists ls, line_search S fuel x pk sigma L1dir mem t g c = Some ls /\
             (c <= ls_counter ls <= maxiter_ls_ S)%Z.
Proof.
  revert t g c. induction fuel as [|fuel IH]; intros t g c Hc Hf; [lia|].
  simpl. destruct (armijo _ _ _ _ _ _ _).
  - eexists. split; [reflexivity|]. simpl. lia.
  - destruct (Z.eqb_spec c (maxiter_ls_ S)) as [E|E].
    + eexists. split; [reflexivity|]. simpl. lia.
    + destruct (IH (beta_ S * t)
                   (if negb (G_isNull S) then G_val S (candidate (n_ S) x pk t) else g)
                   (c + 1)%Z) as (ls & Hls & Hb); [lia|lia|].
      exists ls. split; [exact Hls|lia].
Qed.

(** With [maxiter_ls = 1] there is a single trial, at [t = 1]: its
    candidate is returned, with [t] left at [1] when the test of line
    428 holds and already multiplied by [beta] when it does not. *)
Lemma line_search_budget_one (fuel : nat) (x pk : vec) (sigma L1dir : Q) (mem : list Q)
    (g : vec) :
  maxiter_ls_ S = 1%Z ->
  let x_cand := candidate (n_ S) x pk 1 in
  let g' := if negb (G_isNull S) then G_val S x_cand else g in
  line_search S (Datatypes.S fuel) x pk sigma L1dir mem 1 g 1
  = Some {| ls_t := if armijo S sigma L1dir mem 1 x_cand g' then 1 else beta_ S * 1;
            ls_x_cand := x_cand; ls_fk_cand := F_val S x_cand;
            ls_gk_cand := g'; ls_counter := 1 |}.
Proof.
  intros E x_cand g'. simpl. fold x_cand. fold g'.
  destruct (armijo S sigma L1dir mem 1 x_cand g'); [reflexivity|].
  rewrite E. reflexivity.
Qed.

(** The marker of the log tells only that the last trial was reached. *)
Lemma ls_marker_spec (c : Z) :
  ls_marker S c = "F"%char <-> c = maxiter_ls_ S.
Proof.
  unfold ls_marker. destruct (Z.eqb_spec c (maxiter_ls_ S)); split;
    intros H; try reflexivity; try assumption; try discriminate; contradiction.
Qed.

(** Without [G] the primal infeasibility is [0] whatever the point. *)
Lemma primal_infeasibility_without_G (m n : nat) (lbg ubg g lbx ubx x : vec) :
  primal_infeasibility true m n lbg ubg g lbx ubx x = 0.
Proof. reflexivity. Qed.

(** So every iterate of a run without [G] is reported with a primal
    infeasibility of [0]. *)
Lemma iteration_pr_inf_without_G (ls_fuel : nat) (st : State) (i : Iterate) :
  G_isNull S = true -> iteration S ls_fuel st = Ok i -> it_pr_inf i = 0.
Proof.
  intros HG Hi. unfold iteration in Hi. cbv zeta in Hi.
  destruct (search S ls_fuel st _) as [ls|]; [|discriminate].
  unfold commit in Hi. cbv zeta in Hi.
  destruct (update_hessian _ _ _ _ _ _ _); [|discriminate].
  injection Hi as Hi. subst i. simpl. rewrite HG. reflexivity.
Qed.

(** The line printed for an iterate carries the stepsize and the marker
    computed from what the line search returned. *)
Lemma iteration_log_line (ls_fuel : nat) (st : State) (i : Iterate) :
  iteration S ls_fuel st = Ok i ->
  exists obj pr_inf du_inf corr_norm,
    last (cout (it_state i))
    = Some (IterLine (it_counter st) obj pr_inf du_inf corr_norm (ls_t (it_ls i))
                     (ls_counter (it_ls i)) (ls_marker S (ls_counter (it_ls i)))).
Proof.
  intros Hi. unfold iteration in Hi. cbv zeta in Hi.
  destruct (search S ls_fuel st _) as [ls|]; [|discriminate].
  unfold commit in Hi. cbv zeta in Hi.
  destruct (update_hessian _ _ _ _ _ _ _); [|discriminate].
  injection Hi as Hi. subst i. simpl.
  do 4 eexists. rewrite last_snoc. reflexivity.
Qed.

End LineSearch.

Section Totality.

Variable S : SQP.

Hypothesis maxiter_ls_pos : (1 <= maxiter_ls_ S)%Z.
Hypothesis no_trap : hessian_exact S = true \/ lbfgs_memory_ S <> 0%Z.

Lemma iteration_returns (st : State) :
  exists i, iteration S (Z.to_nat (maxiter_ls_ S)) st = Ok i.
Proof using maxiter_ls_pos no_trap.
  unfold iteration. cbv zeta. unfold search.
  edestruct (line_search_returns S (Z.to_nat (maxiter_ls_ S))) as (ls & -> & _);
    [exact maxiter_ls_pos|lia|].
  unfold commit. cbv zeta.
  match goal with |- context [update_hessian ?a ?b ?c ?d ?e ?f ?g] =>
    assert (Hh : exists B, update_hessian a b c d e f g = Some B) end.
  { unfold update_hessian. destruct (hessian_exact S) eqn:E; [eauto|].
    destruct no_trap as [|Hne]; [discriminate|].
    destruct (Z.eqb_spec (lbfgs_memory_ S) 0); [contradiction|eauto]. }
  destruct Hh as [B ->]. eexists. reflexivity.
Qed.

Lemma main_loop_total (fuel : nat) (st : State) :
  (it_counter st <= maxiter_ S)%Z ->
  (Z.to_nat (maxiter_ S - it_counter st) < fuel)%nat ->
  exists r, main_loop S (Z.to_nat (maxiter_ls_ S)) fuel st = Ok r.
Proof using maxiter_ls_pos no_trap.
  revert st. induction fuel as [|fuel IH]; intros st Hc Hf; [lia|].
  simpl. destruct (iteration_returns st) as [i Hi]. rewrite Hi.
  pose proof (check_exit_cases S i) as Hcases. cbv zeta in Hcases.
  pose proof (check_exit_state S i) as Hst.
  destruct (check_exit S i) as [done|st']; [eauto|].
  destruct Hcases as (_ & _ & Hcap). destruct Hst as (_ & _ & _ & Ecnt).
  destruct (iteration_state _ _ _ _ Hi) as [_ Hcommit].
  destruct (commit_state _ _ _ _ _ Hcommit) as (_ & _ & _ & _ & _ & Ecnt' & _).
  apply Z.eqb_neq in Hcap. apply IH; lia.
Qed.

(** [evaluate] returns when both budgets are at least one and the
    remainder [it_counter % lbfgs_memory_] is defined. *)
Lemma evaluate_returns :
  (1 <= maxiter_ S)%Z ->
  exists out, evaluate S (Z.to_nat (maxiter_ls_ S)) (Z.to_nat (maxiter_ S)) = Ok out.
Proof using maxiter_ls_pos no_trap.
  intros Hm. unfold evaluate.
  destruct (main_loop_total (Z.to_nat (maxiter_ S)) (init_state S)) as [[st why] ->].
  - simpl. exact Hm.
  - simpl. lia.
  - eexists. reflexivity.
Qed.

End Totality.

(** C1.  Run on [Examples.linear_bounded], where [G] is absent
    ([m = 0]): the first iteration ends in [x = 1.36], above the upper
    bound [1], so the bound violations of [x] sum to [0.36]; the
    primal infeasibility computed and printed for that iterate is
    [0]. *)
Theorem pr_inf_without_G_misses_bounds :
  let S := Examples.linear_bounded in
  exists i,
    iteration S 3 (init_state S) = Ok i /\
    G_isNull S = true /\ m_ S = 0%nat /\
    (exists x, x_ (it_state i) = [x] /\ x == 1.36) /\
    violation_loop (n_ S) (lbx S) (ubx S) (x_ (it_state i)) == 0.36 /\
    it_pr_inf i = 0 /\
    exists obj du_inf corr_norm stepsize ls_trials ls_success,
      last (cout (it_state i))
      = Some (IterLine 1 obj 0 du_inf corr_norm stepsize ls_trials ls_success).
Proof.
  eexists. split; [vm_compute; reflexivity|].
  split; [reflexivity|]. split; [reflexivity|].
  split; [eexists; split; reflexivity|].
  split; [reflexivity|]. split; [reflexivity|].
  vm_compute. do 6 eexists. reflexivity.
Qed.

(** C4.  Run on [Examples.quadratic_overshoot 1], where
    [maxiter_ls = 1] and the test of line 428 fails at [t = 1]: the
    committed candidate is [x + 1 * p], but the stepsize handed on is
    [beta * 1 = 0.8]; it is the one printed in the log and used in the
    update of [mu_x]. *)
Theorem budget_one_returns_beta :
  let S := Examples.quadratic_overshoot 1 in
  let st := init_state S in
  let sp := solve_subproblem S st in
  exists ls i,
    maxiter_ls_ S = 1%Z /\
    search S 1 st sp = Some ls /\
    iteration S 1 st = Ok i /\ it_ls i = ls /\
    armijo S (sub_sigma sp) (sub_L1dir sp) (sub_mem sp) 1
           (ls_x_cand ls) (ls_gk_cand ls) = false /\
    ls_x_cand ls = candidate (n_ S) (x_ st) (QP_PRIMAL (sub_sol sp)) 1 /\
    x_ (it_state i) = ls_x_cand ls /\
    ls_t ls = beta_ S * 1 /\ ~ ls_t ls == 1 /\
    mu_x_ (it_state i)
    = [ls_t ls * vnth (QP_LAMBDA_X (sub_sol sp)) 0 + (1 - ls_t ls) * vnth (mu_x_ st) 0] /\
    exists obj pr_inf du_inf corr_norm,
      last (cout (it_state i))
      = Some (IterLine 1 obj pr_inf du_inf corr_norm (ls_t ls) 1 "F"%char).
Proof.
  eexists. eexists.
  split; [reflexivity|].
  split; [vm_compute; reflexivity|].
  split; [vm_compute; reflexivity|].
  split; [reflexivity|].
  split; [vm_compute; reflexivity|].
  split; [vm_compute; reflexivity|].
  split; [reflexivity|].
  split; [vm_compute; reflexivity|].
  split; [intros H; vm_compute in H; discriminate H|].
  split; [vm_compute; reflexivity|].
  vm_compute. do 4 eexists. reflexivity.
Qed.

(** C5.  Run on [Examples.quadratic_callback], where [maxiter_ls = 1]:
    the first trial of the line search satisfies the test of line 428
    and is accepted with [t = 1], the budget is not exhausted without
    acceptance, and the line of the log carries the marker ['F'];
    the iteration falls through to the next one. *)
Theorem marker_after_accepted_trial :
  let S := Examples.quadratic_callback in
  let st := init_state S in
  let sp := solve_subproblem S st in
  exists ls i st',
    maxiter_ls_ S = 1%Z /\
    search S 1 st sp = Some ls /\
    armijo S (sub_sigma sp) (sub_L1dir sp) (sub_mem sp) 1
           (ls_x_cand ls) (ls_gk_cand ls) = true /\
    ls_t ls = 1 /\ ls_counter ls = 1%Z /\
    iteration S 1 st = Ok i /\ it_ls i = ls /\
    check_exit S i = inr st' /\
    exists obj pr_inf du_inf corr_norm,
      last (cout (it_state i))
      = Some (IterLine 1 obj pr_inf du_inf corr_norm 1 1 "F"%char).
Proof.
  eexists. eexists. eexists.
  split; [reflexivity|].
  split; [vm_compute; reflexivity|].
  split; [vm_compute; reflexivity|].
  split; [reflexivity|].
  split; [reflexivity|].
  split; [vm_compute; reflexivity|].
  split; [reflexivity|].
  split; [vm_compute; reflexivity|].
  vm_compute. do 4 eexists. reflexivity.
Qed.

(** ** Further properties of the driver *)

Section PenaltyLoop.

Lemma update_sigma_fixed (m : nat) (mu_qp : vec) (sigma : Q) :
  (forall j, (j < m)%nat -> fabs (vnth mu_qp j) <= sigma) ->
  update_sigma m mu_qp sigma = sigma.
Proof.
  induction m as [|m IH]; intros H; [reflexivity|].
  rewrite update_sigma_succ, IH by (intros j Hj; apply H; lia).
  destruct (sigma <? fabs (vnth mu_qp m)) eqn:E; [|reflexivity].
  apply Qltb_lt in E. specialize (H m ltac:(lia)). lra.
Qed.

Lemma update_sigma_covers (m : nat) (mu_qp : vec) (sigma : Q) (j : nat) :
  (j < m)%nat -> fabs (vnth mu_qp j) <= update_sigma m mu_qp sigma.
Proof.
  induction m as [|m IH]; intros Hj; [lia|].
  rewrite update_sigma_succ.
  pose proof (Qabs_nonneg (vnth mu_qp m)) as Hn. unfold fabs in *.
  destruct (update_sigma m mu_qp sigma <? Qabs (vnth mu_qp m)) eqn:E.
  - apply Qltb_lt in E. destruct (Nat.eq_dec j m) as [->|Hne]; [lra|].
    specialize (IH ltac:(lia)). lra.
  - apply Qltb_ge in E. destruct (Nat.eq_dec j m) as [->|Hne]; [exact E|].
    apply IH. lia.
Qed.

End PenaltyLoop.

(** X1.  After the loop of lines 352-356 the penalty parameter is at
    least the absolute value of every multiplier of the general
    constraints; a penalty parameter that already is so is left as it
    is, so that a second pass over the same multipliers changes
    nothing. *)
Theorem update_sigma_dominates (m : nat) (mu_qp : vec) (sigma : Q) :
  (forall j, (j < m)%nat -> fabs (vnth mu_qp j) <= update_sigma m mu_qp sigma) /\
  ((forall j, (j < m)%nat -> fabs (vnth mu_qp j) <= sigma) ->
   update_sigma m mu_qp sigma = sigma) /\
  update_sigma m mu_qp (update_sigma m mu_qp sigma) = update_sigma m mu_qp sigma.
Proof.
  split; [intros j Hj; apply update_sigma_covers, Hj|].
  split; [apply update_sigma_fixed|].
  apply update_sigma_fixed. intros j Hj. apply update_sigma_covers, Hj.
Qed.

Lemma update_sigma_dominates_witness :
  fabs (vnth [-5; 2] 0) <= update_sigma 2 [-5; 2] 1 /\
  update_sigma 2 [-5; 2] 6 = 6.
Proof.
  destruct (update_sigma_dominates 2 [-5; 2] 1) as (Hcov & _ & _).
  destruct (update_sigma_dominates 2 [-5; 2] 6) as (_ & Hfix & _).
  split; [apply Hcov; lia|].
  apply Hfix. intros j Hj.
  destruct j as [|[|j]]; [vm_compute; discriminate..|lia].
Defined.

Section Measures.

Lemma Qsum_cons (x : Q) (l : vec) : Qsum (x :: l) = x + Qsum l.
Proof. reflexivity. Qed.

Lemma Qsum_nonneg {A} (w : A -> Q) (l : list A) :
  (forall x, In x l -> 0 <= w x) -> 0 <= Qsum (map w l).
Proof.
  induction l as [|x l IH]; intros H; simpl; [lra|].
  specialize (H x (or_introl eq_refl)) as Hx.
  specialize (IH (fun y Hy => H y (or_intror Hy))). lra.
Qed.

Lemma Qsum_zero_iff {A} (w : A -> Q) (l : list A) :
  (forall x, In x l -> 0 <= w x) ->
  (Qsum (map w l) == 0 <-> forall x, In x l -> w x == 0).
Proof.
  induction l as [|x l IH]; intros H; simpl.
  - split; [intros _ y []|reflexivity].
  - pose proof (H x (or_introl eq_refl)) as Hx.
    assert (Hl : forall y, In y l -> 0 <= w y) by (intros y Hy; apply H; right; exact Hy).
    pose proof (Qsum_nonneg w l Hl) as Hs. specialize (IH Hl).
    split.
    + intros E y [<-|Hy]; [lra|]. apply IH; [lra|exact Hy].
    + intros E. assert (E1 : w x == 0) by (apply E; left; reflexivity).
      assert (E2 : Qsum (map w l) == 0) by (apply IH; intros y Hy; apply E; right; exact Hy).
      lra.
Qed.

(** The term a constraint adds to the l1 infeasibility. *)
Lemma l1_infeasibility_sum (m : nat) (lbg ubg g : vec) :
  l1_infeasibility m lbg ubg g
  == Qsum (map (fun j => if 0 <? vnth lbg j - vnth g j then vnth lbg j - vnth g j
                         else if 0 <? vnth g j - vnth ubg j then vnth g j - vnth ubg j
                         else 0) (seq 0 m)).
Proof.
  unfold l1_infeasibility. generalize (seq 0 m). intros l.
  assert (H : forall a,
    fold_left (fun l1 j =>
                 if 0 <? vnth lbg j - vnth g j then l1 + (vnth lbg j - vnth g j)
                 else if 0 <? vnth g j - vnth ubg j then l1 + (vnth g j - vnth ubg j)
                 else l1) l a
    == a + Qsum (map (fun j => if 0 <? vnth lbg j - vnth g j then vnth lbg j - vnth g j
                               else if 0 <? vnth g j - vnth ubg j then vnth g j - vnth ubg j
                               else 0) l)).
  { induction l as [|j l IH]; intros a; cbn [fold_left map]; [simpl; lra|].
    rewrite Qsum_cons, IH. destruct (0 <? vnth lbg j - vnth g j); [lra|].
    destruct (0 <? vnth g j - vnth ubg j); lra. }
  rewrite H. lra.
Qed.

Lemma violation_loop_sum (k : nat) (lb ub v : vec) :
  violation_loop k lb ub v
  == Qsum (map (fun j => if vnth ub j - vnth lb j <? 1e-20 then fabs (vnth v j - vnth lb j)
                         else if 0 <? vnth lb j - vnth v j then vnth lb j - vnth v j
                         else if 0 <? vnth v j - vnth ub j then vnth v j - vnth ub j
                         else 0) (seq 0 k)).
Proof.
  unfold violation_loop. generalize (seq 0 k). intros l.
  assert (H : forall a,
    fold_left (fun acc j =>
                 if vnth ub j - vnth lb j <? 1e-20 then acc + fabs (vnth v j - vnth lb j)
                 else if 0 <? vnth lb j - vnth v j then acc + (vnth lb j - vnth v j)
                 else if 0 <? vnth v j - vnth ub j then acc + (vnth v j - vnth ub j)
                 else acc) l a
    == a + Qsum (map (fun j => if vnth ub j - vnth lb j <? 1e-20
                               then fabs (vnth v j - vnth lb j)
                               else if 0 <? vnth lb j - vnth v j then vnth lb j - vnth v j
                               else if 0 <? vnth v j - vnth ub j then vnth v j - vnth ub j
                               else 0) l)).
  { induction l as [|j l IH]; intros a; cbn [fold_left map]; [simpl; lra|].
    rewrite Qsum_cons, IH. destruct (vnth ub j - vnth lb j <? 1e-20); [lra|].
    destruct (0 <? vnth lb j - vnth v j); [lra|].
    destruct (0 <? vnth v j - vnth ub j); lra. }
  rewrite H. lra.
Qed.

Lemma Qabs_zero_iff (x : Q) : Qabs x == 0 <-> x == 0.
Proof.
  split; intros H.
  - destruct (Qlt_le_dec x 0) as [Hneg|Hpos].
    + rewrite Qabs_neg in H by lra. lra.
    + rewrite Qabs_pos in H by lra. exact H.
  - rewrite H. reflexivity.
Qed.

End Measures.

(** X2.  The l1 infeasibility of lines 364-373 and 410-418 is never
    negative, and it is zero exactly when every constraint value lies
    between its bounds. *)
Theorem l1_infeasibility_zero_iff_feasible (m : nat) (lbg ubg g : vec) :
  0 <= l1_infeasibility m lbg ubg g /\
  (l1_infeasibility m lbg ubg g == 0 <->
   forall j, (j < m)%nat -> vnth lbg j <= vnth g j /\ vnth g j <= vnth ubg j).
Proof.
  rewrite l1_infeasibility_sum.
  set (w := fun j => if 0 <? vnth lbg j - vnth g j then vnth lbg j - vnth g j
                     else if 0 <? vnth g j - vnth ubg j then vnth g j - vnth ubg j
                     else 0).
  assert (Hw : forall j, 0 <= w j /\
                         (w j == 0 <-> vnth lbg j <= vnth g j /\ vnth g j <= vnth ubg j)).
  { intros j. unfold w.
    destruct (0 <? vnth lbg j - vnth g j) eqn:E1.
    - apply Qltb_lt in E1. split; [lra|]. split; intros; lra.
    - apply Qltb_ge in E1. destruct (0 <? vnth g j - vnth ubg j) eqn:E2.
      + apply Qltb_lt in E2. split; [lra|]. split; intros; lra.
      + apply Qltb_ge in E2. split; [lra|]. split; intros; [lra|reflexivity]. }
  split; [apply Qsum_nonneg; intros j _; apply Hw|].
  rewrite Qsum_zero_iff by (intros j _; apply Hw).
  split.
  - intros H j Hj. apply Hw, H, in_seq. lia.
  - intros H j Hj. apply in_seq in Hj. apply Hw, H. lia.
Qed.

Lemma l1_infeasibility_zero_iff_feasible_witness :
  l1_infeasibility 2 [0; 1] [1; 3] [1; 2] == 0.
Proof.
  apply (l1_infeasibility_zero_iff_feasible 2 [0; 1] [1; 3] [1; 2]).
  intros j Hj. destruct j as [|[|j]]; [split; vm_compute; discriminate..|lia].
Defined.

(** X3.  When [G] is present, the primal infeasibility of lines 499-536
    is never negative, and it is zero exactly when every constraint
    value and every variable passes the test of its row: a row whose
    bounds are less than [1E-20] apart must be met at the lower bound,
    any other row must lie between its bounds. *)
Theorem primal_infeasibility_zero_iff_feasible (m n : nat)
    (lbg ubg g lbx ubx x : vec) :
  let ok := fun (lb ub v : vec) (j : nat) =>
              if vnth ub j - vnth lb j <? 1e-20 then vnth v j == vnth lb j
              else vnth lb j <= vnth v j /\ vnth v j <= vnth ub j in
  0 <= primal_infeasibility false m n lbg ubg g lbx ubx x /\
  (primal_infeasibility false m n lbg ubg g lbx ubx x == 0 <->
   (forall j, (j < m)%nat -> ok lbg ubg g j) /\
   (forall j, (j < n)%nat -> ok lbx ubx x j)).
Proof.
  intros ok.
  assert (Hloop : forall k lb ub v,
    0 <= violation_loop k lb ub v /\
    (violation_loop k lb ub v == 0 <-> forall j, (j < k)%nat -> ok lb ub v j)).
  { intros k lb ub v. rewrite violation_loop_sum.
    set (w := fun j => if vnth ub j - vnth lb j <? 1e-20 then fabs (vnth v j - vnth lb j)
                       else if 0 <? vnth lb j - vnth v j then vnth lb j - vnth v j
                       else if 0 <? vnth v j - vnth ub j then vnth v j - vnth ub j
                       else 0).
    assert (Hw : forall j, 0 <= w j /\ (w j == 0 <-> ok lb ub v j)).
    { intros j. unfold w, ok.
      destruct (vnth ub j - vnth lb j <? 1e-20).
      - split; [apply Qabs_nonneg|]. unfold fabs. rewrite Qabs_zero_iff.
        split; intros; lra.
      - destruct (0 <? vnth lb j - vnth v j) eqn:E1.
        + apply Qltb_lt in E1. split; [lra|]. split; intros; lra.
        + apply Qltb_ge in E1. destruct (0 <? vnth v j - vnth ub j) eqn:E2.
          * apply Qltb_lt in E2. split; [lra|]. split; intros; lra.
          * apply Qltb_ge in E2. split; [lra|]. split; intros; [lra|reflexivity]. }
    split; [apply Qsum_nonneg; intros j _; apply Hw|].
    rewrite Qsum_zero_iff by (intros j _; apply Hw).
    split.
    - intros H j Hj. apply Hw, H, in_seq. lia.
    - intros H j Hj. apply in_seq in Hj. apply Hw, H. lia. }
  unfold primal_infeasibility. simpl negb. cbv iota beta.
  destruct (Hloop m lbg ubg g) as [HG HGz], (Hloop n lbx ubx x) as [Hx Hxz].
  split; [lra|]. rewrite <- HGz, <- Hxz. split; intros; lra.
Qed.

Lemma primal_infeasibility_zero_iff_feasible_witness :
  primal_infeasibility false 1 1 [1] [1] [1] [0] [2] [1] == 0.
Proof.
  apply (primal_infeasibility_zero_iff_feasible 1 1 [1] [1] [1] [0] [2] [1]).
  split; intros j Hj; (destruct j as [|j]; [|lia]).
  - reflexivity.
  - split; vm_compute; discriminate.
Defined.

Section MeritMemory.

Lemma meritmax_fold_spec (l : list Q) (a : Q) :
  let r := fold_left (fun mx v => if mx <? v then v else mx) l a in
  a <= r /\ (forall v, In v l -> v <= r) /\ (r = a \/ In r l).
Proof.
  revert a. induction l as [|x l IH]; intros a; simpl.
  - split; [lra|]. split; [tauto|]. left; reflexivity.
  - specialize (IH (if a <? x then x else a)). simpl in IH.
    destruct IH as (Hle & Hall & Hmem).
    destruct (a <? x) eqn:E.
    + apply Qltb_lt in E. split; [lra|]. split.
      * intros v [<-|Hv]; [exact Hle|apply Hall, Hv].
      * right. destruct Hmem as [->|Hin]; [left; reflexivity|right; exact Hin].
    + apply Qltb_ge in E. split; [exact Hle|]. split.
      * intros v [<-|Hv]; [lra|apply Hall, Hv].
      * destruct Hmem as [->|Hin]; [left; reflexivity|right; right; exact Hin].
Qed.

Lemma push_merit_length (S : SQP) (mem : list Q) (v : Q) :
  (Z.of_nat (length mem) <= to_size_t (merit_memsize_ S))%Z ->
  Z.of_nat (length (push_merit S mem v))
  = Z.min (Z.of_nat (length mem) + 1) (to_size_t (merit_memsize_ S)).
Proof.
  intros H. unfold push_merit. cbv zeta.
  assert (Hl : length (mem ++ [v]) = Datatypes.S (length mem)).
  { rewrite length_app. simpl. lia. }
  rewrite Hl. destruct (Z.ltb_spec (to_size_t (merit_memsize_ S)) (Z.of_nat (Datatypes.S (length mem)))).
  - destruct (mem ++ [v]) eqn:E; [discriminate|]. simpl in *. lia.
  - rewrite Hl. lia.
Qed.

End MeritMemory.

(** X4.  The test of line 428 is nonmonotone: a candidate is accepted
    exactly when its merit is within the Armijo margin of some merit
    value kept in memory, or of the floor [-1E20] the maximum starts
    from. *)
Theorem armijo_accepts_against_memory (S : SQP) (sigma L1dir : Q) (mem : list Q) (t : Q)
    (x_cand gk_cand : vec) :
  armijo S sigma L1dir mem t x_cand gk_cand = true <->
  L1merit_at S sigma x_cand gk_cand <= -1E20 + t * c1_ S * L1dir \/
  exists v, In v mem /\ L1merit_at S sigma x_cand gk_cand <= v + t * c1_ S * L1dir.
Proof.
  unfold armijo. rewrite Qle_bool_iff.
  destruct (meritmax_fold_spec mem (-1E20)) as (Hfloor & Hall & Hmem).
  fold (meritmax mem) in *. split.
  - intros H. destruct Hmem as [E|Hin].
    + left. rewrite E in H. exact H.
    + right. exists (meritmax mem). split; [exact Hin|exact H].
  - intros [H|(v & Hv & H)].
    + lra.
    + specialize (Hall v Hv). lra.
Qed.

Lemma armijo_accepts_against_memory_witness :
  armijo Examples.quadratic_callback 0 0 [10; 12; 8; 9] 1 [3.4] [] = true.
Proof.
  apply (armijo_accepts_against_memory Examples.quadratic_callback 0 0 [10; 12; 8; 9] 1
           [3.4] []).
  right. exists 12. split; [simpl; tauto|vm_compute; discriminate].
Defined.

Section LineSearchContract.

Variable S : SQP.
Variables (x pk : vec) (sigma L1dir : Q) (mem : list Q).

(** The constraint value the trial at stepsize [t] is tested with. *)
Lemma line_search_trials (fuel : nat) (t0 : Q) (g0 : vec) (c0 : Z) (ls : LSResult) :
  line_search S fuel x pk sigma L1dir mem t0 g0 c0 = Some ls ->
  exists k : nat,
    ls_counter ls = (c0 + Z.of_nat k)%Z /\
    (forall j, (j < k)%nat ->
       (c0 + Z.of_nat j)%Z <> maxiter_ls_ S /\
       armijo S sigma L1dir mem (Nat.iter j (Qmult (beta_ S)) t0)
              (candidate (n_ S) x pk (Nat.iter j (Qmult (beta_ S)) t0))
              (if negb (G_isNull S)
               then G_val S (candidate (n_ S) x pk (Nat.iter j (Qmult (beta_ S)) t0))
               else g0) = false) /\
    ls_x_cand ls = candidate (n_ S) x pk (Nat.iter k (Qmult (beta_ S)) t0) /\
    ls_fk_cand ls = F_val S (ls_x_cand ls) /\
    ls_gk_cand ls = (if negb (G_isNull S) then G_val S (ls_x_cand ls) else g0) /\
    (armijo S sigma L1dir mem (Nat.iter k (Qmult (beta_ S)) t0)
            (ls_x_cand ls) (ls_gk_cand ls) = true /\
     ls_t ls = Nat.iter k (Qmult (beta_ S)) t0
     \/
     armijo S sigma L1dir mem (Nat.iter k (Qmult (beta_ S)) t0)
            (ls_x_cand ls) (ls_gk_cand ls) = false /\
     ls_counter ls = maxiter_ls_ S /\
     ls_t ls = beta_ S * Nat.iter k (Qmult (beta_ S)) t0).
Proof.
  revert t0 g0 c0. induction fuel as [|fuel IH]; intros t0 g0 c0 H; [discriminate|].
  simpl in H.
  destruct (armijo S sigma L1dir mem t0 (candidate (n_ S) x pk t0)
              (if negb (G_isNull S) then G_val S (candidate (n_ S) x pk t0) else g0))
    eqn:Ea.
  - injection H as H. subst ls. exists 0%nat. simpl.
    split; [lia|]. split; [intros j Hj; lia|].
    split; [reflexivity|]. split; [reflexivity|]. split; [reflexivity|].
    left. split; [exact Ea|reflexivity].
  - destruct (Z.eqb_spec c0 (maxiter_ls_ S)) as [Ec|Ec].
    + injection H as H. subst ls. exists 0%nat. simpl.
      split; [lia|]. split; [intros j Hj; lia|].
      split; [reflexivity|]. split; [reflexivity|]. split; [reflexivity|].
      right. split; [exact Ea|]. split; [exact Ec|reflexivity].
    + apply IH in H as (k & Hc & Hfail & Hx & Hf & Hg & Hend).
      assert (Hiter : forall j, Nat.iter j (Qmult (beta_ S)) (beta_ S * t0)
                                = Nat.iter (Datatypes.S j) (Qmult (beta_ S)) t0).
      { intros j. rewrite Nat.iter_swap. reflexivity. }
      assert (Hg0 : forall y,
        (if negb (G_isNull S) then y
         else if negb (G_isNull S) then G_val S (candidate (n_ S) x pk t0) else g0)
        = (if negb (G_isNull S) then y else g0)).
      { intros y. destruct (negb (G_isNull S)); reflexivity. }
      exists (Datatypes.S k). rewrite <- !Hiter.
      split; [lia|]. split.
      { intros j Hj. destruct j as [|j].
        - simpl. split; [lia|exact Ea].
        - rewrite <- Hiter. destruct (Hfail j ltac:(lia)) as [Hne Hfa].
          split; [lia|]. rewrite Hg0 in Hfa. exact Hfa. }
      split; [exact Hx|]. split; [exact Hf|]. split; [rewrite Hg, Hg0; reflexivity|].
      exact Hend.
Qed.

End LineSearchContract.

(** X5.  What the line search of lines 388-442 returns after [k]
    backtracking steps: the candidate [x + beta^k * p] with the
    objective and, when [G] is present, the constraints evaluated at
    it; every earlier trial failed the test of line 428; and either the
    candidate passed the test and [t = beta^k], or it failed, the
    counter equals [maxiter_ls] and [t = beta^(k+1)], one backtracking
    step ahead of the candidate. *)
Theorem search_contract (S : SQP) (ls_fuel : nat) (st : State) (ls : LSResult) :
  let sp := solve_subproblem S st in
  let pk := QP_PRIMAL (sub_sol sp) in
  let step := fun j => Nat.iter j (Qmult (beta_ S)) 1 in
  let test := fun j =>
    armijo S (sub_sigma sp) (sub_L1dir sp) (sub_mem sp) (step j)
           (candidate (n_ S) (x_ st) pk (step j))
           (if negb (G_isNull S)
            then G_val S (candidate (n_ S) (x_ st) pk (step j)) else []) in
  search S ls_fuel st sp = Some ls ->
  exists k : nat,
    ls_counter ls = Z.of_nat (k + 1) /\
    (forall j, (j < k)%nat -> test j = false) /\
    ls_x_cand ls = candidate (n_ S) (x_ st) pk (step k) /\
    ls_fk_cand ls = F_val S (ls_x_cand ls) /\
    ls_gk_cand ls = (if negb (G_isNull S) then G_val S (ls_x_cand ls) else []) /\
    (test k = true /\ ls_t ls = step k \/
     test k = false /\ ls_counter ls = maxiter_ls_ S /\ ls_t ls = beta_ S * step k).
Proof.
  intros sp pk step test H. unfold search in H.
  apply line_search_trials in H as (k & Hc & Hfail & Hx & Hf & Hg & Hend).
  exists k. split; [lia|]. split; [intros j Hj; apply Hfail, Hj|].
  split; [exact Hx|]. split; [exact Hf|]. split; [exact Hg|].
  unfold test, step, pk. rewrite <- Hx, <- Hg. exact Hend.
Qed.

Lemma search_contract_witness :
  let S := Examples.quadratic_overshoot 3 in
  let st := init_state S in
  let sp := solve_subproblem S st in
  exists ls k,
    search S 3 st sp = Some ls /\
    ls_counter ls = Z.of_nat (k + 1) /\
    ls_x_cand ls
    = candidate (n_ S) (x_ st) (QP_PRIMAL (sub_sol sp)) (Nat.iter k (Qmult (beta_ S)) 1) /\
    ls_fk_cand ls = F_val S (ls_x_cand ls).
Proof.
  intros S st sp.
  destruct (search S 3 st sp) as [ls|] eqn:E; [|vm_compute in E; discriminate E].
  destruct (search_contract S 3 st ls E) as (k & Hc & _ & Hx & Hf & _).
  exists ls, k. split; [reflexivity|]. split; [exact Hc|]. split; [exact Hx|exact Hf].
Defined.

(** X6.  With [maxiter_ls] below one the budget test of line 438 never
    fires: whenever the line search returns, its candidate passed the
    test of line 428 with the stepsize returned, and the marker of the
    log is not ['F']. *)
Theorem search_without_budget (S : SQP) (ls_fuel : nat) (st : State) (ls : LSResult) :
  (maxiter_ls_ S < 1)%Z ->
  let sp := solve_subproblem S st in
  search S ls_fuel st sp = Some ls ->
  armijo S (sub_sigma sp) (sub_L1dir sp) (sub_mem sp) (ls_t ls)
         (ls_x_cand ls) (ls_gk_cand ls) = true /\
  ls_x_cand ls = candidate (n_ S) (x_ st) (QP_PRIMAL (sub_sol sp)) (ls_t ls) /\
  ls_marker S (ls_counter ls) = " "%char.
Proof.
  intros Hb sp H. unfold search in H.
  apply line_search_trials in H as (k & Hc & _ & Hx & _ & _ & Hend).
  destruct Hend as [[Ha Ht]|(_ & Hm & _)]; [|lia].
  rewrite Ht. split; [exact Ha|]. split; [exact Hx|].
  unfold ls_marker. destruct (Z.eqb_spec (ls_counter ls) (maxiter_ls_ S)); [lia|reflexivity].
Qed.

Lemma search_without_budget_witness :
  let S := Examples.quadratic_overshoot 0 in
  let st := init_state S in
  let sp := solve_subproblem S st in
  exists ls,
    search S 5 st sp = Some ls /\
    armijo S (sub_sigma sp) (sub_L1dir sp) (sub_mem sp) (ls_t ls)
           (ls_x_cand ls) (ls_gk_cand ls) = true /\
    ls_marker S (ls_counter ls) = " "%char.
Proof.
  intros S st sp.
  destruct (search S 5 st sp) as [ls|] eqn:E; [|vm_compute in E; discriminate E].
  destruct (search_without_budget S 5 st ls) as (Ha & _ & Hm);
    [reflexivity|exact E|].
  exists ls. split; [reflexivity|]. split; [exact Ha|exact Hm].
Defined.

Section RunFacts.

Variable S : SQP.
Variable ls_fuel : nat.

Lemma commit_fields (st : State) (sp : Subproblem) (ls : LSResult) (i : Iterate) :
  commit S st sp ls = Ok i ->
  fk (it_state i) = ls_fk_cand ls /\ gk (it_state i) = ls_gk_cand ls /\
  merit_mem (it_state i) = sub_mem sp /\
  length (mu_ (it_state i)) = m_ S /\ length (mu_x_ (it_state i)) = n_ S /\
  it_pr_inf i = primal_infeasibility (G_isNull S) (m_ S) (n_ S) (lbg S) (ubg S)
                  (ls_gk_cand ls) (lbx S) (ubx S) (ls_x_cand ls) /\
  exists line,
    cout (it_state i) = sub_cout sp ++ [line] /\
    line_numbers [line] = [it_counter st].
Proof.
  unfold commit. cbv zeta. destruct (update_hessian _ _ _ _ _ _ _); [|discriminate].
  intros H. injection H as H. subst i. cbn [it_state it_pr_inf fk gk merit_mem mu_ mu_x_ cout].
  rewrite !length_map, !length_seq.
  repeat (split; [reflexivity|]). eexists. split; reflexivity.
Qed.

(** The tests at the end of the iteration keep the iterate, its
    multipliers and the merit memory. *)
Lemma check_exit_keeps (i : Iterate) (st' : State) :
  (exists why, check_exit S i = inl (st', why)) \/ check_exit S i = inr st' ->
  x_ st' = x_ (it_state i) /\ fk st' = fk (it_state i) /\ gk st' = gk (it_state i) /\
  mu_ st' = mu_ (it_state i) /\ mu_x_ st' = mu_x_ (it_state i) /\
  merit_mem st' = merit_mem (it_state i) /\
  cb_calls st' = (if callback_isNull S then cb_calls (it_state i)
                  else callback_input (it_state i) :: cb_calls (it_state i)).
Proof.
  unfold check_exit, call_callback.
  destruct (callback_says_stop S _); [|destruct (converged S _ _); [|destruct (Z.eqb _ _)]];
    (intros [[why H]|H]; [|try discriminate H]); try discriminate H;
    injection H as H; try (intros _); subst st';
    destruct (callback_isNull S); repeat split; reflexivity.
Qed.

Lemma check_exit_log (i : Iterate) :
  match check_exit S i with
  | inl (st', why) =>
      cout st' = cout (it_state i)
                 ++ [match why with
                     | CallbackAbort => MsgAborted
                     | Converged => MsgConvergence (it_counter (it_state i))
                     | MaxIter => MsgMaxIter
                     end]
  | inr st' => cout st' = cout (it_state i)
  end.
Proof.
  unfold check_exit, call_callback.
  destruct (callback_says_stop S _); [|destruct (converged S _ _); [|destruct (Z.eqb _ _)]];
    destruct (callback_isNull S); reflexivity.
Qed.

Lemma line_numbers_app (a b : list event) :
  line_numbers (a ++ b) = line_numbers a ++ line_numbers b.
Proof. unfold line_numbers. apply flat_map_app. Qed.

Lemma header_count_app (a b : list event) :
  header_count (a ++ b) = (header_count a + header_count b)%nat.
Proof. unfold header_count. rewrite flat_map_app, length_app. reflexivity. Qed.

Lemma sub_cout_log (st : State) :
  line_numbers (sub_cout (solve_subproblem S st)) = line_numbers (cout st) /\
  header_count (sub_cout (solve_subproblem S st))
  = (header_count (cout st) + if Z.eqb (Z.rem (it_counter st) 10) 0 then 1 else 0)%nat.
Proof.
  unfold solve_subproblem. cbv zeta. cbn [sub_cout].
  destruct (_ <? 0); destruct (Z.eqb _ 0);
    rewrite ?line_numbers_app, ?header_count_app; cbn; rewrite ?app_nil_r;
    split; lia || reflexivity.
Qed.

Lemma log_iteration (st : State) (i : Iterate) :
  log_upto st -> iteration S ls_fuel st = Ok i ->
  it_counter (it_state i) = it_counter st /\
  line_numbers (cout (it_state i)) = map Z.of_nat (seq 1 (Z.to_nat (it_counter st))) /\
  Z.of_nat (header_count (cout (it_state i))) = (1 + it_counter st / 10)%Z.
Proof.
  intros (Hc & Hl & Hh) Hi.
  destruct (iteration_state _ _ _ _ Hi) as [_ Hcommit].
  destruct (commit_state _ _ _ _ _ Hcommit) as (_ & _ & _ & _ & _ & Ecnt & _).
  destruct (commit_fields _ _ _ _ Hcommit) as (_ & _ & _ & _ & _ & _ & line & Ecout & Eline).
  destruct (sub_cout_log st) as [El Eh].
  split; [exact Ecnt|]. rewrite Ecout, line_numbers_app, header_count_app, El, Eh, Eline, Hl.
  split.
  - replace (Z.to_nat (it_counter st)) with (Datatypes.S (Z.to_nat (it_counter st - 1))) by lia.
    rewrite seq_S, map_app. simpl. do 3 f_equal. lia.
  - assert (Hz : header_count [line] = 0%nat).
    { unfold line_numbers in Eline. destruct line; try discriminate. reflexivity. }
    rewrite Hz, Z.rem_mod_nonneg by lia.
    destruct (Z.eqb_spec (it_counter st mod 10) 0) as [E|E];
      Z.to_euclidean_division_equations; lia.
Qed.

Lemma log_upto_init : log_upto (init_state S).
Proof. unfold log_upto. simpl. repeat split; reflexivity || lia. Qed.

Lemma log_upto_iterations (k : nat) (st : State) :
  iterations S ls_fuel k (init_state S) = Some st -> log_upto st.
Proof.
  apply iterations_invariant; [|apply log_upto_init].
  intros s i s' Hs Hi Hc.
  destruct (log_iteration s i Hs Hi) as (Ecnt & El & Eh).
  pose proof (check_exit_log i) as Hlog. rewrite Hc in Hlog.
  pose proof (check_exit_state S i) as Hx. rewrite Hc in Hx.
  destruct Hx as (_ & _ & _ & Ecnt').
  destruct Hs as (H1 & _ & _).
  unfold log_upto. rewrite Hlog, Ecnt', Ecnt, El, Eh.
  split; [lia|]. split; [do 2 f_equal; lia|]. do 2 f_equal. lia.
Qed.

(** The sizes of the multipliers. *)
Lemma multipliers_sized (st : State) (i : Iterate) :
  iteration S ls_fuel st = Ok i ->
  length (mu_ (it_state i)) = m_ S /\ length (mu_x_ (it_state i)) = n_ S.
Proof.
  intros Hi. destruct (iteration_state _ _ _ _ Hi) as [_ Hcommit].
  destruct (commit_fields _ _ _ _ Hcommit) as (_ & _ & _ & Hm & Hn & _).
  split; assumption.
Qed.

(** Every unpacking of a returned [evaluate] goes through this. *)
Lemma evaluate_last_iteration (fuel : nat) (out : Output) :
  evaluate S ls_fuel fuel = Ok out ->
  exists k st i st',
    (k < fuel)%nat /\
    iterations S ls_fuel k (init_state S) = Some st /\
    iteration S ls_fuel st = Ok i /\
    check_exit S i = inl (st', why_stopped out) /\
    NLP_COST out = fk st' /\ NLP_X_OPT out = x_ st' /\ NLP_LAMBDA_G out = mu_ st' /\
    NLP_LAMBDA_X out = mu_x_ st' /\ NLP_G out = gk st' /\
    iter_count out = it_counter st' /\ printed out = cout st'.
Proof.
  intros H. unfold evaluate in H.
  destruct (main_loop S ls_fuel fuel (init_state S)) as [| |[st' why]] eqn:Hm;
    try discriminate.
  injection H as <-. simpl.
  apply main_loop_returns in Hm as (k & st & i & Hk & Hit & Hi & Hc).
  exists k, st, i, st'. repeat split; assumption.
Qed.

End RunFacts.

(** X7.  The values [evaluate] returns belong to one point: the cost
    is the objective at the returned [x], the constraint values, when
    [G] is present, are those at the returned [x], the multipliers
    have [m] and [n] entries, and the primal infeasibility tested
    against [tol_pr] on a return by convergence is the one of the
    returned [x] and constraint values. *)
Theorem outputs_of_returned_point (S : SQP) (ls_fuel fuel : nat) (out : Output) :
  evaluate S ls_fuel fuel = Ok out ->
  NLP_COST out = F_val S (NLP_X_OPT out) /\
  length (NLP_X_OPT out) = n_ S /\
  (G_isNull S = false -> NLP_G out = G_val S (NLP_X_OPT out)) /\
  length (NLP_LAMBDA_G out) = m_ S /\
  length (NLP_LAMBDA_X out) = n_ S /\
  (why_stopped out = Converged ->
   primal_infeasibility (G_isNull S) (m_ S) (n_ S) (lbg S) (ubg S) (NLP_G out)
                        (lbx S) (ubx S) (NLP_X_OPT out) < tol_pr_ S).
Proof.
  intros H.
  destruct (evaluate_last_iteration _ _ _ _ H)
    as (k & st & i & st' & _ & _ & Hi & Hc & -> & -> & -> & -> & -> & _).
  destruct (check_exit_keeps S i st') as (Ex & Ef & Eg & Em & Emx & _);
    [left; eexists; exact Hc|].
  destruct (iteration_state _ _ _ _ Hi) as [Hsearch Hcommit].
  destruct (commit_state _ _ _ _ _ Hcommit) as (Ecand & _).
  destruct (commit_fields _ _ _ _ _ Hcommit) as (Efk & Egk & _ & Hm & Hn & Epr & _).
  unfold search in Hsearch.
  apply line_search_trials in Hsearch as (j & _ & _ & Hx & Hf & Hg & _).
  rewrite Ex, Ef, Eg, Em, Emx, Ecand, Efk, Egk.
  split; [exact Hf|]. split; [rewrite Hx; apply candidate_length|].
  split; [intros HG; rewrite Hg, HG; reflexivity|].
  split; [exact Hm|]. split; [exact Hn|].
  intros Hw. pose proof (check_exit_cases S i) as Hcases. cbv zeta in Hcases.
  rewrite Hc, Hw in Hcases. destruct Hcases as [_ Hconv].
  apply converged_spec in Hconv as [Hpr _]. rewrite <- Epr. exact Hpr.
Qed.

Lemma outputs_of_returned_point_witness :
  exists out,
    evaluate Examples.quadratic_constrained 3 50 = Ok out /\
    NLP_COST out = F_val Examples.quadratic_constrained (NLP_X_OPT out) /\
    NLP_G out = G_val Examples.quadratic_constrained (NLP_X_OPT out).
Proof.
  destruct (evaluate Examples.quadratic_constrained 3 50) as [| |out] eqn:E;
    [vm_compute in E; discriminate E|vm_compute in E; discriminate E|].
  destruct (outputs_of_returned_point _ _ _ _ E) as (Hc & _ & Hg & _).
  exists out. split; [reflexivity|]. split; [exact Hc|apply Hg; reflexivity].
Defined.

(** X8.  The log of a run that returns: one line per iteration,
    numbered [1, 2, ..., iter_count] in this order; the header printed
    once on entry and once more before every iteration whose number is
    a multiple of ten; and, last, the message of the [break] taken. *)
Theorem log_of_returned_run (S : SQP) (ls_fuel fuel : nat) (out : Output) :
  evaluate S ls_fuel fuel = Ok out ->
  (1 <= iter_count out)%Z /\
  line_numbers (printed out) = map Z.of_nat (seq 1 (Z.to_nat (iter_count out))) /\
  Z.of_nat (header_count (printed out)) = (1 + iter_count out / 10)%Z /\
  last (printed out)
  = Some (match why_stopped out with
          | CallbackAbort => MsgAborted
          | Converged => MsgConvergence (iter_count out)
          | MaxIter => MsgMaxIter
          end).
Proof.
  intros H.
  destruct (evaluate_last_iteration _ _ _ _ H)
    as (k & st & i & st' & _ & Hit & Hi & Hc & _ & _ & _ & _ & _ & -> & ->).
  pose proof (log_upto_iterations _ _ _ _ Hit) as Hlog.
  destruct (log_iteration _ _ _ _ Hlog Hi) as (Ecnt & El & Eh).
  pose proof (check_exit_log S i) as Hmsg. rewrite Hc in Hmsg.
  pose proof (check_exit_state S i) as Hx. rewrite Hc in Hx.
  destruct Hx as (_ & _ & _ & Ecnt').
  destruct Hlog as (H1 & _ & _).
  rewrite Hmsg, Ecnt', Ecnt, line_numbers_app, header_count_app, El, Nat2Z.inj_add, Eh,
    last_snoc.
  split; [exact H1|].
  destruct (why_stopped out); cbn; rewrite app_nil_r;
    (split; [reflexivity|]); (split; [lia|reflexivity]).
Qed.

Lemma log_of_returned_run_witness :
  exists out,
    evaluate Examples.quadratic_callback 1 50 = Ok out /\
    line_numbers (printed out) = map Z.of_nat (seq 1 (Z.to_nat (iter_count out))) /\
    last (printed out) = Some MsgAborted.
Proof.
  destruct (evaluate Examples.quadratic_callback 1 50) as [| |out] eqn:E;
    [vm_compute in E; discriminate E|vm_compute in E; discriminate E|].
  destruct (log_of_returned_run _ _ _ _ E) as (_ & Hl & _ & Hm).
  exists out. split; [reflexivity|]. split; [exact Hl|].
  rewrite Hm. f_equal.
  assert (Hw : why_stopped out = CallbackAbort).
  { vm_compute in E. injection E as <-. reflexivity. }
  rewrite Hw. reflexivity.
Defined.

(** X9.  With [maxiter_ls >= 1], [maxiter >= 1] and a remainder
    [it_counter % lbfgs_memory] that is defined, [evaluate] returns,
    after at least one and at most [maxiter] iterations. *)
Theorem evaluate_stops_within_maxiter (S : SQP) :
  (1 <= maxiter_ls_ S)%Z ->
  hessian_exact S = true \/ lbfgs_memory_ S <> 0%Z ->
  (1 <= maxiter_ S)%Z ->
  exists out,
    evaluate S (Z.to_nat (maxiter_ls_ S)) (Z.to_nat (maxiter_ S)) = Ok out /\
    (1 <= iter_count out <= maxiter_ S)%Z.
Proof.
  intros Hls Htrap Hm.
  destruct (evaluate_returns S Hls Htrap Hm) as [out Hout].
  exists out. split; [exact Hout|].
  destruct (evaluate_last_iteration _ _ _ _ Hout)
    as (k & st & i & st' & Hk & Hit & Hi & Hc & _ & _ & _ & _ & _ & -> & _).
  pose proof (iterations_counter _ _ _ _ _ Hit) as Ek. simpl in Ek.
  pose proof (check_exit_state S i) as Hx. rewrite Hc in Hx.
  destruct Hx as (_ & _ & _ & ->).
  destruct (iteration_state _ _ _ _ Hi) as [_ Hcommit].
  destruct (commit_state _ _ _ _ _ Hcommit) as (_ & _ & _ & _ & _ & -> & _).
  lia.
Qed.

Lemma evaluate_stops_within_maxiter_witness :
  exists out,
    evaluate Examples.quadratic_constrained 3 50 = Ok out /\
    (1 <= iter_count out <= 50)%Z.
Proof.
  apply (evaluate_stops_within_maxiter Examples.quadratic_constrained).
  - vm_compute. discriminate.
  - right. vm_compute. discriminate.
  - vm_compute. discriminate.
Defined.

Section Callback.

Variable S : SQP.
Variable ls_fuel : nat.

Lemma cb_calls_iterations (k : nat) (st : State) :
  iterations S ls_fuel k (init_state S) = Some st ->
  length (cb_calls st) = if callback_isNull S then 0%nat else k.
Proof.
  revert st. induction k as [|k IH]; intros st H.
  - simpl in H. injection H as <-. simpl. destruct (callback_isNull S); reflexivity.
  - replace (Datatypes.S k) with (k + 1)%nat in H by lia.
    rewrite iterations_add in H.
    destruct (iterations S ls_fuel k (init_state S)) as [s|] eqn:Hk; [|discriminate].
    apply iterations_succ in H as (i & st1 & Hi & Hc & Hst). simpl in Hst.
    injection Hst as <-.
    destruct (check_exit_keeps S i st1) as (_ & _ & _ & _ & _ & _ & ->);
      [right; exact Hc|].
    rewrite (iteration_cb_calls _ _ _ _ Hi). specialize (IH s eq_refl).
    destruct (callback_isNull S); simpl; lia.
Qed.

End Callback.

(** X10.  The callback of lines 558-570.  When it is present it has
    been called once in every iteration, and at its last call it was
    given exactly the iterate, cost, multipliers and constraint values
    that [evaluate] then returns; when it is absent it is never called
    and the run does not end by the first [break]. *)
Theorem callback_called_every_iteration (S : SQP) (ls_fuel fuel : nat)
    (st : State) (why : exit) :
  main_loop S ls_fuel fuel (init_state S) = Ok (st, why) ->
  (callback_isNull S = false ->
   Z.of_nat (length (cb_calls st)) = it_counter st /\
   head (cb_calls st)
   = Some {| cb_X_OPT := x_ st; cb_COST := fk st; cb_LAMBDA_G := mu_ st;
             cb_LAMBDA_X := mu_x_ st; cb_G := gk st |}) /\
  (callback_isNull S = true -> cb_calls st = [] /\ why <> CallbackAbort).
Proof.
  intros H. apply main_loop_returns in H as (k & s & i & _ & Hit & Hi & Hc).
  pose proof (cb_calls_iterations _ _ _ _ Hit) as Hlen.
  pose proof (iterations_counter _ _ _ _ _ Hit) as Ek. simpl in Ek.
  destruct (check_exit_keeps S i st) as (Ex & Ef & Eg & Em & Emx & _ & Ecb);
    [left; eexists; exact Hc|].
  pose proof (check_exit_state S i) as Hx. rewrite Hc in Hx.
  destruct Hx as (_ & _ & _ & Ecnt).
  destruct (iteration_state _ _ _ _ Hi) as [_ Hcommit].
  destruct (commit_state _ _ _ _ _ Hcommit) as (_ & _ & _ & _ & _ & Ecnt' & _).
  rewrite (iteration_cb_calls _ _ _ _ Hi) in Ecb.
  split.
  - intros Hn. rewrite Hn in Ecb, Hlen. rewrite Ecb. simpl. split; [lia|].
    unfold callback_input. rewrite Ex, Ef, Eg, Em, Emx. reflexivity.
  - intros Hn. rewrite Hn in Ecb, Hlen. rewrite Ecb. split.
    + destruct (cb_calls s); [reflexivity|discriminate].
    + intros ->. pose proof (check_exit_cases S i) as Hcases. cbv zeta in Hcases.
      rewrite Hc in Hcases. apply callback_says_stop_spec in Hcases as [Hcases _].
      congruence.
Qed.

Lemma callback_called_every_iteration_witness :
  exists st why,
    main_loop Examples.quadratic_callback 1 50 (init_state Examples.quadratic_callback)
    = Ok (st, why) /\
    Z.of_nat (length (cb_calls st)) = it_counter st /\
    (cb_X_OPT <$> head (cb_calls st)) = Some (x_ st).
Proof.
  destruct (main_loop Examples.quadratic_callback 1 50
              (init_state Examples.quadratic_callback)) as [| |[st why]] eqn:E;
    [vm_compute in E; discriminate E|vm_compute in E; discriminate E|].
  destruct (callback_called_every_iteration _ _ _ _ _ E) as [Hp _].
  destruct (Hp eq_refl) as [Hlen Hhd].
  exists st, why. split; [reflexivity|]. split; [exact Hlen|].
  rewrite Hhd. reflexivity.
Defined.

Section MeritWindow.

Variable S : SQP.
Variable ls_fuel : nat.

Lemma to_size_t_nonneg (k : Z) : (0 <= to_size_t k)%Z.
Proof. unfold to_size_t. apply Z.mod_pos_bound. lia. Qed.

Lemma merit_mem_step (st : State) (i : Iterate) (st' : State) :
  iteration S ls_fuel st = Ok i -> check_exit S i = inr st' ->
  merit_mem st' = sub_mem (solve_subproblem S st).
Proof.
  intros Hi Hc.
  destruct (check_exit_keeps S i st') as (_ & _ & _ & _ & _ & -> & _); [right; exact Hc|].
  destruct (iteration_state _ _ _ _ Hi) as [_ Hcommit].
  destruct (commit_fields _ _ _ _ _ Hcommit) as (_ & _ & -> & _). reflexivity.
Qed.

Lemma sub_mem_push (st : State) :
  sub_mem (solve_subproblem S st) = push_merit S (merit_mem st) (L1merit S st).
Proof. reflexivity. Qed.

Lemma tl_lookup {A} (l : list A) (j : nat) : tl l !! j = l !! Datatypes.S j.
Proof. destruct l; reflexivity. Qed.

(** [push_back] followed by [pop_front]: the values stay in the order
    of their iterations, and the oldest one leaves. *)
Lemma push_merit_window (hist : nat -> Q -> Prop) (mem : list Q) (v : Q) (k : nat) :
  (length mem <= k)%nat ->
  (Z.of_nat (length mem) <= to_size_t (merit_memsize_ S))%Z ->
  (forall j x, mem !! j = Some x -> hist (k - length mem + j)%nat x) ->
  hist k v ->
  forall j x, push_merit S mem v !! j = Some x ->
              hist (k + 1 - length (push_merit S mem v) + j)%nat x.
Proof.
  intros Hk HT Hmem Hv j x. unfold push_merit. cbv zeta.
  assert (Hl : length (mem ++ [v]) = Datatypes.S (length mem)).
  { rewrite length_app. simpl. lia. }
  rewrite Hl. destruct (Z.ltb_spec (to_size_t (merit_memsize_ S))
                          (Z.of_nat (Datatypes.S (length mem)))) as [Hfull|Hroom].
  - assert (Hlt : length (tl (mem ++ [v])) = length mem).
    { destruct (mem ++ [v]); simpl in *; lia. }
    rewrite Hlt, tl_lookup. intros Hx.
    destruct (Nat.lt_ge_cases (Datatypes.S j) (length mem)) as [Hin|Hout].
    + rewrite lookup_app_l in Hx by exact Hin.
      replace (k + 1 - length mem + j)%nat with (k - length mem + Datatypes.S j)%nat by lia.
      apply Hmem, Hx.
    + rewrite lookup_app_r in Hx by lia.
      destruct (Datatypes.S j - length mem)%nat as [|d] eqn:Ed; [|destruct d; discriminate Hx].
      injection Hx as <-.
      replace (k + 1 - length mem + j)%nat with k by lia. exact Hv.
  - rewrite Hl. intros Hx.
    destruct (Nat.lt_ge_cases j (length mem)) as [Hin|Hout].
    + rewrite lookup_app_l in Hx by exact Hin.
      replace (k + 1 - Datatypes.S (length mem) + j)%nat with (k - length mem + j)%nat by lia.
      apply Hmem, Hx.
    + rewrite lookup_app_r in Hx by lia.
      destruct (j - length mem)%nat as [|d] eqn:Ed; [|destruct d; discriminate Hx].
      injection Hx as <-.
      replace (k + 1 - Datatypes.S (length mem) + j)%nat with k by lia. exact Hv.
Qed.

Lemma merit_mem_length (k : nat) (st : State) :
  iterations S ls_fuel k (init_state S) = Some st ->
  Z.of_nat (length (merit_mem st)) = Z.min (Z.of_nat k) (to_size_t (merit_memsize_ S)).
Proof.
  revert st. induction k as [|k IH]; intros st H.
  - simpl in H. injection H as <-. simpl. pose proof (to_size_t_nonneg (merit_memsize_ S)). lia.
  - replace (Datatypes.S k) with (k + 1)%nat in H by lia.
    rewrite iterations_add in H.
    destruct (iterations S ls_fuel k (init_state S)) as [s|] eqn:Hk; [|discriminate].
    apply iterations_succ in H as (i & st1 & Hi & Hc & Hst). simpl in Hst.
    injection Hst as <-. specialize (IH s eq_refl).
    rewrite (merit_mem_step _ _ _ Hi Hc), sub_mem_push.
    rewrite push_merit_length by lia. lia.
Qed.

(** The value at position [j] of the memory after [k] iterations is the
    merit function of the iterate from which iteration
    [k - length + j + 1] started. *)
Lemma merit_mem_contents (k : nat) (st : State) :
  iterations S ls_fuel k (init_state S) = Some st ->
  forall j x, merit_mem st !! j = Some x ->
    exists s, iterations S ls_fuel (k - length (merit_mem st) + j) (init_state S) = Some s /\
              x = L1merit S s.
Proof.
  revert st. induction k as [|k IH]; intros st H.
  - simpl in H. injection H as <-. simpl. intros j x Hx. destruct j; discriminate Hx.
  - pose proof H as Hfull.
    replace (Datatypes.S k) with (k + 1)%nat in H by lia.
    rewrite iterations_add in H.
    destruct (iterations S ls_fuel k (init_state S)) as [s|] eqn:Hk; [|discriminate].
    apply iterations_succ in H as (i & st1 & Hi & Hc & Hst). simpl in Hst.
    injection Hst as <-.
    pose proof (merit_mem_length k s Hk) as Hlen.
    rewrite (merit_mem_step _ _ _ Hi Hc), sub_mem_push.
    replace (Datatypes.S k) with (k + 1)%nat by lia.
    apply (push_merit_window
             (fun n x => exists s', iterations S ls_fuel n (init_state S) = Some s' /\
                                    x = L1merit S s')).
    + lia.
    + lia.
    + apply IH. reflexivity.
    + exists s. split; [exact Hk|reflexivity].
Qed.

End MeritWindow.

(** X11.  The merit memory of lines 383-386 is a sliding window over
    the iterations.  The line search of iteration [k + 1] sees
    [n = min (k + 1, size_t(merit_memsize))] values: position [j] holds
    the merit function [L1merit] of the iterate from which iteration
    [k + 2 - n + j] started, so the values are those of the last [n]
    iterations, oldest first, ending with the current one.  With
    [merit_memsize = 0] the value pushed is dropped at once and the
    maximum of line 422 is the floor [-1E20] it starts from. *)
Theorem merit_memory_window (S : SQP) (ls_fuel k : nat) (st : State) :
  iterations S ls_fuel k (init_state S) = Some st ->
  let mem := sub_mem (solve_subproblem S st) in
  Z.of_nat (length mem) = Z.min (Z.of_nat k + 1) (to_size_t (merit_memsize_ S)) /\
  (forall j, (j < length mem)%nat ->
     exists s, iterations S ls_fuel (k + 1 - length mem + j) (init_state S) = Some s /\
               mem !! j = Some (L1merit S s)) /\
  (merit_memsize_ S = 0%Z -> meritmax mem = -1E20).
Proof.
  intros H mem. pose proof (merit_mem_length _ _ _ _ H) as Hlen.
  assert (Hm : Z.of_nat (length mem)
               = Z.min (Z.of_nat k + 1) (to_size_t (merit_memsize_ S))).
  { unfold mem. rewrite sub_mem_push, push_merit_length by lia. lia. }
  split; [exact Hm|]. split.
  - intros j Hj. destruct (lookup_lt_is_Some_2 mem j Hj) as [x Hx].
    unfold mem in *. rewrite sub_mem_push in *.
    destruct (push_merit_window S
                (fun n x => exists s', iterations S ls_fuel n (init_state S) = Some s' /\
                                       x = L1merit S s')
                (merit_mem st) (L1merit S st) k) with (j := j) (x := x)
      as (s & Hs & ->).
    + lia.
    + lia.
    + apply (merit_mem_contents S ls_fuel k st H).
    + exists st. split; [exact H|reflexivity].
    + exact Hx.
    + exists s. split; [exact Hs|exact Hx].
  - intros E. rewrite E in Hm. change (to_size_t 0) with 0%Z in Hm.
    destruct mem; [reflexivity|simpl in Hm; lia].
Qed.

Lemma merit_memory_window_witness :
  let S := Examples.quadratic_callback in
  exists st,
    iterations S 1 2 (init_state S) = Some st /\
    length (sub_mem (solve_subproblem S st)) = 3%nat /\
    sub_mem (solve_subproblem S st) !! 0%nat = Some (L1merit S (init_state S)) /\
    sub_mem (solve_subproblem S st) !! 2%nat = Some (L1merit S st).
Proof.
  intros S.
  destruct (iterations S 1 2 (init_state S)) as [st|] eqn:E;
    [|vm_compute in E; discriminate E].
  destruct (merit_memory_window _ _ _ _ E) as (Hlen & Hpos & _).
  change (to_size_t (merit_memsize_ S)) with 4%Z in Hlen.
  assert (Hl : length (sub_mem (solve_subproblem S st)) = 3%nat) by lia.
  exists st. split; [reflexivity|]. split; [exact Hl|].
  rewrite Hl in Hpos. split.
  - destruct (Hpos 0%nat ltac:(lia)) as (s & Hs & Hx).
    simpl in Hs. injection Hs as <-. exact Hx.
  - destruct (Hpos 2%nat ltac:(lia)) as (s & Hs & Hx).
    change (2 + 1 - 3 + 2)%nat with 2%nat in Hs. rewrite E in Hs.
    injection Hs as <-. exact Hx.
Defined.

(** X12.  In limited-memory mode with [lbfgs_memory = 0] the first
    iteration reaches [it_counter % lbfgs_memory_] of line 481 with a
    zero divisor: [evaluate] does not return. *)
Theorem lbfgs_memory_zero_traps (S : SQP) (fuel : nat) :
  hessian_exact S = false -> lbfgs_memory_ S = 0%Z -> (1 <= maxiter_ls_ S)%Z ->
  evaluate S (Z.to_nat (maxiter_ls_ S)) (Datatypes.S fuel) = Trap.
Proof.
  intros He Hz Hls. unfold evaluate. simpl. unfold iteration. cbv zeta. unfold search.
  edestruct (line_search_returns S (Z.to_nat (maxiter_ls_ S))) as (ls & -> & _);
    [exact Hls|lia|].
  unfold commit. cbv zeta. unfold update_hessian. rewrite He, Hz. reflexivity.
Qed.

Lemma lbfgs_memory_zero_traps_witness :
  let S := {| n_ := 1; m_ := 0; x_init := [2]; lbx := [-10]; ubx := [10]; lbg := [];
              ubg := []; F_val := fun x => vnth x 0 * vnth x 0;
              F_adjSens := fun x => [2 * vnth x 0];
              F_fwdSens := fun x s => 2 * vnth x 0 * vnth s 0;
              G_isNull := true; G_val := fun _ => []; G_adjSens := fun _ _ => [];
              J_val := fun _ => []; H_val := fun _ _ => [];
              qp_solve := Examples.qp_solve_1d; qp_buffers := Examples.buffers_1d;
              callback_isNull := true; callback_eval := fun _ => 0;
              hessian_exact := false; regularize := false;
              maxiter_ := 50; maxiter_ls_ := 3; c1_ := 1e-4; beta_ := 0.8;
              merit_memsize_ := 4; lbfgs_memory_ := 0; tol_pr_ := 1e-6;
              tol_du_ := 1e-6 |} in
  evaluate S 3 5 = Trap.
Proof.
  intros S. apply (lbfgs_memory_zero_traps S 4); [reflexivity|reflexivity|].
  vm_compute. discriminate.
Defined.

Section DenseEntries.

Lemma getNZ_cons (e : nat * Q) (r : row) (j : nat) :
  getNZ (e :: r) j = if Nat.eqb (fst e) j then Some (snd e) else getNZ r j.
Proof.
  unfold getNZ. simpl. destruct (Nat.eqb (fst e) j); reflexivity.
Qed.

Lemma nth_dense (n : nat) (f : nat -> nat -> Q) (i : nat) :
  (i < n)%nat -> nth i (dense n f) [] = map (fun j => (j, f i j)) (seq 0 n).
Proof.
  intros Hi. unfold dense.
  rewrite (nth_indep _ [] ((fun i => map (fun j => (j, f i j)) (seq 0 n)) 0%nat))
    by (rewrite length_map, length_seq; exact Hi).
  rewrite (map_nth (fun i => map (fun j => (j, f i j)) (seq 0 n))).
  rewrite seq_nth by exact Hi. reflexivity.
Qed.

Lemma getNZ_dense_row (g : nat -> Q) (a n j : nat) :
  getNZ (map (fun j => (j, g j)) (seq a n)) j
  = if (Nat.leb a j && Nat.ltb j (a + n))%bool then Some (g j) else None.
Proof.
  revert a. induction n as [|n IH]; intros a; cbn [seq map].
  - destruct (Nat.leb_spec a j), (Nat.ltb_spec j (a + 0)); cbn [andb]; try reflexivity; lia.
  - rewrite getNZ_cons, IH. cbn [fst snd].
    destruct (Nat.eqb_spec a j) as [->|Hne].
    + destruct (Nat.leb_spec j j), (Nat.ltb_spec j (j + Datatypes.S n)); cbn [andb];
        try reflexivity; lia.
    + destruct (Nat.leb_spec (Datatypes.S a) j), (Nat.ltb_spec j (Datatypes.S a + n)),
        (Nat.leb_spec a j), (Nat.ltb_spec j (a + Datatypes.S n)); cbn [andb];
        try reflexivity; lia.
Qed.

Lemma elem_dense (n : nat) (f : nat -> nat -> Q) (i j : nat) :
  (i < n)%nat -> (j < n)%nat -> elem (dense n f) i j = f i j.
Proof.
  intros Hi Hj. unfold elem. rewrite nth_dense by exact Hi.
  rewrite (getNZ_dense_row (f i) 0 n j).
  destruct (Nat.leb_spec 0 j), (Nat.ltb_spec j (0 + n)); cbn [andb]; try reflexivity; lia.
Qed.

Lemma well_formed_dense (n : nat) (f : nat -> nat -> Q) :
  size1 (dense n f) = n /\ well_formed (dense n f).
Proof.
  assert (Hs : size1 (dense n f) = n).
  { unfold size1, dense. rewrite length_map, length_seq. reflexivity. }
  split; [exact Hs|]. unfold well_formed. rewrite Hs. unfold dense.
  apply Forall_forall. intros r Hr. apply list_elem_of_In, in_map_iff in Hr as (i & <- & _).
  split.
  - rewrite map_map. cbn [fst]. rewrite map_id. apply NoDup_ListNoDup, seq_NoDup.
  - apply Forall_forall. intros e He.
    apply list_elem_of_In, in_map_iff in He as (j & <- & Hj). apply in_seq in Hj.
    cbn [fst]. lia.
Qed.

End DenseEntries.

(** X14.  The matrix the BFGS update of line 496 leaves is again a
    well-formed dense [n] by [n] matrix, and it is symmetric when the
    matrix updated was. *)
Theorem bfgs_update_symmetric (n : nat) (Bk : DMatrix) (sk yk : vec) :
  (forall i j, (i < n)%nat -> (j < n)%nat -> elem Bk i j == elem Bk j i) ->
  let Bk' := bfgs_update n Bk sk yk in
  size1 Bk' = n /\ well_formed Bk' /\
  forall i j, (i < n)%nat -> (j < n)%nat -> elem Bk' i j == elem Bk' j i.
Proof.
  intros Hsym Bk'. unfold Bk', bfgs_update. cbv zeta.
  match goal with |- context [dense n ?f] => set (F := f) end.
  destruct (well_formed_dense n F) as [Hs Hwf].
  split; [exact Hs|]. split; [exact Hwf|].
  intros i j Hi Hj. rewrite !elem_dense by assumption. unfold F.
  rewrite (Hsym i j Hi Hj). ring.
Qed.

Lemma bfgs_update_symmetric_witness :
  let Bk' := bfgs_update 2 (eye 2) [1; 2] [-1; 1] in
  size1 Bk' = 2%nat /\ elem Bk' 0 1 == elem Bk' 1 0.
Proof.
  intros Bk'.
  destruct (bfgs_update_symmetric 2 (eye 2) [1; 2] [-1; 1]) as (Hs & _ & Hsym).
  - intros [|[|i]] [|[|j]] Hi Hj; try lia; vm_compute; reflexivity.
  - split; [exact Hs|]. apply Hsym; lia.
Defined.

(** X15.  The QP handed to the solver in an iteration that follows
    another one (lines 292-304): the Hessian is the one evaluated or
    carried over, the linear term is the gradient of the objective at
    the current iterate, and the solver is started at the step of the
    previous iteration whenever that step has an entry; an empty step
    leaves the start of the previous solve in place. *)
Theorem qp_hot_start (S : SQP) (ls_fuel : nat) (st : State) (i : Iterate) (st' : State) :
  iteration S ls_fuel st = Ok i -> check_exit S i = inr st' ->
  let prev := solve_subproblem S st in
  let next := solve_subproblem S st' in
  QP_H (sub_qp next) = sub_Bk next /\
  QP_G (sub_qp next) = F_adjSens S (x_ st') /\
  QP_X_INIT (sub_qp next)
  = (if Nat.eqb (length (QP_PRIMAL (sub_sol prev))) 0
     then QP_X_INIT (sub_qp prev) else QP_PRIMAL (sub_sol prev)).
Proof.
  intros Hi Hc prev next.
  destruct (iteration_state _ _ _ _ Hi) as [_ Hcommit].
  destruct (commit_state _ _ _ _ _ Hcommit) as (_ & _ & _ & Ep & Eq & _).
  pose proof (check_exit_state S i) as Hx. rewrite Hc in Hx.
  destruct Hx as (_ & _ & Eq' & _).
  assert (Ep' : p st' = p (it_state i)).
  { revert Hc. unfold check_exit, call_callback.
    destruct (callback_says_stop S _); [discriminate|].
    destruct (converged S _ _); [discriminate|].
    destruct (Z.eqb _ _); [discriminate|]. intros H. injection H as <-.
    destruct (callback_isNull S); reflexivity. }
  unfold next, solve_subproblem, pass_qp_data. cbv zeta.
  destruct (Nat.ltb 0 (m_ S)); cbn [sub_qp sub_Bk QP_H QP_G QP_X_INIT];
    rewrite Ep', Ep, Eq', Eq; repeat split; reflexivity.
Qed.

Lemma qp_hot_start_witness :
  let S := Examples.quadratic_callback in
  exists i st',
    iteration S 1 (init_state S) = Ok i /\ check_exit S i = inr st' /\
    QP_X_INIT (sub_qp (solve_subproblem S st'))
    = QP_PRIMAL (sub_sol (solve_subproblem S (init_state S))).
Proof.
  intros S.
  destruct (iteration S 1 (init_state S)) as [| |i] eqn:Hi;
    [vm_compute in Hi; discriminate Hi|vm_compute in Hi; discriminate Hi|].
  destruct (check_exit S i) as [done|st'] eqn:Hc.
  - exfalso. vm_compute in Hi. injection Hi as <-. vm_compute in Hc. discriminate Hc.
  - destruct (qp_hot_start S 1 (init_state S) i st' Hi Hc) as (_ & _ & Hx).
    exists i, st'. split; [reflexivity|]. split; [exact Hc|].
    rewrite Hx. reflexivity.
Defined.

(** * Properties of the [Evaluation] node *)

Import Evaluation.

Section Control.

(** Nothing placed after [return] is executed. *)
Lemma then_return (tail : stmt) (s : MXState) : then_ return_ tail s = (Returned, s).
Proof. reflexivity. Qed.

End Control.

Section CopySeeds.

Variable h : gmap nat MX.

Lemma copy_fold_length (seeds : list ptr) (ks : list nat) (r : list MX) :
  length (fold_left
            (fun r iind =>
               match ptr_at seeds iind with
               | Some l => <[iind := mx_at h (Some l)]> r
               | None => r
               end) ks r)
  = length r.
Proof.
  revert r. induction ks as [|k ks IH]; intros r; simpl; [reflexivity|].
  rewrite IH. destruct (ptr_at seeds k); [apply length_insert|reflexivity].
Qed.

Lemma copy_row_length (n : nat) (seeds : list ptr) (r : list MX) :
  length (copy_row h n seeds r) = n.
Proof.
  unfold copy_row. rewrite copy_fold_length. apply length_resize.
Qed.

Lemma copy_fold_lookup (seeds : list ptr) (n : nat) (r : list MX) (j l : nat) :
  (j < n)%nat -> (j < length r)%nat -> ptr_at seeds j = Some l ->
  fold_left
    (fun r iind =>
       match ptr_at seeds iind with
       | Some l => <[iind := mx_at h (Some l)]> r
       | None => r
       end) (seq 0 n) r !! j
  = Some (mx_at h (Some l)).
Proof.
  intros Hj Hlen Hq. induction n as [|n IH]; [lia|].
  rewrite seq_S, fold_left_app. simpl.
  destruct (Nat.eq_dec j n) as [->|Hne].
  - rewrite Hq. apply list_lookup_insert_eq. rewrite copy_fold_length. exact Hlen.
  - destruct (ptr_at seeds n).
    + rewrite list_lookup_insert_ne by congruence. apply IH. lia.
    + apply IH. lia.
Qed.

(** Every non-null seed of the direction is copied into the row. *)
Lemma copy_row_lookup (n : nat) (seeds : list ptr) (r : list MX) (j l : nat) :
  (j < n)%nat -> ptr_at seeds j = Some l ->
  copy_row h n seeds r !! j = Some (mx_at h (Some l)).
Proof.
  intros Hj Hq. unfold copy_row. apply copy_fold_lookup; [exact Hj| |exact Hq].
  rewrite length_resize. exact Hj.
Qed.

Lemma alter_fold_length (F : nat -> list MX -> list MX) (ks : list nat)
    (fs : list (list MX)) :
  length (fold_left (fun fs d => alter (F d) d fs) ks fs) = length fs.
Proof.
  revert fs. induction ks as [|k ks IH]; intros fs; simpl; [reflexivity|].
  rewrite IH. apply length_alter.
Qed.

Lemma alter_fold_lookup_other (F : nat -> list MX -> list MX) (ks : list nat)
    (fs : list (list MX)) (d : nat) :
  ~ In d ks ->
  fold_left (fun fs d => alter (F d) d fs) ks fs !! d = fs !! d.
Proof.
  revert fs. induction ks as [|k ks IH]; intros fs Hd; simpl; [reflexivity|].
  rewrite IH by (intros H; apply Hd; right; exact H).
  apply list_lookup_alter_ne. intros ->. apply Hd. left. reflexivity.
Qed.

Lemma alter_fold_lookup (F : nat -> list MX -> list MX) (n : nat)
    (fs : list (list MX)) (d : nat) :
  (d < n)%nat ->
  fold_left (fun fs d => alter (F d) d fs) (seq 0 n) fs !! d = F d <$> fs !! d.
Proof.
  intros Hd. induction n as [|n IH]; [lia|].
  rewrite seq_S, fold_left_app. simpl.
  destruct (Nat.eq_dec d n) as [->|Hne].
  - rewrite list_lookup_alter_eq, alter_fold_lookup_other; [reflexivity|].
    intros Hin. apply in_seq in Hin. lia.
  - rewrite list_lookup_alter_ne by congruence. apply IH. lia.
Qed.

End CopySeeds.

(** C9.  [Evaluation::evaluateMX] copies the non-null forward seeds
    into the member [fwdSeed_] and returns: the symbolic store, and so
    every object the output and forward-sensitivity arguments point to,
    is as before the call, and the result is the same whatever
    statements follow the [return], so the propagation code is never
    executed. *)
Theorem evaluateMX_returns_after_copy (size1 size2 : nat) (input output : list ptr)
    (fwdSeed fwdSens adjSeed adjSens_ : list (list ptr)) (output_given : bool)
    (s : MXState) :
  let nfwd := length fwdSens in
  let r := evaluateMX size1 size2 input output fwdSeed fwdSens adjSeed adjSens_
                      output_given s in
  fst r = Returned /\
  mx_store (snd r) = mx_store s /\
  length (fwdSeed_ (snd r)) = nfwd /\
  (forall d, (d < nfwd)%nat ->
     exists row,
       fwdSeed_ (snd r) !! d = Some row /\ length row = length input /\
       forall iind l, (iind < length input)%nat ->
         ptr_at (ptrs_at fwdSeed d) iind = Some l ->
         row !! iind = Some (mx_at (mx_store s) (Some l))) /\
  (forall tail : stmt,
     then_ (copy_fwdSeed (length input) nfwd fwdSeed) (then_ return_ tail) s = r).
Proof.
  intros nfwd r.
  assert (Hr : r = (Returned, snd (copy_fwdSeed (length input) nfwd fwdSeed s)))
    by reflexivity.
  rewrite Hr. cbn [fst snd copy_fwdSeed mx_store fwdSeed_].
  split; [reflexivity|]. split; [reflexivity|]. split.
  { rewrite alter_fold_length. apply length_resize. }
  split.
  - intros d Hd. rewrite alter_fold_lookup by exact Hd.
    destruct (lookup_lt_is_Some_2 (resize nfwd [] (fwdSeed_ s)) d) as [row0 Hrow0].
    { rewrite length_resize. exact Hd. }
    rewrite Hrow0. eexists. split; [reflexivity|]. split.
    + apply copy_row_length.
    + intros iind l Hi Hq. apply copy_row_lookup; assumption.
  - intros tail. reflexivity.
Qed.

Lemma evaluateMX_returns_after_copy_witness :
  let s := {| mx_store := Examples.symbolic_store; fwdSeed_ := [] |} in
  let r := evaluateMX 1 1 [Some 10%nat; Some 11%nat] [Some 20%nat]
                      [[Some 30%nat; None]] [[Some 40%nat]] [] [] false s in
  fst r = Returned /\
  mx_store (snd r) = Examples.symbolic_store /\
  mx_store (snd r) !! 40%nat = Some (MX_sym 3) /\
  exists row,
    fwdSeed_ (snd r) !! 0%nat = Some row /\ length row = 2%nat /\
    row !! 0%nat = Some (MX_sym 2).
Proof.
  intros s r.
  destruct (evaluateMX_returns_after_copy 1 1 [Some 10%nat; Some 11%nat] [Some 20%nat]
              [[Some 30%nat; None]] [[Some 40%nat]] [] [] false s)
    as (Hret & Hstore & _ & Hrows & _).
  split; [exact Hret|]. split; [exact Hstore|].
  split; [fold r in Hstore; rewrite Hstore; reflexivity|].
  destruct (Hrows 0%nat) as (row & Hrow & Hlen & Hcopy); [simpl; lia|].
  exists row. split; [exact Hrow|]. split; [exact Hlen|].
  apply (Hcopy 0%nat 30%nat); [simpl; lia|reflexivity].
Defined.

Section Store.

Implicit Types (h : gmap nat vec) (q : ptr) (l : nat) (v : vec).

Lemma write_lookup_ne h q v l : q <> Some l -> write h q v !! l = h !! l.
Proof.
  intros Hq. destruct q as [l'|]; simpl; [|reflexivity].
  apply lookup_insert_ne. congruence.
Qed.



(** A loop none of whose passes changes the object at [l]. *)
Lemma fold_left_frame {K} (step : gmap nat vec -> K -> gmap nat vec) (ks : list K) l h :
  (forall k h', In k ks -> step h' k !! l = h' !! l) ->
  fold_left step ks h !! l = h !! l.
Proof.
  revert h. induction ks as [|k ks IH]; intros h Hstep; simpl; [reflexivity|].
  rewrite IH.
  - apply Hstep. left. reflexivity.
  - intros k' h' Hk'. apply Hstep. right. exact Hk'.
Qed.

(** A loop over [0 .. n-1] of which only the pass [k0] changes the
    object at [l]. *)
Lemma fold_left_seq_single (step : gmap nat vec -> nat -> gmap nat vec) (n k0 : nat) l h :
  (k0 < n)%nat ->
  (forall k h', (k < n)%nat -> k <> k0 -> step h' k !! l = h' !! l) ->
  fold_left step (seq 0 n) h !! l = step (fold_left step (seq 0 k0) h) k0 !! l.
Proof.
  intros Hk Hstep.
  replace n with (k0 + (1 + (n - k0 - 1)))%nat at 1 by lia.
  rewrite !seq_app, !fold_left_app. simpl.
  apply fold_left_frame. intros k h' Hin. apply in_seq in Hin. apply Hstep; lia.
Qed.

Lemma fold_left_seq_prefix_frame (step : gmap nat vec -> nat -> gmap nat vec)
    (k0 : nat) l h :
  (forall k h', (k < k0)%nat -> step h' k !! l = h' !! l) ->
  fold_left step (seq 0 k0) h !! l = h !! l.
Proof.
  intros Hstep. apply fold_left_frame.
  intros k h' Hin. apply in_seq in Hin. apply Hstep. lia.
Qed.


End Store.

Section Accumulate.



Lemma accumulate_length (asens buf : vec) : length (accumulate asens buf) = length buf.
Proof.
  unfold accumulate. generalize (seq 0 (length asens)). intros ks.
  revert buf. induction ks as [|k ks IH]; intros buf; simpl; [reflexivity|].
  rewrite IH. apply length_insert.
Qed.


Lemma accumulate_nonempty (asens buf : vec) : buf <> [] -> accumulate asens buf <> [].
Proof.
  intros Hb E. apply (f_equal length) in E. rewrite accumulate_length in E.
  destruct buf; [contradiction|discriminate].
Qed.

End Accumulate.

Section Loops.

Variable f : FX.
Variable nfwd : nat.
Variables output : list ptr.
Variables fwdSens adjSens_ : list (list ptr).

Implicit Types (h : gmap nat vec) (l : nat).

Lemma get_fwdSens_frame i h d l :
  ptr_at (ptrs_at fwdSens d) i <> Some l ->
  get_fwdSens f i fwdSens h d !! l = h !! l.
Proof. intros H. unfold get_fwdSens. apply write_lookup_ne, H. Qed.

Lemma get_output_frame h i l :
  ptr_at output i <> Some l ->
  (forall d, (d < nfwd)%nat -> ptr_at (ptrs_at fwdSens d) i <> Some l) ->
  get_output f nfwd output fwdSens h i !! l = h !! l.
Proof.
  intros Ho Hf. unfold get_output.
  destruct (present h (ptr_at output i)); [|reflexivity].
  rewrite fold_left_frame.
  - apply write_lookup_ne, Ho.
  - intros d h' Hin. apply in_seq in Hin. apply get_fwdSens_frame, Hf. lia.
Qed.



Lemma get_adjSens_frame i h d l :
  ptr_at (ptrs_at adjSens_ d) i <> Some l ->
  get_adjSens f i adjSens_ h d !! l = h !! l.
Proof.
  intros H. unfold get_adjSens. cbv zeta.
  destruct (present h _); [|reflexivity]. apply write_lookup_ne, H.
Qed.


End Loops.

Section Slots.

Variable this : Node.
Variables nfwd nadj : nat.
Variable output : list ptr.
Variables fwdSens adjSens_ : list (list ptr).

(** Every other slot in range points elsewhere. *)
Lemma unaliased_other (s s' : slot_id) (l : nat) :
  unaliased this nfwd nadj output fwdSens adjSens_ s ->
  slot_ptr output fwdSens adjSens_ s = Some l ->
  slot_in_range this nfwd nadj s' -> s' <> s ->
  slot_ptr output fwdSens adjSens_ s' <> Some l.
Proof.
  intros Hun Hs Hr Hne E. apply Hne, Hun; [exact Hr|]. rewrite E, Hs. reflexivity.
Qed.

(** The loop over the outputs leaves alone what no output or forward
    slot points to. *)
Lemma get_outputs_frame (f : FX) (h : gmap nat vec) (l : nat) :
  (forall i, (i < getNumOutputs this)%nat -> ptr_at output i <> Some l) ->
  (forall d i, (d < nfwd)%nat -> (i < getNumOutputs this)%nat ->
               ptr_at (ptrs_at fwdSens d) i <> Some l) ->
  get_outputs f (getNumOutputs this) nfwd output fwdSens h !! l = h !! l.
Proof.
  intros Ho Hf. unfold get_outputs. apply fold_left_frame.
  intros i h' Hin. apply in_seq in Hin.
  apply get_output_frame; [apply Ho; lia|]. intros d Hd. apply Hf; lia.
Qed.

(** The loop over the adjoint slots leaves alone what none of them
    points to. *)
Lemma get_adjSenss_frame (f : FX) (h : gmap nat vec) (l : nat) :
  (forall d i, (d < nadj)%nat -> (i < ndep this)%nat ->
               ptr_at (ptrs_at adjSens_ d) i <> Some l) ->
  get_adjSenss f (ndep this) nadj adjSens_ h !! l = h !! l.
Proof.
  intros Ha. unfold get_adjSenss. apply fold_left_frame.
  intros i h' Hin. apply in_seq in Hin. apply fold_left_frame.
  intros d h'' Hd. apply in_seq in Hd. apply get_adjSens_frame, Ha; lia.
Qed.


End Slots.





(** ** Further properties of the node and of its outputs *)

Section Grid.

(** The slot of index [i] in direction [d], if the buffer has one. *)
Local Abbreviation cell b i d := (b !! d ≫= (fun r : list vec => r !! i)).

Lemma cell_slot (b : list (list vec)) (i d : nat) : slot b i d = default [] (cell b i d).
Proof.
  unfold slot. destruct (b !! d); simpl; [reflexivity|]. destruct i; reflexivity.
Qed.

Lemma cell_set_slot (b : list (list vec)) (i d : nat) (v : vec) (i' d' : nat) :
  cell (set_slot b i d v) i' d'
  = if (Nat.eqb i i' && Nat.eqb d d')%bool
    then (fun _ => v) <$> cell b i' d'
    else cell b i' d'.
Proof.
  unfold set_slot. destruct (Nat.eqb_spec d d') as [->|Hd].
  - rewrite list_lookup_alter_eq.
    destruct (b !! d') as [r|]; simpl; [|rewrite andb_false_r || destruct (i =? i')%nat; reflexivity].
    destruct (Nat.eqb_spec i i') as [->|Hi]; simpl.
    + destruct (r !! i') eqn:E.
      * rewrite list_lookup_insert_eq; [reflexivity|eapply lookup_lt_Some; eauto].
      * rewrite list_insert_ge; [rewrite E; reflexivity|apply lookup_ge_None; auto].
    + rewrite list_lookup_insert_ne by auto. reflexivity.
  - rewrite list_lookup_alter_ne by auto. rewrite andb_false_r. reflexivity.
Qed.

Lemma row_fold_cell (upd : nat -> option vec) (i n : nat) (b : list (list vec))
    (i' d' : nat) :
  cell (fold_left (fun b d => match upd d with
                              | Some v => set_slot b i d v
                              | None => b
                              end) (seq 0 n) b) i' d'
  = if (Nat.eqb i i' && Nat.ltb d' n)%bool
    then match upd d' with
         | Some v => (fun _ => v) <$> cell b i' d'
         | None => cell b i' d'
         end
    else cell b i' d'.
Proof.
  induction n as [|n IH].
  - simpl. rewrite andb_false_r. reflexivity.
  - rewrite seq_S, fold_left_app. cbn [fold_left Nat.add].
    destruct (upd n) as [v|] eqn:Eu.
    + rewrite cell_set_slot, IH.
      destruct (Nat.eqb_spec i i') as [->|Hi]; cbn [andb].
      * destruct (Nat.eqb_spec n d') as [<-|Hn].
        -- destruct (Nat.ltb_spec n n); [lia|].
           destruct (Nat.ltb_spec n (Datatypes.S n)); [|lia]. rewrite Eu. reflexivity.
        -- destruct (Nat.ltb_spec d' n), (Nat.ltb_spec d' (Datatypes.S n));
             try reflexivity; lia.
      * reflexivity.
    + rewrite IH. destruct (Nat.eqb_spec i i') as [->|Hi]; cbn [andb]; [|reflexivity].
      destruct (Nat.ltb_spec d' n), (Nat.ltb_spec d' (Datatypes.S n));
        try reflexivity; try lia.
      assert (d' = n) as -> by lia. rewrite Eu. reflexivity.
Qed.

Lemma grid_fold_cell (upd : nat -> nat -> option vec) (ni nd : nat)
    (b : list (list vec)) (i' d' : nat) :
  cell (fold_left
          (fun b i => fold_left (fun b d => match upd i d with
                                            | Some v => set_slot b i d v
                                            | None => b
                                            end) (seq 0 nd) b)
          (seq 0 ni) b) i' d'
  = if (Nat.ltb i' ni && Nat.ltb d' nd)%bool
    then match upd i' d' with
         | Some v => (fun _ => v) <$> cell b i' d'
         | None => cell b i' d'
         end
    else cell b i' d'.
Proof.
  induction ni as [|ni IH].
  - reflexivity.
  - rewrite seq_S, fold_left_app. cbn [fold_left Nat.add].
    rewrite (row_fold_cell (upd ni)), IH.
    destruct (Nat.eqb_spec ni i') as [<-|Hn]; cbn [andb].
    + destruct (Nat.ltb_spec ni ni); [lia|].
      destruct (Nat.ltb_spec ni (Datatypes.S ni)); [|lia]. reflexivity.
    + destruct (Nat.ltb_spec i' ni), (Nat.ltb_spec i' (Datatypes.S ni));
        try reflexivity; lia.
Qed.

End Grid.

Section Passing.

Variable h : gmap nat vec.

Lemma setFwdSeed_fold (i : nat) (fwdSeed : list (list ptr)) (ds : list nat) (f : FX) :
  let f' := fold_left (fun f d => setFwdSeed (data h (ptr_at (ptrs_at fwdSeed d) i)) i d f)
                      ds f in
  fx_input f' = fx_input f /\ fx_adjSeed f' = fx_adjSeed f /\
  fx_fwdSeed f'
  = fold_left (fun b d => set_slot b i d (data h (ptr_at (ptrs_at fwdSeed d) i)))
              ds (fx_fwdSeed f).
Proof.
  revert f. induction ds as [|d ds IH]; intros f; cbn [fold_left]; [repeat split|].
  destruct (IH (setFwdSeed (data h (ptr_at (ptrs_at fwdSeed d) i)) i d f)) as (E1 & E2 & E3).
  cbv zeta. rewrite E1, E2, E3. repeat split.
Qed.

Lemma skip_fold {A B} (l : list A) (b : B) : fold_left (fun b _ => b) l b = b.
Proof. induction l; simpl; auto. Qed.

Lemma pass_inputs_fold (nfwd : nat) (input : list ptr) (fwdSeed : list (list ptr))
    (idx : list nat) (f : FX) :
  let f' :=
    fold_left
      (fun f i =>
         if present h (ptr_at input i)
         then fold_left
                (fun f d => setFwdSeed (data h (ptr_at (ptrs_at fwdSeed d) i)) i d f)
                (seq 0 nfwd)
                (setInput (data h (ptr_at input i)) i f)
         else f)
      idx f in
  fx_input f'
  = fold_left (fun v i => if present h (ptr_at input i)
                          then <[i := data h (ptr_at input i)]> v else v) idx (fx_input f) /\
  fx_adjSeed f' = fx_adjSeed f /\
  fx_fwdSeed f'
  = fold_left
      (fun b i =>
         fold_left (fun b d => match (if present h (ptr_at input i)
                                      then Some (data h (ptr_at (ptrs_at fwdSeed d) i))
                                      else None) with
                               | Some v => set_slot b i d v
                               | None => b
                               end) (seq 0 nfwd) b)
      idx (fx_fwdSeed f).
Proof.
  revert f. induction idx as [|i idx IH]; intros f; cbn [fold_left]; [repeat split|].
  cbv zeta. destruct (present h (ptr_at input i)).
  - match goal with |- context [fold_left _ idx ?g] => destruct (IH g) as (E1 & E2 & E3) end.
    cbv zeta in E1, E2, E3. rewrite E1, E2, E3.
    destruct (setFwdSeed_fold i fwdSeed (seq 0 nfwd) (setInput (data h (ptr_at input i)) i f))
      as (F1 & F2 & F3).
    cbv zeta in F1, F2, F3. rewrite F1, F2, F3. repeat split.
  - destruct (IH f) as (E1 & E2 & E3). cbv zeta in E1, E2, E3. rewrite E1, E2, E3.
    rewrite skip_fold. repeat split.
Qed.

Lemma setAdjSeed_fold (i : nat) (adjSeed : list (list ptr)) (ds : list nat) (f : FX) :
  let f' := fold_left
              (fun f d =>
                 if present h (ptr_at (ptrs_at adjSeed d) 0)
                 then setAdjSeed (data h (ptr_at (ptrs_at adjSeed d) 0)) i d f
                 else f)
              ds f in
  fx_input f' = fx_input f /\ fx_fwdSeed f' = fx_fwdSeed f /\
  fx_adjSeed f'
  = fold_left (fun b d => match (if present h (ptr_at (ptrs_at adjSeed d) 0)
                                 then Some (data h (ptr_at (ptrs_at adjSeed d) 0))
                                 else None) with
                          | Some v => set_slot b i d v
                          | None => b
                          end) ds (fx_adjSeed f).
Proof.
  revert f. induction ds as [|d ds IH]; intros f; cbn [fold_left]; [repeat split|].
  cbv zeta. destruct (present h (ptr_at (ptrs_at adjSeed d) 0)).
  - destruct (IH (setAdjSeed (data h (ptr_at (ptrs_at adjSeed d) 0)) i d f))
      as (E1 & E2 & E3).
    cbv zeta in E1, E2, E3. rewrite E1, E2, E3. repeat split.
  - apply IH.
Qed.

Lemma pass_adjSeed_fold (nadj : nat) (adjSeed : list (list ptr)) (idx : list nat) (f : FX) :
  let f' :=
    fold_left
      (fun f i =>
         fold_left
           (fun f d =>
              if present h (ptr_at (ptrs_at adjSeed d) 0)
              then setAdjSeed (data h (ptr_at (ptrs_at adjSeed d) 0)) i d f
              else f)
           (seq 0 nadj) f)
      idx f in
  fx_input f' = fx_input f /\ fx_fwdSeed f' = fx_fwdSeed f /\
  fx_adjSeed f'
  = fold_left
      (fun b i =>
         fold_left (fun b d => match (if present h (ptr_at (ptrs_at adjSeed d) 0)
                                      then Some (data h (ptr_at (ptrs_at adjSeed d) 0))
                                      else None) with
                               | Some v => set_slot b i d v
                               | None => b
                               end) (seq 0 nadj) b)
      idx (fx_adjSeed f).
Proof.
  revert f. induction idx as [|i idx IH]; intros f; cbn [fold_left]; [repeat split|].
  cbv zeta.
  match goal with |- context [fold_left _ idx ?g] => destruct (IH g) as (E1 & E2 & E3) end.
  cbv zeta in E1, E2, E3. rewrite E1, E2, E3.
  destruct (setAdjSeed_fold i adjSeed (seq 0 nadj) f) as (F1 & F2 & F3).
  cbv zeta in F1, F2, F3. rewrite F1, F2, F3. repeat split.
Qed.

Lemma insert_fold_lookup (input : list ptr) (n : nat) (v : list vec) (j : nat) :
  fold_left (fun v i => if present h (ptr_at input i)
                        then <[i := data h (ptr_at input i)]> v else v) (seq 0 n) v !! j
  = if (Nat.ltb j n && present h (ptr_at input j))%bool
    then (fun _ => data h (ptr_at input j)) <$> v !! j
    else v !! j.
Proof.
  induction n as [|n IH].
  - reflexivity.
  - rewrite seq_S, fold_left_app. cbn [fold_left Nat.add].
    set (w := fold_left _ (seq 0 n) v) in *.
    destruct (Nat.eqb_spec n j) as [<-|Hn].
    + destruct (Nat.ltb_spec n n); [lia|]. cbn [andb] in IH.
      destruct (Nat.ltb_spec n (Datatypes.S n)); [|lia]. cbn [andb].
      destruct (present h (ptr_at input n)); [|exact IH].
      rewrite <- IH. destruct (w !! n) eqn:E.
      * rewrite list_lookup_insert_eq; [reflexivity|eapply lookup_lt_Some; eauto].
      * rewrite list_insert_ge; [rewrite E; reflexivity|apply lookup_ge_None; auto].
    + assert (Hw : (if present h (ptr_at input n)
                    then <[n := data h (ptr_at input n)]> w else w) !! j = w !! j).
      { destruct (present h (ptr_at input n)); [|reflexivity].
        apply list_lookup_insert_ne. exact Hn. }
      rewrite Hw, IH.
      destruct (Nat.ltb_spec j n), (Nat.ltb_spec j (Datatypes.S n)); try reflexivity; lia.
Qed.

End Passing.

(** X16.  What [fcn_] is evaluated on (lines 68-76 and 88).  Input
    [i] of the function is the caller's [*input[i]] when that pointer
    is non-null and its object non-empty; otherwise the input buffer of
    the function keeps what it held before the call.  The forward seed
    of input [i] is passed under the same test on [input[i]], not on
    the seed. *)
Theorem evaluate_passes_inputs (this : Node) (h : gmap nat vec)
    (input output : list ptr) (fwdSeed fwdSens adjSeed adjSens_ : list (list ptr)) :
  let nfwd := length fwdSens in
  let nadj := length adjSeed in
  let f2 := pass_adjSeed h (getNumOutputs this) nadj adjSeed
              (pass_inputs h (ndep this) nfwd input fwdSeed (fcn_ this)) in
  fcn_ (fst (evaluate this h input output fwdSeed fwdSens adjSeed adjSens_))
  = fcn_evaluate this nfwd nadj f2 /\
  (forall i old, (i < ndep this)%nat -> fx_input (fcn_ this) !! i = Some old ->
     fx_input f2 !! i
     = Some (if present h (ptr_at input i) then data h (ptr_at input i) else old)) /\
  (forall i d row old,
     (i < ndep this)%nat -> (d < nfwd)%nat ->
     fx_fwdSeed (fcn_ this) !! d = Some row -> row !! i = Some old ->
     slot (fx_fwdSeed f2) i d
     = if present h (ptr_at input i)
       then data h (ptr_at (ptrs_at fwdSeed d) i) else old).
Proof.
  intros nfwd nadj f2. split; [reflexivity|].
  unfold f2, pass_adjSeed, pass_inputs.
  match goal with |- context [fold_left _ (seq 0 (getNumOutputs this)) ?g] =>
    destruct (pass_adjSeed_fold h nadj adjSeed (seq 0 (getNumOutputs this)) g)
      as (A1 & A2 & _) end.
  cbv zeta in A1, A2. 
  destruct (pass_inputs_fold h nfwd input fwdSeed (seq 0 (ndep this)) (fcn_ this))
    as (P1 & _ & P3).
  cbv zeta in P1, P3.
  split.
  - intros i old Hi Hold. rewrite A1, P1, insert_fold_lookup, Hold.
    destruct (Nat.ltb_spec i (ndep this)); [|lia]. cbn [andb].
    destruct (present h (ptr_at input i)); reflexivity.
  - intros i d row old Hi Hd Hrow Hold. rewrite A2, P3, cell_slot, grid_fold_cell.
    destruct (Nat.ltb_spec i (ndep this)); [|lia].
    destruct (Nat.ltb_spec d nfwd); [|lia]. cbn [andb].
    rewrite Hrow. cbn. rewrite Hold.
    destruct (present h (ptr_at input i)); reflexivity.
Qed.

Lemma evaluate_passes_inputs_witness :
  let f2 := pass_adjSeed Examples.triple_store 1 1 [[Some 3%nat]]
              (pass_inputs Examples.triple_store 1 0 [None] []
                           (fcn_ Examples.triple_node)) in
  fx_input f2 !! 0%nat = Some [0].
Proof.
  intros f2.
  destruct (evaluate_passes_inputs Examples.triple_node Examples.triple_store
              [None] [Some 2%nat] [] [] [[Some 3%nat]] [[Some 4%nat]]) as (_ & Hin & _).
  apply (Hin 0%nat [0]); [simpl; lia|reflexivity].
Defined.

(** X17.  The adjoint seeds the function is evaluated with (lines
    78-85): in direction [d] every output [i] receives the seed
    [*adjSeed[d][0]], the one of output [0], when that pointer is
    non-null and its object non-empty, and keeps its previous seed
    otherwise; [adjSeed[d][i]] is not read for [i > 0]. *)
Theorem evaluate_passes_first_adjSeed (this : Node) (h : gmap nat vec)
    (input output : list ptr) (fwdSeed fwdSens adjSeed adjSens_ : list (list ptr))
    (i d : nat) (row : list vec) (old : vec) :
  let nfwd := length fwdSens in
  let nadj := length adjSeed in
  let f2 := pass_adjSeed h (getNumOutputs this) nadj adjSeed
              (pass_inputs h (ndep this) nfwd input fwdSeed (fcn_ this)) in
  (i < getNumOutputs this)%nat -> (d < nadj)%nat ->
  fx_adjSeed (fcn_ this) !! d = Some row -> row !! i = Some old ->
  fcn_ (fst (evaluate this h input output fwdSeed fwdSens adjSeed adjSens_))
  = fcn_evaluate this nfwd nadj f2 /\
  slot (fx_adjSeed f2) i d
  = if present h (ptr_at (ptrs_at adjSeed d) 0)
    then data h (ptr_at (ptrs_at adjSeed d) 0) else old.
Proof.
  intros nfwd nadj f2 Hi Hd Hrow Hold. split; [reflexivity|].
  unfold f2, pass_adjSeed, pass_inputs.
  match goal with |- context [fold_left _ (seq 0 (getNumOutputs this)) ?g] =>
    destruct (pass_adjSeed_fold h nadj adjSeed (seq 0 (getNumOutputs this)) g)
      as (_ & _ & A3) end.
  cbv zeta in A3.
  destruct (pass_inputs_fold h nfwd input fwdSeed (seq 0 (ndep this)) (fcn_ this))
    as (_ & P2 & _).
  cbv zeta in P2.
  rewrite A3, P2, cell_slot, grid_fold_cell.
  destruct (Nat.ltb_spec i (getNumOutputs this)); [|lia].
  destruct (Nat.ltb_spec d nadj); [|lia]. cbn [andb].
  rewrite Hrow. cbn. rewrite Hold.
  destruct (present h (ptr_at (ptrs_at adjSeed d) 0)); reflexivity.
Qed.

Lemma evaluate_passes_first_adjSeed_witness :
  let this := {| fcn_ := {| fx_input := [[0]]; fx_fwdSeed := []; fx_adjSeed := [[[0]; [0]]];
                            fx_output := [[0]; [0]]; fx_fwdSens := [];
                            fx_adjSens := [[[0]]] |};
                 fcn_evaluate := fun _ _ f => f; ndep := 1; getNumOutputs := 2 |} in
  let h : gmap nat vec := <[1%nat := [5]]> (<[2%nat := [7]]> ∅) in
  let f2 := pass_adjSeed h 2 1 [[Some 1%nat; Some 2%nat]]
              (pass_inputs h 1 0 [None] [] (fcn_ this)) in
  slot (fx_adjSeed f2) 1 0 = [5].
Proof.
  intros this h f2.
  destruct (evaluate_passes_first_adjSeed this h [None] [None; None] [] []
              [[Some 1%nat; Some 2%nat]] [[None]] 1 0 [[0]; [0]] [0]) as [_ Hs];
    [simpl; lia|simpl; lia|reflexivity|reflexivity|].
  exact Hs.
Defined.

(** X18.  [Evaluation::evaluate] writes to the caller's memory only
    through its output, forward-sensitivity and adjoint-sensitivity
    pointers: an object that none of these addresses is left as it
    was, the inputs and the seeds among them. *)
Theorem evaluate_frame (this : Node) (h : gmap nat vec)
    (input output : list ptr) (fwdSeed fwdSens adjSeed adjSens_ : list (list ptr))
    (l : nat) :
  let nfwd := length fwdSens in
  let nadj := length adjSeed in
  (forall s, slot_in_range this nfwd nadj s ->
             slot_ptr output fwdSens adjSens_ s <> Some l) ->
  snd (evaluate this h input output fwdSeed fwdSens adjSeed adjSens_) !! l = h !! l.
Proof.
  intros nfwd nadj Hfree. unfold evaluate. cbv zeta. cbn [snd].
  rewrite (get_adjSenss_frame this).
  2:{ intros d i Hd Hi. apply (Hfree (AdjSensSlot d i)). split; assumption. }
  apply (get_outputs_frame this).
  - intros i Hi. apply (Hfree (OutputSlot i)). exact Hi.
  - intros d i Hd Hi. apply (Hfree (FwdSensSlot d i)). split; assumption.
Qed.

Lemma evaluate_frame_witness :
  snd (evaluate Examples.triple_node Examples.triple_store
                [Some 1%nat] [Some 2%nat] [] [] [[Some 3%nat]] [[Some 4%nat]]) !! 3%nat
  = Some [1].
Proof.
  rewrite (evaluate_frame Examples.triple_node Examples.triple_store
             [Some 1%nat] [Some 2%nat] [] [] [[Some 3%nat]] [[Some 4%nat]] 3%nat).
  - reflexivity.
  - intros [i|d i|d i]; simpl.
    + intros Hi. destruct i as [|i]; [discriminate|lia].
    + lia.
    + intros [Hd Hi]. destruct d as [|d]; [|lia]. destruct i as [|i]; [discriminate|lia].
Defined.

(** X19.  The forward sensitivities of an output are fetched inside
    the test on the output pointer (lines 92-97): when [output[i]] is
    null, or addresses an empty object, the buffer [fwdSens[d][i]] the
    caller supplied is left as it was.  The slots named are assumed to
    share their object with no other slot written by the call. *)
Theorem absent_output_skips_fwdSens (this : Node) (h : gmap nat vec)
    (input output : list ptr) (fwdSeed fwdSens adjSeed adjSens_ : list (list ptr))
    (i d l : nat) :
  let nfwd := length fwdSens in
  let nadj := length adjSeed in
  (i < getNumOutputs this)%nat -> (d < nfwd)%nat ->
  ptr_at (ptrs_at fwdSens d) i = Some l ->
  unaliased this nfwd nadj output fwdSens adjSens_ (FwdSensSlot d i) ->
  ptr_at output i = None \/
  (data h (ptr_at output i) = [] /\
   unaliased this nfwd nadj output fwdSens adjSens_ (OutputSlot i)) ->
  snd (evaluate this h input output fwdSeed fwdSens adjSeed adjSens_) !! l = h !! l.
Proof.
  intros nfwd nadj Hi Hd Hs Hun Habs.
  pose proof (fun s' => unaliased_other this nfwd nadj output fwdSens adjSens_
                          (FwdSensSlot d i) s' l Hun Hs) as Hother.
  unfold evaluate. cbv zeta. cbn [snd].
  rewrite (get_adjSenss_frame this).
  2:{ intros d' i' Hd' Hi'. apply (Hother (AdjSensSlot d' i')); [split; assumption|].
      discriminate. }
  unfold get_outputs. rewrite (fold_left_seq_single _ _ i); [|exact Hi|].
  2:{ intros i' h0 Hi' Hne. apply get_output_frame.
      - apply (Hother (OutputSlot i')); [exact Hi'|discriminate].
      - intros d' Hd'. apply (Hother (FwdSensSlot d' i')); [split; assumption|congruence]. }
  assert (Hpre : forall l', 
            (forall i', (i' < i)%nat -> ptr_at output i' <> Some l') ->
            (forall d' i', (d' < nfwd)%nat -> (i' < i)%nat ->
                           ptr_at (ptrs_at fwdSens d') i' <> Some l') ->
            fold_left (get_output (fcn_evaluate this nfwd nadj
                         (pass_adjSeed h (getNumOutputs this) nadj adjSeed
                            (pass_inputs h (ndep this) nfwd input fwdSeed (fcn_ this))))
                         nfwd output fwdSens) (seq 0 i) h !! l' = h !! l').
  { intros l' Ho Hf. apply fold_left_seq_prefix_frame. intros i' h0 Hi'.
    apply get_output_frame; [apply Ho, Hi'|]. intros d' Hd'. apply Hf; assumption. }
  assert (Hl : fold_left (get_output (fcn_evaluate this nfwd nadj
                         (pass_adjSeed h (getNumOutputs this) nadj adjSeed
                            (pass_inputs h (ndep this) nfwd input fwdSeed (fcn_ this))))
                         nfwd output fwdSens) (seq 0 i) h !! l = h !! l).
  { apply Hpre.
    - intros i' Hi'. apply (Hother (OutputSlot i')); [simpl; lia|discriminate].
    - intros d' i' Hd' Hi'. apply (Hother (FwdSensSlot d' i')); [simpl; lia|].
      intros E. injection E as E1 E2. lia. }
  unfold get_output at 1.
  match goal with |- context [present ?h0 (ptr_at output i)] =>
    assert (Hp : present h0 (ptr_at output i) = false) end.
  { destruct Habs as [Hnull|[Hempty Huno]].
    - rewrite Hnull. reflexivity.
    - destruct (ptr_at output i) as [lo|] eqn:Eo; [|reflexivity].
      pose proof (fun s' => unaliased_other this nfwd nadj output fwdSens adjSens_
                              (OutputSlot i) s' lo Huno Eo) as Hoo.
      unfold present, data. rewrite Hpre.
      + unfold data in Hempty. rewrite Hempty. reflexivity.
      + intros i' Hi'. apply (Hoo (OutputSlot i')); [simpl; lia|].
        intros E. injection E as E. lia.
      + intros d' i' Hd' Hi'. apply (Hoo (FwdSensSlot d' i')); [simpl; lia|discriminate]. }
  rewrite Hp. exact Hl.
Qed.

Lemma absent_output_skips_fwdSens_witness :
  snd (evaluate Examples.triple_node Examples.triple_store
                [Some 1%nat] [None] [[Some 3%nat]] [[Some 4%nat]] [] []) !! 4%nat
  = Some [10].
Proof.
  rewrite (absent_output_skips_fwdSens Examples.triple_node Examples.triple_store
             [Some 1%nat] [None] [[Some 3%nat]] [[Some 4%nat]] [] [] 0 0 4).
  - reflexivity.
  - simpl. lia.
  - simpl. lia.
  - reflexivity.
  - intros [i|d i|d i]; simpl.
    + intros Hi. destruct i as [|i]; [discriminate|lia].
    + intros [Hd Hi] _. f_equal; lia.
    + lia.
  - left. reflexivity.
Defined.

Section Constructor.

Variable input_shape : nat -> nat * nat.
Variable shape : MX -> nat * nat.
Variable dep : list MX.

Lemma check_shape_None (i : nat) :
  check_shape shape input_shape dep i = None <->
  (isNull (nth i dep MX_null) = false -> shape (nth i dep MX_null) = input_shape i).
Proof.
  unfold check_shape. cbv zeta.
  destruct (isNull (nth i dep MX_null)); [split; [discriminate|reflexivity]|].
  destruct (shape (nth i dep MX_null)) as [r c], (input_shape i) as [r' c']. cbn [fst snd].
  destruct (Nat.eqb_spec r r'), (Nat.eqb_spec c c'); cbn [negb orb]; split;
    intros H; try reflexivity; try discriminate; try congruence;
    specialize (H eq_refl); congruence.
Qed.

Lemma check_shape_Some (i : nat) (e : CasadiException) :
  check_shape shape input_shape dep i = Some e <->
  isNull (nth i dep MX_null) = false /\
  shape (nth i dep MX_null) <> input_shape i /\
  e = WrongShape i (input_shape i) (shape (nth i dep MX_null)).
Proof.
  unfold check_shape. cbv zeta.
  destruct (isNull (nth i dep MX_null)); [split; [discriminate|intros [H _]; discriminate]|].
  destruct (shape (nth i dep MX_null)) as [r c], (input_shape i) as [r' c']. cbn [fst snd].
  destruct (Nat.eqb_spec r r'), (Nat.eqb_spec c c'); cbn [negb orb]; split.
  all: try (intros H; discriminate H).
  all: try (intros H; injection H as <-; split; [reflexivity|];
            split; [congruence|reflexivity]).
  all: intros (_ & Hne & ->); first [reflexivity | exfalso; apply Hne; congruence].
Qed.

(** The loop with its [throw]: the first index whose check fails. *)
Lemma first_throw (n : nat) :
  match fold_left (fun thrown i =>
                     match thrown with
                     | Some e => Some e
                     | None => check_shape shape input_shape dep i
                     end) (seq 0 n) None with
  | None => forall i, (i < n)%nat -> check_shape shape input_shape dep i = None
  | Some e =>
      exists i, (i < n)%nat /\ check_shape shape input_shape dep i = Some e /\
                forall k, (k < i)%nat -> check_shape shape input_shape dep k = None
  end.
Proof.
  induction n as [|n IH].
  - simpl. intros i Hi. lia.
  - rewrite seq_S, fold_left_app. cbn [fold_left Nat.add].
    destruct (fold_left _ (seq 0 n) None) as [e|].
    + destruct IH as (i & Hi & He & Hk). exists i. split; [lia|]. split; assumption.
    + destruct (check_shape shape input_shape dep n) as [e|] eqn:E.
      * exists n. split; [lia|]. split; [exact E|]. exact IH.
      * intros i Hi. destruct (Nat.eq_dec i n) as [->|Hne]; [exact E|]. apply IH. lia.
Qed.

End Constructor.

(** X20.  The constructor [Evaluation::Evaluation] (lines 34-54).  It
    yields the node, holding the dependencies given, exactly when
    their number is the number of inputs of the function and every
    non-null dependency has the shape of its input; null dependencies
    are not checked.  Otherwise it throws: for a wrong number, whatever
    the shapes, and else for the first dependency of a wrong shape,
    with the index and the two shapes in the message. *)
Theorem Evaluation_ctor_spec (getNumInputs : nat) (input_shape : nat -> nat * nat)
    (shape : MX -> nat * nat) (dep : list MX) :
  let fits := fun i => isNull (nth i dep MX_null) = false ->
                       shape (nth i dep MX_null) = input_shape i in
  let r := Evaluation_ctor getNumInputs input_shape shape dep in
  (forall node,
     r = inr node <->
     length dep = getNumInputs /\ (forall i, (i < getNumInputs)%nat -> fits i) /\
     node = {| dependencies := dep; sparsity := (1, 1)%nat |}) /\
  (forall passed expected,
     r = inl (WrongNumberOfDependencies passed expected) <->
     length dep <> getNumInputs /\ passed = length dep /\ expected = getNumInputs) /\
  (forall i expected supplied,
     r = inl (WrongShape i expected supplied) <->
     length dep = getNumInputs /\ (i < getNumInputs)%nat /\ ~ fits i /\
     (forall k, (k < i)%nat -> fits k) /\
     expected = input_shape i /\ supplied = shape (nth i dep MX_null)).
Proof.
  intros fits r. unfold r, Evaluation_ctor.
  pose proof (first_throw input_shape shape dep getNumInputs) as Hloop.
  destruct (Nat.eqb_spec (length dep) getNumInputs) as [Hlen|Hlen]; cbn [negb].
  2:{ split; [|split].
      - intros node. split; [discriminate|]. intros [H _]. contradiction.
      - intros passed expected. split.
        + intros H. injection H as <- <-. auto.
        + intros (_ & -> & ->). reflexivity.
      - intros i e s. split; [discriminate|]. intros [H _]. contradiction. }
  destruct (fold_left _ (seq 0 getNumInputs) None) as [e|].
  - destruct Hloop as (i0 & Hi0 & He & Hk).
    apply check_shape_Some in He as (Hnn & Hsh & ->).
    assert (Hbad : ~ fits i0) by (unfold fits; intros H; apply Hsh, H, Hnn).
    split; [|split].
    + intros node. split; [discriminate|]. intros (_ & H & _). exfalso. apply Hbad, H, Hi0.
    + intros passed expected. split; [discriminate|]. intros [H _]. contradiction.
    + intros i e s. split.
      * intros H. injection H as <- <- <-. split; [exact Hlen|]. split; [exact Hi0|].
        split; [exact Hbad|]. split; [|split; reflexivity].
        intros k Hk'. exact (proj1 (check_shape_None input_shape shape dep k) (Hk k Hk')).
      * intros (_ & Hi & Hbad' & Hfits & -> & ->).
        assert (i = i0) as ->.
        { destruct (Nat.lt_trichotomy i i0) as [Hlt|[E|Hgt]]; [|exact E|].
          - exfalso. apply Hbad'. exact (proj1 (check_shape_None input_shape shape dep i) (Hk i Hlt)).
          - exfalso. apply Hbad, Hfits, Hgt. }
        reflexivity.
  - split; [|split].
    + intros node. split.
      * intros H. injection H as <-. split; [exact Hlen|]. split; [|reflexivity].
        intros i Hi. exact (proj1 (check_shape_None input_shape shape dep i) (Hloop i Hi)).
      * intros (_ & _ & ->). reflexivity.
    + intros passed expected. split; [discriminate|]. intros [H _]. contradiction.
    + intros i e s. split; [discriminate|]. intros (_ & Hi & Hbad & _).
      exfalso. apply Hbad. exact (proj1 (check_shape_None input_shape shape dep i) (Hloop i Hi)).
Qed.

Lemma Evaluation_ctor_spec_witness :
  let shape := fun e => match e with MX_sym 0 => (2, 1)%nat | _ => (3, 3)%nat end in
  Evaluation_ctor 3 (fun _ => (2, 1)%nat) shape [MX_sym 0; MX_null; MX_sym 1]
  = inl (WrongShape 2 (2, 1)%nat (3, 3)%nat).
Proof.
  intros shape.
  apply (Evaluation_ctor_spec 3 (fun _ => (2, 1)%nat) shape [MX_sym 0; MX_null; MX_sym 1]).
  split; [reflexivity|]. split; [lia|]. split.
  - intros H. specialize (H eq_refl). discriminate H.
  - split; [|split; reflexivity].
    intros [|[|k]] Hk; try lia; simpl; [reflexivity|discriminate].
Defined.

Section OutputSensitivities.

Implicit Types (h : gmap nat MX) (l : nat).

Lemma mx_write_lookup_ne h (q : ptr) (e : MX) l :
  q <> Some l -> mx_write h q e !! l = h !! l.
Proof.
  intros Hq. destruct q as [l'|]; simpl; [|reflexivity].
  apply lookup_insert_ne. congruence.
Qed.

Lemma mx_fold_frame {K} (step : gmap nat MX -> K -> gmap nat MX) (ks : list K) l h :
  (forall k h', In k ks -> step h' k !! l = h' !! l) ->
  fold_left step ks h !! l = h !! l.
Proof.
  revert h. induction ks as [|k ks IH]; intros h Hstep; simpl; [reflexivity|].
  rewrite IH.
  - apply Hstep. left. reflexivity.
  - intros k' h' Hk'. apply Hstep. right. exact Hk'.
Qed.

(** The inner loop over the inputs, for a sensitivity stored at [l]. *)
Lemma add_terms_lookup (P : nat -> ptr) (T : nat -> MX) (ks : list nat) l h (a : MX) :
  h !! l = Some a ->
  fold_left (fun h iind =>
               match P iind with
               | None => h
               | Some _ => mx_write h (Some l) (MX_plus (mx_at h (Some l)) (T iind))
               end) ks h !! l
  = Some (fold_left (fun acc iind =>
                       match P iind with
                       | None => acc
                       | Some _ => MX_plus acc (T iind)
                       end) ks a).
Proof.
  revert h a. induction ks as [|k ks IH]; intros h a Hl; cbn [fold_left]; [exact Hl|].
  destruct (P k).
  - apply IH. cbn [mx_write mx_at]. rewrite Hl. apply lookup_insert_eq.
  - apply IH, Hl.
Qed.

Lemma add_terms_frame (P : nat -> ptr) (T : gmap nat MX -> nat -> MX) (q : ptr)
    (ks : list nat) l h :
  q <> Some l ->
  fold_left (fun h iind =>
               match P iind with
               | None => h
               | Some _ => mx_write h q (T h iind)
               end) ks h !! l = h !! l.
Proof.
  intros Hq. apply mx_fold_frame. intros k h' _.
  destruct (P k); [|reflexivity]. apply mx_write_lookup_ne, Hq.
Qed.

Lemma fold_left_ext_in {A B} (f g : A -> B -> A) (l : list B) (a : A) :
  (forall a x, In x l -> f a x = g a x) -> fold_left f l a = fold_left g l a.
Proof.
  revert a. induction l as [|x l IH]; intros a H; simpl; [reflexivity|].
  rewrite H by (left; reflexivity). apply IH. intros a' y Hy. apply H. right. exact Hy.
Qed.

Variable this : MX.
Variables size1 size2 : nat.
Variables input output : list ptr.
Variables fwdSeed fwdSens adjSeed adjSens_ : list (list ptr).
Variable output_given : bool.

Lemma output_evaluateMX_store (s : MXState) :
  mx_store (snd (EvaluationOutput_evaluateMX this size1 size2 input output
                   fwdSeed fwdSens adjSeed adjSens_ output_given s))
  = fold_left
      (fun h d =>
         match ptr_at (ptrs_at fwdSens d) 0 with
         | None => h
         | Some l =>
             fold_left
               (fun h iind =>
                  match ptr_at (ptrs_at fwdSeed d) iind with
                  | None => h
                  | Some _ =>
                      mx_write h (Some l)
                        (MX_plus (mx_at h (Some l))
                                 (MX_prod (jac this iind) (seed_at (fwdSeed_ s) d iind)))
                  end)
               (seq 0 (length input))
               (mx_write h (Some l) (MX_zeros size1 size2))
         end)
      (seq 0 (length fwdSens)) (mx_store s).
Proof.
  unfold EvaluationOutput_evaluateMX. cbn [snd mx_store].
  apply fold_left_ext_in. intros h d _.
  destruct (ptr_at (ptrs_at fwdSens d) 0); reflexivity.
Qed.

Lemma output_evaluateMX_frame (s : MXState) l :
  (forall d, (d < length fwdSens)%nat -> ptr_at (ptrs_at fwdSens d) 0 <> Some l) ->
  mx_store (snd (EvaluationOutput_evaluateMX this size1 size2 input output
                   fwdSeed fwdSens adjSeed adjSens_ output_given s)) !! l
  = mx_store s !! l.
Proof.
  intros Hfree. rewrite output_evaluateMX_store. apply mx_fold_frame.
  intros d h' Hd. apply in_seq in Hd. specialize (Hfree d ltac:(lia)).
  destruct (ptr_at (ptrs_at fwdSens d) 0) as [l'|]; [|reflexivity].
  rewrite (add_terms_frame (fun iind => ptr_at (ptrs_at fwdSeed d) iind)
             (fun h iind => MX_plus (mx_at h (Some l'))
                              (MX_prod (jac this iind) (seed_at (fwdSeed_ s) d iind)))
             (Some l')) by exact Hfree.
  apply mx_write_lookup_ne, Hfree.
Qed.

Lemma output_evaluateMX_hit (s : MXState) (d l : nat) :
  (d < length fwdSens)%nat ->
  ptr_at (ptrs_at fwdSens d) 0 = Some l ->
  (forall d', (d < d' < length fwdSens)%nat -> ptr_at (ptrs_at fwdSens d') 0 <> Some l) ->
  mx_store (snd (EvaluationOutput_evaluateMX this size1 size2 input output
                   fwdSeed fwdSens adjSeed adjSens_ output_given s)) !! l
  = Some (fold_left
            (fun acc iind =>
               match ptr_at (ptrs_at fwdSeed d) iind with
               | None => acc
               | Some _ => MX_plus acc (MX_prod (jac this iind)
                                                (seed_at (fwdSeed_ s) d iind))
               end)
            (seq 0 (length input)) (MX_zeros size1 size2)).
Proof.
  intros Hd Hq Hlater. rewrite output_evaluateMX_store.
  replace (length fwdSens) with (d + (1 + (length fwdSens - d - 1)))%nat at 1 by lia.
  rewrite !seq_app, !fold_left_app. cbn [seq fold_left Nat.add].
  rewrite mx_fold_frame.
  2:{ intros d' h' Hd'. apply in_seq in Hd'. specialize (Hlater d' ltac:(lia)).
      destruct (ptr_at (ptrs_at fwdSens d') 0) as [l'|]; [|reflexivity].
      rewrite (add_terms_frame (fun iind => ptr_at (ptrs_at fwdSeed d') iind)
                 (fun h iind => MX_plus (mx_at h (Some l'))
                                  (MX_prod (jac this iind) (seed_at (fwdSeed_ s) d' iind)))
                 (Some l')) by exact Hlater.
      apply mx_write_lookup_ne, Hlater. }
  rewrite ?Nat.add_0_r, Hq.
  apply (add_terms_lookup (fun iind => ptr_at (ptrs_at fwdSeed d) iind)
           (fun iind => MX_prod (jac this iind) (seed_at (fwdSeed_ s) d iind))).
  cbn [mx_write]. apply lookup_insert_eq.
Qed.

End OutputSensitivities.

(** X21.  [EvaluationOutput::evaluateMX] (lines 188-204) assigns, in
    every direction [d], only the sensitivity [*fwdSens[d][0]]: it
    becomes [zeros(size1, size2)] plus, for every input [iind] whose
    seed pointer [fwdSeed[d][iind]] is non-null, in this order, the
    product of the Jacobian reference [jac(iind)] with the seed the
    parent holds in [fwdSeed_[d][iind]]; the pointer is tested, the
    object it addresses is not read.  Every other object of the store
    and the member [fwdSeed_] are left as they were. *)
Theorem output_evaluateMX_sensitivities (this : MX) (size1 size2 : nat)
    (input output : list ptr) (fwdSeed fwdSens adjSeed adjSens_ : list (list ptr))
    (output_given : bool) (s : MXState) :
  let r := EvaluationOutput_evaluateMX this size1 size2 input output
             fwdSeed fwdSens adjSeed adjSens_ output_given s in
  fst r = Next /\ fwdSeed_ (snd r) = fwdSeed_ s /\
  (forall l,
     (forall d, (d < length fwdSens)%nat -> ptr_at (ptrs_at fwdSens d) 0 <> Some l) ->
     mx_store (snd r) !! l = mx_store s !! l) /\
  (forall d l,
     (d < length fwdSens)%nat -> ptr_at (ptrs_at fwdSens d) 0 = Some l ->
     (forall d', (d < d' < length fwdSens)%nat ->
                 ptr_at (ptrs_at fwdSens d') 0 <> Some l) ->
     mx_store (snd r) !! l
     = Some (fold_left
               (fun acc iind =>
                  match ptr_at (ptrs_at fwdSeed d) iind with
                  | None => acc
                  | Some _ => MX_plus acc (MX_prod (MX_jac this iind)
                                                   (seed_at (fwdSeed_ s) d iind))
                  end)
               (seq 0 (length input)) (MX_zeros size1 size2))).
Proof.
  intros r. split; [reflexivity|]. split; [reflexivity|]. split.
  - intros l Hfree. apply output_evaluateMX_frame, Hfree.
  - intros d l Hd Hq Hlater. apply output_evaluateMX_hit; assumption.
Qed.

Lemma output_evaluateMX_sensitivities_witness :
  let s := {| mx_store := Examples.symbolic_store;
              fwdSeed_ := [[MX_sym 7; MX_sym 8]] |} in
  let r := EvaluationOutput_evaluateMX (MX_sym 9) 1 1 [Some 10%nat; Some 11%nat]
             [Some 20%nat] [[None; Some 30%nat]] [[Some 40%nat]] [] [] false s in
  mx_store (snd r) !! 40%nat
  = Some (MX_plus (MX_zeros 1 1) (MX_prod (MX_jac (MX_sym 9) 1) (MX_sym 8))) /\
  mx_store (snd r) !! 30%nat = Some (MX_sym 2).
Proof.
  intros s r.
  destruct (output_evaluateMX_sensitivities (MX_sym 9) 1 1 [Some 10%nat; Some 11%nat]
              [Some 20%nat] [[None; Some 30%nat]] [[Some 40%nat]] [] [] false s)
    as (_ & _ & Hframe & Hhit).
  unfold r. split.
  - rewrite (Hhit 0%nat 40%nat); [reflexivity|simpl; lia|reflexivity|].
    intros d' Hd'. simpl in Hd'. lia.
  - rewrite Hframe; [reflexivity|].
    intros d Hd. simpl in Hd. destruct d as [|d]; [discriminate|lia].
Defined.

(** X22.  The two halves together.  After [Evaluation::evaluateMX] has
    run on the parent, [EvaluationOutput::evaluateMX], given the same
    inputs and forward seeds, leaves in [*fwdSens[d][0]] the sum, over
    the inputs with a non-null seed, of [jac(iind)] times the seed
    expression [*fwdSeed[d][iind]] as it was when the parent ran. *)
Theorem evaluateMX_propagates_seeds (this : MX) (size1 size2 psize1 psize2 : nat)
    (input output poutput : list ptr)
    (fwdSeed fwdSens pfwdSens adjSeed adjSens_ : list (list ptr))
    (output_given : bool) (s : MXState) (d l : nat) :
  let s1 := snd (evaluateMX psize1 psize2 input poutput fwdSeed pfwdSens adjSeed adjSens_
                            output_given s) in
  let r := EvaluationOutput_evaluateMX this size1 size2 input output
             fwdSeed fwdSens adjSeed adjSens_ output_given s1 in
  (d < length fwdSens)%nat -> (d < length pfwdSens)%nat ->
  ptr_at (ptrs_at fwdSens d) 0 = Some l ->
  (forall d', (d < d' < length fwdSens)%nat -> ptr_at (ptrs_at fwdSens d') 0 <> Some l) ->
  mx_store (snd r) !! l
  = Some (fold_left
            (fun acc iind =>
               match ptr_at (ptrs_at fwdSeed d) iind with
               | None => acc
               | Some q => MX_plus acc (MX_prod (MX_jac this iind)
                                                (mx_at (mx_store s) (Some q)))
               end)
            (seq 0 (length input)) (MX_zeros size1 size2)).
Proof.
  intros s1 r Hd Hdp Hq Hlater. unfold r.
  rewrite (output_evaluateMX_hit this size1 size2 input output fwdSeed fwdSens adjSeed
             adjSens_ output_given s1 d l Hd Hq Hlater).
  f_equal. apply fold_left_ext_in. intros acc iind Hin. apply in_seq in Hin.
  destruct (ptr_at (ptrs_at fwdSeed d) iind) as [q|] eqn:Eq; [|reflexivity].
  do 2 f_equal.
  assert (Hs1 : s1 = snd (copy_fwdSeed (length input) (length pfwdSens) fwdSeed s))
    by reflexivity.
  rewrite Hs1. unfold seed_at. cbn [copy_fwdSeed snd fwdSeed_ mx_store].
  rewrite alter_fold_lookup by exact Hdp.
  destruct (lookup_lt_is_Some_2 (resize (length pfwdSens) [] (fwdSeed_ s)) d) as [row0 Hrow0].
  { rewrite length_resize. exact Hdp. }
  rewrite Hrow0. cbn.
  rewrite (copy_row_lookup (mx_store s) (length input) (ptrs_at fwdSeed d) row0 iind q)
    by (try exact Eq; lia).
  reflexivity.
Qed.

Lemma evaluateMX_propagates_seeds_witness :
  let s := {| mx_store := Examples.symbolic_store; fwdSeed_ := [] |} in
  let s1 := snd (evaluateMX 1 1 [Some 10%nat; Some 11%nat] [Some 20%nat]
                            [[Some 30%nat; None]] [[Some 40%nat]] [] [] false s) in
  let r := EvaluationOutput_evaluateMX (MX_sym 9) 1 1 [Some 10%nat; Some 11%nat]
             [Some 20%nat] [[Some 30%nat; None]] [[Some 40%nat]] [] [] false s1 in
  mx_store (snd r) !! 40%nat
  = Some (MX_plus (MX_zeros 1 1) (MX_prod (MX_jac (MX_sym 9) 0) (MX_sym 2))).
Proof.
  intros s s1 r. unfold r, s1.
  rewrite (evaluateMX_propagates_seeds (MX_sym 9) 1 1 1 1 [Some 10%nat; Some 11%nat]
             [Some 20%nat] [Some 20%nat] [[Some 30%nat; None]] [[Some 40%nat]]
             [[Some 40%nat]] [] [] false s 0 40).
  - reflexivity.
  - simpl. lia.
  - simpl. lia.
  - reflexivity.
  - intros d' Hd'. simpl in Hd'. lia.
Defined.

Section Columns.

Variable size2_of : MX -> nat.

Lemma find_ncol_snoc (x : list MX) (e : MX) :
  find_ncol size2_of (x ++ [e])
  = if isNull e then find_ncol size2_of x else Z.of_nat (size2_of e).
Proof. unfold find_ncol. rewrite fold_left_app. reflexivity. Qed.

Lemma find_ncol_spec (x : list MX) :
  (find_ncol size2_of x = (-1)%Z /\ Forall (fun e => isNull e = true) x) \/
  (exists pre e post,
     x = pre ++ e :: post /\ isNull e = false /\ Forall (fun e => isNull e = true) post /\
     find_ncol size2_of x = Z.of_nat (size2_of e)).
Proof.
  induction x as [|e x IH] using rev_ind.
  - left. split; [reflexivity|constructor].
  - rewrite find_ncol_snoc. destruct (isNull e) eqn:E.
    + destruct IH as [[Hn Hall]|(pre & e0 & post & -> & He0 & Hpost & Hn)].
      * left. split; [exact Hn|]. apply Forall_app. split; [exact Hall|].
        constructor; [exact E|constructor].
      * right. exists pre, e0, (post ++ [e]). split; [rewrite <- app_assoc; reflexivity|].
        split; [exact He0|]. split; [|exact Hn].
        apply Forall_app. split; [exact Hpost|]. constructor; [exact E|constructor].
    + right. exists x, e, []. split; [reflexivity|]. split; [exact E|].
      split; [constructor|reflexivity].
Qed.

End Columns.

(** X23.  The pair [Evaluation::adFwd] and [EvaluationOutput::adFwd]
    (lines 219-248).  The parent stores the seeds [jx] and returns the
    null expression.  The output node then works on the stored seeds,
    not on its own argument: its assertion fails exactly when all of
    them are null; otherwise it returns [zeros(size(), ncol)], with
    [ncol] the number of columns of the last non-null seed, plus the
    products [jac(i) * jx[i]] of the non-null seeds in the order of
    [i]. *)
Theorem adFwd_of_output (this : MX) (size : nat) (size2_of : MX -> nat)
    (jx jx' : list MX) :
  let x_ := fst (adFwd jx) in
  let r := EvaluationOutput_adFwd this size size2_of x_ jx' in
  snd (adFwd jx) = MX_null /\
  (r = None <-> Forall (fun e => isNull e = true) jx) /\
  (forall pre e post,
     jx = pre ++ e :: post -> isNull e = false ->
     Forall (fun e => isNull e = true) post ->
     r = Some (fold_left
                 (fun ret i =>
                    if isNull (nth i jx MX_null) then ret
                    else MX_plus ret (MX_prod (MX_jac this i) (nth i jx MX_null)))
                 (seq 0 (length jx)) (MX_zeros size (size2_of e)))).
Proof.
  intros x_ r. split; [reflexivity|].
  unfold r, x_, EvaluationOutput_adFwd, adFwd. cbn [fst]. cbv zeta.
  assert (Hlast : forall pre e post,
            jx = pre ++ e :: post -> isNull e = false ->
            Forall (fun e => isNull e = true) post ->
            find_ncol size2_of jx = Z.of_nat (size2_of e)).
  { intros pre e post -> He Hpost. clear r x_.
    induction post as [|p post IH] using rev_ind.
    - change (pre ++ [e]) with (pre ++ [e]). rewrite find_ncol_snoc, He. reflexivity.
    - apply Forall_app in Hpost as [Hpost Hp]. apply Forall_cons in Hp as [Hp _].
      change (pre ++ e :: post ++ [p]) with (pre ++ (e :: post) ++ [p]).
      rewrite app_assoc, find_ncol_snoc, Hp. apply IH, Hpost. }
  destruct (find_ncol_spec size2_of jx)
    as [[Hn Hall]|(pre & e & post & Hjx & He & Hpost & Hn)].
  - rewrite Hn. cbn. split.
    + split; [intros _; exact Hall|reflexivity].
    + intros pre e post Hjx He _. exfalso. rewrite Hjx in Hall.
      apply Forall_app in Hall as [_ Hall]. apply Forall_cons in Hall as [Hall _]. congruence.
  - rewrite Hn. destruct (Z.leb_spec 0 (Z.of_nat (size2_of e))); [|lia]. split.
    + split; [discriminate|]. intros Hall. exfalso. rewrite Hjx in Hall.
      apply Forall_app in Hall as [_ Hall]. apply Forall_cons in Hall as [Hall _]. congruence.
    + intros pre' e' post' Hjx' He' Hpost'.
      pose proof (Hlast pre' e' post' Hjx' He' Hpost') as Hn'.
      rewrite Hn in Hn'. rewrite Nat2Z.id. apply Nat2Z.inj in Hn'. rewrite Hn'. reflexivity.
Qed.

Lemma adFwd_of_output_witness :
  EvaluationOutput_adFwd (MX_sym 9) 2 (fun e => match e with MX_sym 0 => 3 | _ => 5 end)%nat
    (fst (adFwd [MX_sym 0; MX_null; MX_sym 1; MX_null])) []
  = Some (MX_plus (MX_plus (MX_zeros 2 5) (MX_prod (MX_jac (MX_sym 9) 0) (MX_sym 0)))
                  (MX_prod (MX_jac (MX_sym 9) 2) (MX_sym 1))).
Proof.
  destruct (adFwd_of_output (MX_sym 9) 2
              (fun e => match e with MX_sym 0 => 3 | _ => 5 end)%nat
              [MX_sym 0; MX_null; MX_sym 1; MX_null] []) as (_ & _ & H).
  rewrite (H [MX_sym 0; MX_null] (MX_sym 1) [MX_null]); try reflexivity.
  repeat constructor.
Defined.
